(** * okla-short: the resilience layer of the video-to-shorts pipeline

    A shallow embedding of
      - [scripts/process_pipeline.py]: [GeminiKeyManager], [call_huggingface_api],
        [call_gemini_api], [check_video_availability], [parse_gemini_response],
        [analyze_transcript], [process_single_video];
      - [scripts/transcript_manager.py]: [get_active_key], [mark_key_used],
        [disable_key], [wait_for_testmail_message],
        [auto_register_and_save_key], [fetch_transcript_with_retry];
      - [database.py]: the [PlaylistVideo], [ApiKey], [Video] and
        [NoTranscriptVideo] rows.

    Conventions of the embedding.
      - Python exceptions are values of [exn]; a computation that may raise
        returns a [result].
      - Every call that leaves the process (HTTP, yt-dlp, ffmpeg, R2, the
        random generator, the clock) is answered by an oracle of the
        environment; the calls made are appended to a log, newest first.
      - The record store is reliable: [commit], [add] and [merge] succeed,
        except in [auto_register_and_save_key] where the source handles the
        failure itself.
      - JSON numbers are integers (seconds); strings are sequences of
        one-byte characters. *)

From Stdlib Require Import String Ascii ZArith Lia Bool Arith PeanoNat List.
From Stdlib Require DecimalString.
From Equations Require Import Equations.
Import ListNotations.

Set Implicit Arguments.
Set Warnings "-register-all".

(* ===================================================================== *)
(** ** Python values and primitives                                       *)
(* ===================================================================== *)

Module Py.

(** The response object carried by an [HTTPError] as [e.response]. The
    source tests the object itself ([if e.response]); [response_truth] is
    the value of [bool(e.response)], which the HTTP library decides. *)
Record Response : Type := mkResponse {
  status_code : Z;
  response_truth : bool
}.

Inductive exn : Type :=
| IndexError | KeyError | TypeError | AttributeError | ValueError
| ZeroDivisionError
| HTTPError (response : option Response).

Inductive result (A : Type) : Type :=
| Ok (a : A)
| Raise (e : exn).
Arguments Ok {A} a.
Arguments Raise {A} e.

Definition bind {A B} (r : result A) (k : A -> result B) : result B :=
  match r with
  | Ok a => k a
  | Raise e => Raise e
  end.

Definition is_ok {A} (r : result A) : bool :=
  match r with Ok _ => true | Raise _ => false end.

(** What [json.loads] and [response.json()] produce. *)
Inductive json : Type :=
| JNull
| JBool (b : bool)
| JNum (n : Z)
| JStr (s : string)
| JArr (items : list json)
| JObj (fields : list (string * json)).

(** [bool(v)]. *)
Definition truthy (v : json) : bool :=
  match v with
  | JNull => false
  | JBool b => b
  | JNum n => negb (n =? 0)%Z
  | JStr s => negb (s =? "")%string
  | JArr l => match l with [] => false | _ => true end
  | JObj l => match l with [] => false | _ => true end
  end.

(** Truthiness of an [Optional[str]]: [None] and [''] are falsy. *)
Definition str_truthy (o : option string) : bool :=
  match o with
  | Some s => negb (s =? "")%string
  | None => false
  end.

(** [d.get(k)] on the fields of an object. *)
Fixpoint dict_get (k : string) (d : list (string * json)) : option json :=
  match d with
  | [] => None
  | (k', v) :: d' => if (k' =? k)%string then Some v else dict_get k d'
  end.

Definition dict_has (k : string) (d : list (string * json)) : bool :=
  match dict_get k d with Some _ => true | None => false end.

(** [l[i]] on a list. *)
Definition list_index {A} (l : list A) (i : nat) : result A :=
  match nth_error l i with
  | Some a => Ok a
  | None => Raise IndexError
  end.

Fixpoint remove_at {A} (i : nat) (l : list A) : list A :=
  match l, i with
  | [], _ => []
  | _ :: l', O => l'
  | a :: l', S i' => a :: remove_at i' l'
  end.

(** [l.pop(i)]: the list without its [i]-th element. *)
Definition list_pop {A} (l : list A) (i : nat) : result (list A) :=
  if i <? length l then Ok (remove_at i l) else Raise IndexError.

Fixpoint replace_at {A} (i : nat) (a : A) (l : list A) : list A :=
  match l, i with
  | [], _ => []
  | _ :: l', O => a :: l'
  | b :: l', S i' => b :: replace_at i' a l'
  end.

(** [v[k]] for a string subscript [k]. *)
Definition getitem (v : json) (k : string) : result json :=
  match v with
  | JObj d => match dict_get k d with
              | Some x => Ok x
              | None => Raise KeyError
              end
  | _ => Raise TypeError
  end.

(** [v[i]] for an integer subscript [i >= 0]: an element of an array, a
    character of a string; on an object the integer is not one of its
    (string) keys. *)
Definition getindex (v : json) (i : nat) : result json :=
  match v with
  | JArr l => list_index l i
  | JStr s => match String.get i s with
              | Some c => Ok (JStr (String c EmptyString))
              | None => Raise IndexError
              end
  | JObj _ => Raise KeyError
  | _ => Raise TypeError
  end.

(** [len(v)]. *)
Definition len (v : json) : result nat :=
  match v with
  | JArr l => Ok (length l)
  | JObj d => Ok (length d)
  | JStr s => Ok (String.length s)
  | _ => Raise TypeError
  end.

(** [a - b]: numbers and booleans subtract, everything else raises. *)
Definition as_number (v : json) : option Z :=
  match v with
  | JNum n => Some n
  | JBool true => Some 1%Z
  | JBool false => Some 0%Z
  | _ => None
  end.

Definition sub (a b : json) : result Z :=
  match as_number a, as_number b with
  | Some x, Some y => Ok (x - y)%Z
  | _, _ => Raise TypeError
  end.

(** Characters removed by [str.strip()]. *)
Definition is_space (c : ascii) : bool :=
  let n := nat_of_ascii c in
  ((9 <=? n) && (n <=? 13)) || ((28 <=? n) && (n <=? 32)).

Fixpoint lstrip (s : string) : string :=
  match s with
  | EmptyString => EmptyString
  | String c s' => if is_space c then lstrip s' else s
  end.

Fixpoint rev_string (s acc : string) : string :=
  match s with
  | EmptyString => acc
  | String c s' => rev_string s' (String c acc)
  end.

Definition rstrip (s : string) : string :=
  rev_string (lstrip (rev_string s EmptyString)) EmptyString.

Definition strip (s : string) : string := rstrip (lstrip s).

Definition startswith (s p : string) : bool := String.prefix p s.

Definition endswith (s p : string) : bool :=
  String.prefix (rev_string p EmptyString) (rev_string s EmptyString).

(** [s[n:]] and [s[:-n]]. *)
Definition drop (n : nat) (s : string) : string :=
  String.substring n (String.length s - n) s.

Definition drop_end (n : nat) (s : string) : string :=
  String.substring 0 (String.length s - n) s.

(** [p in s] for two strings. *)
Fixpoint contains (p s : string) : bool :=
  String.prefix p s ||
  match s with
  | EmptyString => false
  | String _ s' => contains p s'
  end.

(** [k in v] for a string [k]: key of an object, element of an array,
    substring of a string; the other values are not containers. *)
Definition str_in (k : string) (v : json) : result bool :=
  match v with
  | JObj d => Ok (dict_has k d)
  | JArr l => Ok (existsb (fun x => match x with
                                    | JStr s => (s =? k)%string
                                    | _ => false
                                    end) l)
  | JStr s => Ok (contains k s)
  | _ => Raise TypeError
  end.

(** [for x in v]: the values a [for] loop sees, or [TypeError]. *)
Definition iterate (v : json) : result (list json) :=
  match v with
  | JArr l => Ok l
  | JObj d => Ok (map (fun kv => JStr (fst kv)) d)
  | JStr s => Ok (map (fun c => JStr (String c EmptyString)) (list_ascii_of_string s))
  | _ => Raise TypeError
  end.

(** [random.randint(lo, hi)] drawn from the entropy [rnd]. *)
Definition randint (lo hi rnd : nat) : nat := lo + rnd mod (hi - lo + 1).

End Py.

Import Py.

(* ===================================================================== *)
(** ** GeminiKeyManager (process_pipeline.py)                             *)
(* ===================================================================== *)

Module KeyManager.

(** One dictionary of [self.keys]. *)
Record KeyEntry : Type := mkEntry {
  entry_key : option string;      (* k.get('key') *)
  entry_status : option string    (* k.get('status') *)
}.

(** One element of the list given to the constructor. *)
Inductive key_input : Type :=
| KStr (k : string)
| KDict (d : KeyEntry)
| KOther.

Record GeminiKeyManager : Type := mkManager {
  keys : list KeyEntry;
  current_index : nat
}.

Definition set_index (m : GeminiKeyManager) (i : nat) : GeminiKeyManager :=
  mkManager (keys m) i.

Definition is_active (e : KeyEntry) : bool :=
  match entry_status e with
  | Some s => (s =? "active")%string
  | None => false
  end.

Fixpoint load_keys (inputs : list key_input) : list KeyEntry :=
  match inputs with
  | [] => []
  | KStr k :: rest => mkEntry (Some k) (Some "active"%string) :: load_keys rest
  | KDict d :: rest => if is_active d then d :: load_keys rest else load_keys rest
  | KOther :: rest => load_keys rest
  end.

(** [__init__]; [rnd] is the entropy consumed by [random.randint]. *)
Definition init (inputs : list key_input) (rnd : nat) : GeminiKeyManager :=
  let ks := load_keys inputs in
  mkManager ks (match ks with
                | [] => 0
                | _ => randint 0 (length ks - 1) rnd
                end).

Definition get_active_count (m : GeminiKeyManager) : nat := length (keys m).

Definition get_current_key (m : GeminiKeyManager)
  : result (option string * GeminiKeyManager) :=
  match keys m with
  | [] => Ok (None, m)
  | _ =>
      let m1 := if length (keys m) <=? current_index m then set_index m 0 else m in
      bind (list_index (keys m1) (current_index m1))
           (fun e => Ok (entry_key e, m1))
  end.

Definition rotate_key (m : GeminiKeyManager) : GeminiKeyManager :=
  match keys m with
  | [] => m
  | _ => set_index m ((current_index m + 1) mod length (keys m))
  end.

Definition disable_current_key (m : GeminiKeyManager) (reason : string)
  : result GeminiKeyManager :=
  match keys m with
  | [] => Ok m
  | _ =>
      if current_index m <? length (keys m) then
        bind (list_index (keys m) (current_index m)) (fun e =>
        let ks1 := replace_at (current_index m)
                     (mkEntry (entry_key e) (Some "disabled"%string)) (keys m) in
        bind (list_pop ks1 (current_index m)) (fun ks2 =>
        Ok (mkManager ks2
              (if length ks2 <=? current_index m then 0 else current_index m))))
      else Ok m
  end.

(** The operations a caller can apply to the pool. *)
Inductive pool_op : Type :=
| OpGet
| OpRotate
| OpDisable (reason : string).

Definition apply_op (o : pool_op) (m : GeminiKeyManager) : result GeminiKeyManager :=
  match o with
  | OpGet => bind (get_current_key m) (fun r => Ok (snd r))
  | OpRotate => Ok (rotate_key m)
  | OpDisable reason => disable_current_key m reason
  end.

Fixpoint apply_ops (ops : list pool_op) (m : GeminiKeyManager) : result GeminiKeyManager :=
  match ops with
  | [] => Ok m
  | o :: rest => bind (apply_op o m) (apply_ops rest)
  end.

(** The rotation index points into the working set. *)
Definition in_bounds (m : GeminiKeyManager) : Prop :=
  keys m <> [] -> current_index m < length (keys m).



End KeyManager.

(* ===================================================================== *)
(** ** The provider fallback chain (process_pipeline.py)                  *)
(* ===================================================================== *)

Module AI.

Import KeyManager.

Definition MAX_GEMINI_RETRIES : nat := 10.

(** What [requests.post], [raise_for_status] and [response.json()] give. *)
Inductive post_outcome : Type :=
| PostOk (body : json)
| PostHTTPError (resp : option Response)
| PostException.

Record Env : Type := mkEnv {
  gemini_post : nat -> string -> post_outcome;  (* by call number, with the key sent *)
  HUGGINGFACE_TOKEN : string;
  hf_post : nat -> post_outcome;
  json_loads : string -> option json;           (* [None]: JSONDecodeError *)
  availability_prompt : string -> string        (* the f-string around video_id *)
}.

(** Calls made by the chain, newest first. [AEnter] marks an activation of
    [call_gemini_api] with its [retry_count]. *)
Inductive AEvent : Type :=
| AEnter (retry_count : nat)
| AGeminiPost (key : string)
| AHfCall
| AHfPost
| ASleep (seconds : nat).

Definition is_hf_call (e : AEvent) : bool :=
  match e with AHfCall => true | _ => false end.

Definition is_enter (e : AEvent) : bool :=
  match e with AEnter _ => true | _ => false end.

Definition is_gemini_post (e : AEvent) : bool :=
  match e with AGeminiPost _ => true | _ => false end.

Definition count (p : AEvent -> bool) (log : list AEvent) : nat :=
  length (filter p log).

Definition gemini_format (content : json) : json :=
  JObj [("candidates"%string,
         JArr [JObj [("content"%string,
                      JObj [("parts"%string,
                             JArr [JObj [("text"%string, content)]])])]])].

(** The body of the [try] of [call_huggingface_api] after [response.json()]. *)
Definition hf_convert (data : json) : option json :=
  match
    bind (str_in "choices" data) (fun has =>
    if has then
      bind (getitem data "choices") (fun ch =>
      bind (len ch) (fun n =>
      if 0 <? n then
        bind (getitem data "choices") (fun ch' =>
        bind (getindex ch' 0) (fun c0 =>
        bind (getitem c0 "message") (fun msg =>
        bind (getitem msg "content") (fun content =>
        Ok (Some (gemini_format content))))))
      else Ok None))
    else Ok None)
  with
  | Ok r => r
  | Raise _ => None
  end.

Definition call_huggingface_api (env : Env) (prompt : string) (log : list AEvent)
  : option json * list AEvent :=
  let log0 := AHfCall :: log in
  if (HUGGINGFACE_TOKEN env =? "")%string then (None, log0)
  else
    let log1 := AHfPost :: log0 in
    match hf_post env (length log0) with
    | PostOk data => (hf_convert data, log1)
    | PostHTTPError _ => (None, log1)
    | PostException => (None, log1)
    end.

(** [hf_response = call_huggingface_api(prompt)] followed by
    [return hf_response if hf_response else None]. *)
Definition hf_backup (env : Env) (prompt : string) (km : GeminiKeyManager)
  (log : list AEvent) : result (option json) * (GeminiKeyManager * list AEvent) :=
  let '(r, log') := call_huggingface_api env prompt log in
  (Ok (match r with
       | Some v => if truthy v then Some v else None
       | None => None
       end), (km, log')).

(** [e.response.status_code if e.response else None]. *)
Definition error_status (resp : option Response) : option Z :=
  match resp with
  | Some r => if response_truth r then Some (status_code r) else None
  | None => None
  end.

Definition status_in (codes : list Z) (status : option Z) : bool :=
  match status with
  | Some c => existsb (Z.eqb c) codes
  | None => false
  end.

Definition http_msg (status : option Z) : string :=
  match status with
  | Some c => "HTTP " ++ DecimalString.NilZero.string_of_int (Z.to_int c)
  | None => "HTTP None"
  end.

(** One activation of [call_gemini_api] below the retry budget; [again]
    is the call of itself with [retry_count + 1]. *)
Definition gemini_round (env : Env) (prompt : string) (retry_count : nat)
  (km : GeminiKeyManager) (log0 : list AEvent)
  (again : GeminiKeyManager -> list AEvent ->
           result (option json) * (GeminiKeyManager * list AEvent))
  : result (option json) * (GeminiKeyManager * list AEvent) :=
  match get_current_key km with
  | Raise e => (Raise e, (km, log0))
  | Ok (None, km1) => hf_backup env prompt km1 log0
  | Ok (Some api_key, km1) =>
    if (api_key =? "")%string then hf_backup env prompt km1 log0
    else
      let log1 := AGeminiPost api_key :: log0 in
      match gemini_post env (length log0) api_key with
      | PostOk body => (Ok (Some body), (km1, log1))
      | PostHTTPError resp =>
        let status := error_status resp in
        if status_in [400; 403; 429; 503]%Z status then
          if status_in [503]%Z status then
            if 0 <? get_active_count km1 then
              again (rotate_key km1) (ASleep 2 :: log1)
            else hf_backup env prompt km1 log1
          else
            match disable_current_key km1 (http_msg status) with
            | Raise e => (Raise e, (km1, log1))
            | Ok km2 =>
              if 0 <? get_active_count km2 then
                again (rotate_key km2) (ASleep 1 :: log1)
              else (Ok None, (km2, log1))
            end
        else (Ok None, (km1, log1))
      | PostException =>
        if 0 <? get_active_count km1 then
          again (rotate_key km1) (ASleep 1 :: log1)
        else (Ok None, (km1, log1))
      end
  end.

Equations? call_gemini_api (env : Env) (prompt : string) (retry_count : nat)
  (km : GeminiKeyManager) (log : list AEvent)
  : result (option json) * (GeminiKeyManager * list AEvent)
  by wf (MAX_GEMINI_RETRIES - retry_count) lt :=
call_gemini_api env prompt retry_count km log
  with le_lt_dec MAX_GEMINI_RETRIES retry_count := {
  | left _ => hf_backup env prompt km (AEnter retry_count :: log)
  | right Hlt =>
    gemini_round env prompt retry_count km (AEnter retry_count :: log)
      (fun km' log' => call_gemini_api env prompt (retry_count + 1) km' log') }.
Proof.
  change (10 - (retry_count + 1) < 10 - retry_count).
  unfold MAX_GEMINI_RETRIES in Hlt. lia.
Qed.

(** The text of [response['candidates'][0]['content']['parts'][0]['text']],
    on which [strip] is then called. *)
Definition response_text (response : json) : result string :=
  bind (getitem response "candidates") (fun cs =>
  bind (getindex cs 0) (fun c0 =>
  bind (getitem c0 "content") (fun content =>
  bind (getitem content "parts") (fun parts =>
  bind (getindex parts 0) (fun p0 =>
  bind (getitem p0 "text") (fun t =>
  match t with
  | JStr s => Ok s
  | _ => Raise AttributeError
  end)))))).

(** Removal of the markdown fence around the answer. *)
Definition clean_text (text : string) : string :=
  let text := strip text in
  let text := if startswith text "```json" then drop 7 text
              else if startswith text "```" then drop 3 text
              else text in
  let text := if endswith text "```" then drop_end 3 text else text in
  strip text.

Definition REQUIRED_FIELDS : list string :=
  ["start"; "end"; "title"; "description"]%string.

(** [all(k in seg for k in [...])]: stops at the first missing field. *)
Fixpoint all_in (ks : list string) (seg : json) : result bool :=
  match ks with
  | [] => Ok true
  | k :: ks' => bind (str_in k seg) (fun b => if b then all_in ks' seg else Ok false)
  end.

(** One round of the validation loop on [valid_segments]. *)
Definition validate_one (seg : json) (valid : list json) : result (list json) :=
  bind (all_in REQUIRED_FIELDS seg) (fun b =>
  if b then
    bind (getitem seg "end") (fun e =>
    bind (getitem seg "start") (fun s =>
    bind (sub e s) (fun duration =>
    if (120 <=? duration)%Z then
      bind (getitem seg "title") (fun _ => Ok (valid ++ [seg]))
    else Ok valid)))
  else Ok valid).

Fixpoint validate_loop (segs : list json) (valid : list json) : result (list json) :=
  match segs with
  | [] => Ok valid
  | seg :: rest => bind (validate_one seg valid) (validate_loop rest)
  end.

Definition parse_gemini_response (env : Env) (response : json) : option (list json) :=
  match response_text response with
  | Raise _ => None
  | Ok text =>
    match json_loads env (clean_text text) with
    | None => None
    | Some data =>
      match str_in "segments" data with
      | Raise _ => None
      | Ok false => None
      | Ok true =>
        match bind (getitem data "segments") (fun segments =>
              bind (iterate segments) (fun segs => validate_loop segs []))
        with
        | Raise _ => None
        | Ok [] => None
        | Ok (seg :: valid) => Some (seg :: valid)
        end
      end
    end
  end.

(** [response] as tested by [if not response]. *)
Definition usable (response : option json) : bool :=
  match response with
  | Some v => truthy v
  | None => false
  end.

(** [data.get('available', True)] after the same cleaning; any exception
    of the [try] gives [True]. *)
Definition availability_of (env : Env) (response : json) : json :=
  match response_text response with
  | Raise _ => JBool true
  | Ok text =>
    match json_loads env (clean_text text) with
    | Some (JObj d) =>
      match dict_get "available" d with
      | Some v => v
      | None => JBool true
      end
    | _ => JBool true
    end
  end.

Definition check_video_availability (env : Env) (video_id : string)
  (km : GeminiKeyManager) (log : list AEvent)
  : result json * (GeminiKeyManager * list AEvent) :=
  let '(r, st) := call_gemini_api env (availability_prompt env video_id) 0 km log in
  match r with
  | Raise e => (Raise e, st)
  | Ok response =>
    match response with
    | Some v => if truthy v then (Ok (availability_of env v), st)
                else (Ok (JBool true), st)
    | None => (Ok (JBool true), st)
    end
  end.

(** The [for attempt in range(max_retries)] loop of [analyze_transcript];
    [remaining] rounds are left and [attempt] is the loop variable. *)
Fixpoint analyze_loop (env : Env) (prompt : string) (max_retries : nat)
  (remaining attempt : nat) (km : GeminiKeyManager) (log : list AEvent)
  : result (option (list json)) * (GeminiKeyManager * list AEvent) :=
  match remaining with
  | O => (Ok None, (km, log))
  | S remaining' =>
    let '(r, (km1, log1)) := call_gemini_api env prompt 0 km log in
    match r with
    | Raise e => (Raise e, (km1, log1))
    | Ok response =>
      if negb (usable response) then
        if attempt <? max_retries - 1 then
          analyze_loop env prompt max_retries remaining' (S attempt) km1 (ASleep 2 :: log1)
        else
          let '(hf, log2) := call_huggingface_api env prompt log1 in
          match hf with
          | Some v =>
            if truthy v then (Ok (parse_gemini_response env v), (km1, log2))
            else (Ok None, (km1, log2))
          | None => (Ok None, (km1, log2))
          end
      else
        match response with
        | None => (Ok None, (km1, log1))
        | Some v =>
          match parse_gemini_response env v with
          | Some (seg :: segs) => (Ok (Some (seg :: segs)), (km1, log1))
          | _ =>
            if attempt <? max_retries - 1 then
              analyze_loop env prompt max_retries remaining' (S attempt)
                (rotate_key km1) (ASleep 2 :: log1)
            else
              analyze_loop env prompt max_retries remaining' (S attempt) km1 log1
          end
        end
    end
  end.

Definition analyze_transcript (env : Env) (prompt : string)
  (km : GeminiKeyManager) (log : list AEvent)
  : result (option (list json)) * (GeminiKeyManager * list AEvent) :=
  analyze_loop env prompt 3 3 0 km log.

(** [end - start] of a segment whose bounds are numbers. *)
Definition duration_of (seg : json) : option Z :=
  match seg with
  | JObj d =>
    match dict_get "end" d, dict_get "start" d with
    | Some e, Some s =>
      match as_number e, as_number s with
      | Some x, Some y => Some (x - y)%Z
      | _, _ => None
      end
    | _, _ => None
    end
  | _ => None
  end.

Definition has_all_fields (seg : json) : bool :=
  match seg with
  | JObj d => forallb (fun k => dict_has k d) REQUIRED_FIELDS
  | _ => false
  end.

(** A segment with its four fields and a duration of at least 120. *)
Definition acceptable (seg : json) : bool :=
  has_all_fields seg &&
  match duration_of seg with
  | Some d => (120 <=? d)%Z
  | None => false
  end.


(** The pool as one call of the chain leaves it. *)
Definition pool_after (env : Env) (prompt : string) (retry_count : nat)
  (km : GeminiKeyManager) (log : list AEvent) : GeminiKeyManager :=
  fst (snd (call_gemini_api env prompt retry_count km log)).


End AI.

(* ===================================================================== *)
(** ** TranscriptAPI keys, provisioning and fetching (transcript_manager.py) *)
(* ===================================================================== *)

Module Transcript.

(** A row of [api_keys] (database.py). *)
Record ApiKey : Type := mkApiKey {
  row_id : nat;
  service : string;
  api_key : string;
  email : option string;
  password : option string;
  status : string;
  usage_count : option nat;
  disabled_reason : option string;
  last_used : option nat;
  updated_at : option nat
}.

(** The table with its autoincrement counter. *)
Record KeyTable : Type := mkTable {
  rows : list ApiKey;
  next_id : nat
}.

Definition set_rows (t : KeyTable) (rs : list ApiKey) : KeyTable :=
  mkTable rs (next_id t).

(** [.first()] of a query, then an update of that row. *)
Fixpoint update_first (p : ApiKey -> bool) (f : ApiKey -> ApiKey)
  (rs : list ApiKey) : list ApiKey :=
  match rs with
  | [] => []
  | r :: rs' => if p r then f r :: rs' else r :: update_first p f rs'
  end.

Definition is_active_transcript_key (r : ApiKey) : bool :=
  (service r =? "transcript_api")%string && (status r =? "active")%string.

(** [ORDER BY last_used ASC NULLS FIRST]. *)
Definition last_used_le (a b : option nat) : bool :=
  match a, b with
  | None, _ => true
  | Some _, None => false
  | Some x, Some y => x <=? y
  end.

Definition earlier (best : option ApiKey) (r : ApiKey) : option ApiKey :=
  match best with
  | None => Some r
  | Some b => if last_used_le (last_used b) (last_used r) then Some b else Some r
  end.

Definition get_active_key (t : KeyTable) : option ApiKey :=
  fold_left earlier (filter is_active_transcript_key (rows t)) None.

Definition mark_key_used (t : KeyTable) (key_id : nat) (now : nat) : KeyTable :=
  set_rows t
    (update_first (fun r => row_id r =? key_id)
       (fun r => mkApiKey (row_id r) (service r) (api_key r) (email r) (password r)
                   (status r)
                   (Some (match usage_count r with Some n => n | None => 0 end + 1))
                   (disabled_reason r) (Some now) (updated_at r))
       (rows t)).

Definition disable_key (t : KeyTable) (key_id : nat) (reason : string) (now : nat)
  : KeyTable :=
  set_rows t
    (update_first (fun r => row_id r =? key_id)
       (fun r => mkApiKey (row_id r) (service r) (api_key r) (email r) (password r)
                   "disabled" (usage_count r) (Some reason) (last_used r) (Some now))
       (rows t)).

Definition get_active_keys_count (t : KeyTable) : nat :=
  length (filter is_active_transcript_key (rows t)).

(** [db_session.add(new_key); db_session.commit()]: the row gets the next id. *)
Definition insert_key (t : KeyTable) (key email pw : string) : ApiKey * KeyTable :=
  let r := mkApiKey (next_id t) "transcript_api" key (Some email) (Some pw)
             "active" (Some 0) None None None in
  (r, mkTable (rows t ++ [r]) (S (next_id t))).

(** An entry of the tempmail address list and of an inbox. *)
Record EmailRow : Type := mkEmailRow { email_row_id : option Z }.
Record MessageRef : Type := mkMessageRef { message_id : option Z }.

(** What one poll of the testmail inbox gives. *)
Inductive poll_outcome : Type :=
| PollJson (data : json)
| PollTimeout
| PollException.

(** The answers of the outside world during one provisioning run. *)
Record ProvisionRun : Type := mkRun {
  create_temp_email : option (string * Z);
  create_testmail_email : option (string * string);
  generate_random_password : string;
  register_account : string -> string -> bool;
  login_account : string -> string -> option string;
  send_verification_otp : string -> bool;
  testmail_poll : nat -> string -> poll_outcome;     (* by attempt, with the tag *)
  get_email_list : option (list EmailRow);
  get_email_detail : Z -> option (list MessageRef);   (* the 'items' of the inbox *)
  get_email_message : Z -> option string;
  verify_email_with_otp : string -> string -> bool;
  get_api_key_from_account : string -> option string;
  commit_succeeds : bool
}.

Inductive get_outcome : Type :=
| GetResponse (status_code : Z) (body : option json)  (* [None]: json() raised *)
| GetRequestException
| GetOtherException.

Record Env : Type := mkEnv {
  transcript_get : nat -> string -> string -> get_outcome; (* call number, key, video *)
  json_error_is_request_exception : bool;
  provision : nat -> ProvisionRun;
  utcnow : nat -> nat;
  float_of_string : string -> option Z;
  re_otp_div : string -> option string;
  re_six_digits : string -> option string
}.

(** Calls made by this module, newest first. *)
Inductive TEvent : Type :=
| TQueryActive
| TProvision
| THttpGet (key_id : nat) (answer : get_outcome)
| TPoll (attempt : nat)
| TSleep (seconds : nat).

Definition is_poll (e : TEvent) : bool :=
  match e with TPoll _ => true | _ => false end.

Definition is_query (e : TEvent) : bool :=
  match e with TQueryActive => true | _ => false end.

Definition is_http_get (e : TEvent) : bool :=
  match e with THttpGet _ _ => true | _ => false end.

Definition count (p : TEvent -> bool) (log : list TEvent) : nat :=
  length (filter p log).

Record TState : Type := mkTState {
  tbl : KeyTable;
  tlog : list TEvent
}.

Definition record_event (e : TEvent) (st : TState) : TState :=
  mkTState (tbl st) (e :: tlog st).

Definition set_tbl (st : TState) (t : KeyTable) : TState :=
  mkTState t (tlog st).

(** [extract_otp_from_html]: the styled pattern, then any six-digit run. *)
Definition extract_otp_from_html (env : Env) (html_content : string) : option string :=
  match re_otp_div env html_content with
  | Some otp => Some otp
  | None => re_six_digits env html_content
  end.

(** [extract_otp_from_testmail]; a value that is not an object, or a text
    field that is not a string, raises inside the [try] and gives [None]. *)
Definition extract_otp_from_testmail (env : Env) (email_data : json) : option string :=
  match email_data with
  | JObj d =>
    let html_content := match dict_get "html" d with Some v => v | None => JStr "" end in
    let text_content := match dict_get "text" d with Some v => v | None => JStr "" end in
    let otp :=
      if truthy html_content then
        match html_content with
        | JStr h => extract_otp_from_html env h
        | _ => None
        end
      else None in
    if str_truthy otp then otp
    else if truthy text_content then
      match text_content with
      | JStr t => re_six_digits env t
      | _ => None
      end
    else None
  | _ => None
  end.

(** What one round of the polling loop decides. *)
Inductive poll_step : Type :=
| PollReturn (r : option json)
| PollNext (sleep : bool).

Definition retry_or_give_up (attempt max_attempts : nat) : poll_step :=
  if attempt <? max_attempts then PollNext true else PollReturn None.

Definition poll_once (run : ProvisionRun) (tag : string) (attempt max_attempts : nat)
  : poll_step :=
  match testmail_poll run attempt tag with
  | PollJson (JObj d) =>
    let is_success := match dict_get "result" d with
                      | Some (JStr r) => (r =? "success")%string
                      | _ => false
                      end in
    if is_success then
      let emails := match dict_get "emails" d with Some v => v | None => JArr [] end in
      if truthy emails then
        match getindex emails 0 with
        | Ok first => PollReturn (Some first)
        | Raise _ => retry_or_give_up attempt max_attempts
        end
      else if attempt <? max_attempts then PollNext true else PollNext false
    else PollReturn None
  | PollJson _ => retry_or_give_up attempt max_attempts
  | PollTimeout => retry_or_give_up attempt max_attempts
  | PollException => retry_or_give_up attempt max_attempts
  end.

(** [for attempt in range(1, max_attempts + 1)]. *)
Fixpoint poll_loop (run : ProvisionRun) (tag : string) (poll_interval max_attempts : nat)
  (remaining attempt : nat) (log : list TEvent) : option json * list TEvent :=
  match remaining with
  | O => (None, log)
  | S remaining' =>
    let log1 := TPoll attempt :: log in
    match poll_once run tag attempt max_attempts with
    | PollReturn r => (r, log1)
    | PollNext true =>
      poll_loop run tag poll_interval max_attempts remaining' (S attempt)
        (TSleep poll_interval :: log1)
    | PollNext false =>
      poll_loop run tag poll_interval max_attempts remaining' (S attempt) log1
    end
  end.

Definition wait_for_testmail_message (run : ProvisionRun) (tag : string)
  (max_wait poll_interval : nat) (log : list TEvent)
  : result (option json) * list TEvent :=
  match poll_interval with
  | O => (Raise ZeroDivisionError, log)
  | _ =>
    let max_attempts := max_wait / poll_interval in
    let '(r, log') := poll_loop run tag poll_interval max_attempts max_attempts 1 log in
    (Ok r, log')
  end.

(** Steps 5 to 9 on the tempmail path: the code read from the mailbox. *)
Definition tempmail_otp (env : Env) (run : ProvisionRun) (temp_email_id : Z)
  : option string :=
  match get_email_list run with
  | None => None
  | Some [] => None
  | Some email_list =>
    if existsb (fun e => match email_row_id e with
                         | Some i => (i =? temp_email_id)%Z
                         | None => false
                         end) email_list
    then
      match get_email_detail run temp_email_id with
      | None => None
      | Some [] => None
      | Some (first_message :: _) =>
        match message_id first_message with
        | None => None
        | Some mid =>
          if (mid =? 0)%Z then None
          else
            match get_email_message run mid with
            | None => None
            | Some body =>
              if (body =? "")%string then None
              else extract_otp_from_html env body
            end
        end
      end
    else None
  end.

(** Step 1: the tempmail mailbox, else the testmail one. *)
Definition obtain_mailbox (run : ProvisionRun) : option (string * (Z + string)) :=
  match create_temp_email run with
  | Some (email, temp_email_id) => Some (email, inl temp_email_id)
  | None =>
    match create_testmail_email run with
    | Some (email, email_tag) => Some (email, inr email_tag)
    | None => None
    end
  end.

(** Steps 5 to 9: the code, by polling testmail or by reading tempmail
    after the settle delay. *)
Definition retrieve_otp (env : Env) (run : ProvisionRun) (box : Z + string)
  (st : TState) : result (option string) * TState :=
  match box with
  | inr email_tag =>
    let '(r, log') := wait_for_testmail_message run email_tag 60 10 (tlog st) in
    let st1 := mkTState (tbl st) log' in
    match r with
    | Raise e => (Raise e, st1)
    | Ok None => (Ok None, st1)
    | Ok (Some email_data) =>
      if negb (truthy email_data) then (Ok None, st1)
      else (Ok (extract_otp_from_testmail env email_data), st1)
    end
  | inl temp_email_id =>
    (Ok (tempmail_otp env run temp_email_id), record_event (TSleep 30) st)
  end.

(** Steps 10 to 12, common to both mailbox providers. *)
Definition verify_and_save (run : ProvisionRun) (email pw access_token otp_code : string)
  (st : TState) : option ApiKey * TState :=
  if negb (verify_email_with_otp run access_token otp_code) then (None, st)
  else
    let st1 := record_event (TSleep 2) st in
    match get_api_key_from_account run access_token with
    | None => (None, st1)
    | Some key =>
      if (key =? "")%string then (None, st1)
      else if commit_succeeds run then
        let '(r, t') := insert_key (tbl st1) key email pw in
        (Some r, set_tbl st1 t')
      else (None, st1)
    end.

Definition auto_register_and_save_key (env : Env) (st : TState)
  : result (option ApiKey) * TState :=
  let run := provision env (length (tlog st)) in
  let st0 := record_event TProvision st in
  match obtain_mailbox run with
  | None => (Ok None, st0)
  | Some (email, box) =>
    let pw := generate_random_password run in
    if negb (register_account run email pw) then (Ok None, st0)
    else
      let st1 := record_event (TSleep 2) st0 in
      match login_account run email pw with
      | None => (Ok None, st1)
      | Some access_token =>
        if (access_token =? "")%string then (Ok None, st1)
        else
          let st2 := record_event (TSleep 2) st1 in
          if negb (send_verification_otp run access_token) then (Ok None, st2)
          else
            let '(r, st3) := retrieve_otp env run box st2 in
            match r with
            | Raise e => (Raise e, st3)
            | Ok None => (Ok None, st3)
            | Ok (Some otp_code) =>
              if (otp_code =? "")%string then (Ok None, st3)
              else
                let '(k, st4) := verify_and_save run email pw access_token otp_code st3 in
                (Ok k, st4)
            end
      end
  end.

(** One parsed line of a transcript. *)
Record TranscriptEntry : Type := mkTranscriptEntry {
  start : Z;
  duration : Z;
  text : json
}.

(** [float(v)]. *)
Definition py_float (env : Env) (v : json) : result Z :=
  match v with
  | JNum n => Ok n
  | JBool true => Ok 1%Z
  | JBool false => Ok 0%Z
  | JStr s => match float_of_string env s with
              | Some z => Ok z
              | None => Raise ValueError
              end
  | _ => Raise TypeError
  end.

(** [entry.get(k1, entry.get(k2, dflt))]. *)
Definition get2 (d : list (string * json)) (k1 k2 : string) (dflt : json) : json :=
  match dict_get k1 d with
  | Some v => v
  | None => match dict_get k2 d with Some v => v | None => dflt end
  end.

Fixpoint parse_entries (env : Env) (entries : list json) : result (list TranscriptEntry) :=
  match entries with
  | [] => Ok []
  | JObj d :: rest =>
    bind (py_float env (get2 d "start" "offset" (JNum 0))) (fun s =>
    bind (py_float env (get2 d "duration" "dur" (JNum 0))) (fun du =>
    bind (parse_entries env rest) (fun tl =>
    Ok (mkTranscriptEntry s du (get2 d "text" "content" (JStr "")) :: tl))))
  | _ :: rest => parse_entries env rest
  end.

(** What one round of the fetch loop decides. *)
Inductive fetch_step : Type :=
| FetchReturn (r : option (list TranscriptEntry))
| FetchContinue.

Definition FATAL_STATUSES : list Z := [401; 402; 403; 429]%Z.

Definition fatal_reason (status_code : Z) : string :=
  if (status_code =? 401)%Z then "Unauthorized"
  else if (status_code =? 402)%Z then "Quota exceeded"
  else if (status_code =? 403)%Z then "Forbidden"
  else "Rate limit".

(** The handler of [requests.exceptions.RequestException]. *)
Definition on_request_exception (attempt max_attempts : nat) (st : TState)
  : fetch_step * TState :=
  if attempt <? max_attempts - 1 then (FetchContinue, record_event (TSleep 2) st)
  else (FetchReturn None, st).

(** The parsing of a successful answer. *)
Definition on_success (env : Env) (key_obj : ApiKey) (data : json) (st : TState)
  : fetch_step * TState :=
  match str_in "transcript" data with
  | Raise _ => (FetchReturn None, st)
  | Ok true =>
    match getitem data "transcript" with
    | Raise _ => (FetchReturn None, st)
    | Ok transcript_data =>
      match (match transcript_data with
             | JArr entries => parse_entries env entries
             | _ => Ok []
             end) with
      | Raise _ => (FetchReturn None, st)
      | Ok [] => (FetchReturn None, st)
      | Ok (e :: es) =>
        (FetchReturn (Some (e :: es)),
         set_tbl st (mark_key_used (tbl st) (row_id key_obj)
                       (utcnow env (length (tlog st)))))
      end
    end
  | Ok false =>
    match str_in "error" data with
    | Raise _ => (FetchReturn None, st)
    | Ok true => (FetchReturn None, st)
    | Ok false => (FetchContinue, st)
    end
  end.

(** The [try] of one round, with the key in hand. *)
Definition request_transcript (env : Env) (video_id : string) (max_attempts attempt : nat)
  (key_obj : ApiKey) (st : TState) : fetch_step * TState :=
  let answer := transcript_get env (length (tlog st)) (api_key key_obj) video_id in
  let st1 := record_event (THttpGet (row_id key_obj) answer) st in
  match answer with
  | GetResponse status_code body =>
    if existsb (Z.eqb status_code) FATAL_STATUSES then
      let st2 := set_tbl st1 (disable_key (tbl st1) (row_id key_obj)
                                (fatal_reason status_code)
                                (utcnow env (length (tlog st1)))) in
      if attempt <? max_attempts - 1 then (FetchContinue, record_event (TSleep 1) st2)
      else (FetchReturn None, st2)
    else if (status_code =? 404)%Z then
      (FetchReturn None,
       set_tbl st1 (mark_key_used (tbl st1) (row_id key_obj)
                      (utcnow env (length (tlog st1)))))
    else if (400 <=? status_code)%Z then (FetchReturn None, st1)
    else
      match body with
      | Some data => on_success env key_obj data st1
      | None =>
        if json_error_is_request_exception env
        then on_request_exception attempt max_attempts st1
        else (FetchReturn None, st1)
      end
  | GetRequestException => on_request_exception attempt max_attempts st1
  | GetOtherException => (FetchReturn None, st1)
  end.

(** [for attempt in range(max_attempts)]. *)
Fixpoint fetch_loop (env : Env) (video_id : string) (max_attempts : nat)
  (remaining attempt : nat) (st : TState)
  : result (option (list TranscriptEntry)) * TState :=
  match remaining with
  | O => (Ok None, st)
  | S remaining' =>
    let st0 := record_event TQueryActive st in
    let '(key, st1) :=
      match get_active_key (tbl st0) with
      | Some k => (Ok (Some k), st0)
      | None => auto_register_and_save_key env st0
      end in
    match key with
    | Raise e => (Raise e, st1)
    | Ok None => fetch_loop env video_id max_attempts remaining' (S attempt) st1
    | Ok (Some key_obj) =>
      match request_transcript env video_id max_attempts attempt key_obj st1 with
      | (FetchReturn r, st2) => (Ok r, st2)
      | (FetchContinue, st2) =>
        fetch_loop env video_id max_attempts remaining' (S attempt) st2
      end
    end
  end.

Definition fetch_transcript_with_retry (env : Env) (video_id : string)
  (max_attempts : nat) (st : TState)
  : result (option (list TranscriptEntry)) * TState :=
  fetch_loop env video_id max_attempts max_attempts 0 st.

(** Well-formedness of the table: ids are unique and already handed out. *)
Definition table_wf (t : KeyTable) : Prop :=
  NoDup (map row_id (rows t)) /\ Forall (fun r => row_id r < next_id t) (rows t).

(** The operations the process applies to the transcript pool. *)
Inductive table_op : Type :=
| TMarkUsed (key_id now : nat)
| TDisable (key_id : nat) (reason : string) (now : nat)
| TAutoRegister (env : Env)
| TFetch (env : Env) (video_id : string) (max_attempts : nat).

Definition apply_table_op (o : table_op) (st : TState) : TState :=
  match o with
  | TMarkUsed k now => set_tbl st (mark_key_used (tbl st) k now)
  | TDisable k reason now => set_tbl st (disable_key (tbl st) k reason now)
  | TAutoRegister env => snd (auto_register_and_save_key env st)
  | TFetch env v n => snd (fetch_transcript_with_retry env v n st)
  end.

Definition apply_table_ops (ops : list table_op) (st : TState) : TState :=
  fold_left (fun s o => apply_table_op o s) ops st.

(** Events of the provisioning workflow: neither a key query nor a
    transcript request. *)
Definition is_provisioning (e : TEvent) : bool :=
  match e with
  | TProvision | TPoll _ | TSleep _ => true
  | TQueryActive | THttpGet _ _ => false
  end.

(** The answers after which the item has no transcript: HTTP 404, and a
    successful answer whose transcript parses to no entry. *)
Definition is_not_found (answer : get_outcome) : bool :=
  match answer with
  | GetResponse status_code _ => (status_code =? 404)%Z
  | _ => false
  end.

Definition is_empty_transcript (env : Env) (answer : get_outcome) : bool :=
  match answer with
  | GetResponse status_code (Some data) =>
    (status_code <? 400)%Z &&
    match bind (str_in "transcript" data) (fun has =>
          if has then
            bind (getitem data "transcript") (fun transcript_data =>
            match transcript_data with
            | JArr entries => parse_entries env entries
            | _ => Ok []
            end)
          else Raise KeyError)
    with
    | Ok [] => true
    | _ => false
    end
  | _ => false
  end.

(** The claim as worded, on the transcript path: after a 503 answer to the
    first request the call is made again within the budget of three. *)
Definition transient_answer_is_retried (env : Env) (video_id : string)
  (st : TState) : Prop :=
  forall key body,
    get_active_key (tbl st) = Some key ->
    transcript_get env (S (length (tlog st))) (api_key key) video_id
    = GetResponse 503 body ->
    2 <= count is_http_get (tlog (snd (fetch_transcript_with_retry env video_id 3 st))).

(** Row [k] exists no more as an active row, and its id is used up. *)
Definition retired (k : nat) (t : KeyTable) : Prop :=
  k < next_id t /\
  forall r, In r (rows t) -> row_id r = k -> status r = "disabled"%string.

End Transcript.

(* ===================================================================== *)
(** ** The per-item orchestrator (process_pipeline.py)                    *)
(* ===================================================================== *)

Module Pipeline.

Import KeyManager.

(** The values the orchestrator writes into the four status columns. *)
Inductive phase_status : Type :=
| pending | fetching | downloading | completed | failed | skipped.

(** A row of [playlist_videos] (database.py). *)
Record PlaylistVideo : Type := mkPlaylistVideo {
  video_id : string;
  video_url : string;
  download_status : phase_status;
  download_error : option string;
  local_path : option string;
  file_size : option nat;
  transcript_status : phase_status;
  analysis_status : phase_status;
  conversion_status : phase_status;
  shorts_count : nat
}.

(** A row of [videos]: one uploaded clip. *)
Record Video : Type := mkVideo {
  clip_id : string;
  filename : string;
  title : json;
  description : json;
  duration : Z;
  r2_url : string;
  r2_key : string;
  tiktok_description : json;
  uploaded_to_tiktok : bool
}.

(** A row of [no_transcript_videos]. *)
Record NoTranscriptVideo : Type := mkNoTranscript {
  nt_video_id : string;
  reason : string
}.

(** [stats['error']]: a message of the orchestrator or [str(e)]. *)
Inductive error_text : Type :=
| Message (m : string)
| OfException (e : exn).

Record Stats : Type := mkStats {
  success : bool;
  shorts_created : nat;
  error : option error_text;
  stats_skipped : bool
}.

(** An element of [created_shorts]. *)
Record Short : Type := mkShort {
  short_filename : string;
  short_path : string;
  segment : json
}.

Inductive MEvent : Type :=
| MDownload (url : string) (ok : bool)
| MCut (file : string) (ok : bool)
| MUpload (file : string) (ok : bool)
| MRemove (path : string).

Definition is_download (e : MEvent) : bool :=
  match e with MDownload _ _ => true | _ => false end.

Definition is_cut_ok (e : MEvent) : bool :=
  match e with MCut _ ok => ok | _ => false end.

Definition is_upload_ok (e : MEvent) : bool :=
  match e with MUpload _ ok => ok | _ => false end.

Definition count (p : MEvent -> bool) (log : list MEvent) : nat :=
  length (filter p log).

Record Env : Type := mkEnv {
  ai : AI.Env;
  transcripts : Transcript.Env;
  download_video : nat -> string -> option string;   (* by call number, url *)
  getsize : string -> nat;
  cut_video_clip : nat -> string -> bool;            (* by call number, output *)
  upload_succeeds : nat -> string -> bool;           (* by call number, key *)
  public_url : string;
  temp_dir : string;
  analysis_prompt : list Transcript.TranscriptEntry -> string;
  sanitize : string -> string                        (* the regex clean-up *)
}.

(** Everything one run reads and writes. [history] holds the item as each
    [commit] persisted it, newest first. *)
Record World : Type := mkWorld {
  item : PlaylistVideo;
  history : list PlaylistVideo;
  no_transcript_videos : list NoTranscriptVideo;
  videos : list Video;
  stats : Stats;
  key_manager : GeminiKeyManager;
  alog : list AI.AEvent;
  tstate : Transcript.TState;
  mlog : list MEvent
}.

Definition set_item (w : World) (i : PlaylistVideo) : World :=
  mkWorld i (history w) (no_transcript_videos w) (videos w) (stats w)
    (key_manager w) (alog w) (tstate w) (mlog w).

Definition set_stats (w : World) (s : Stats) : World :=
  mkWorld (item w) (history w) (no_transcript_videos w) (videos w) s
    (key_manager w) (alog w) (tstate w) (mlog w).

Definition set_ai (w : World) (st : GeminiKeyManager * list AI.AEvent) : World :=
  mkWorld (item w) (history w) (no_transcript_videos w) (videos w) (stats w)
    (fst st) (snd st) (tstate w) (mlog w).

Definition set_tstate (w : World) (t : Transcript.TState) : World :=
  mkWorld (item w) (history w) (no_transcript_videos w) (videos w) (stats w)
    (key_manager w) (alog w) t (mlog w).

Definition set_mlog (w : World) (l : list MEvent) : World :=
  mkWorld (item w) (history w) (no_transcript_videos w) (videos w) (stats w)
    (key_manager w) (alog w) (tstate w) l.

Definition add_video (w : World) (v : Video) : World :=
  mkWorld (item w) (history w) (no_transcript_videos w) (videos w ++ [v]) (stats w)
    (key_manager w) (alog w) (tstate w) (mlog w).

(** [db_session.commit()]. *)
Definition commit (w : World) : World :=
  mkWorld (item w) (item w :: history w) (no_transcript_videos w) (videos w) (stats w)
    (key_manager w) (alog w) (tstate w) (mlog w).

(** [db_session.merge(no_transcript)]: insert or replace by primary key. *)
Definition merge_no_transcript (w : World) (r : NoTranscriptVideo) : World :=
  mkWorld (item w) (history w)
    (r :: filter (fun x => negb (nt_video_id x =? nt_video_id r)%string)
            (no_transcript_videos w))
    (videos w) (stats w) (key_manager w) (alog w) (tstate w) (mlog w).

Definition set_download_status (i : PlaylistVideo) (s : phase_status) : PlaylistVideo :=
  mkPlaylistVideo (video_id i) (video_url i) s (download_error i) (local_path i)
    (file_size i) (transcript_status i) (analysis_status i) (conversion_status i)
    (shorts_count i).

Definition set_download_error (i : PlaylistVideo) (e : string) : PlaylistVideo :=
  mkPlaylistVideo (video_id i) (video_url i) (download_status i) (Some e) (local_path i)
    (file_size i) (transcript_status i) (analysis_status i) (conversion_status i)
    (shorts_count i).

Definition set_local_file (i : PlaylistVideo) (path : string) (size : nat) : PlaylistVideo :=
  mkPlaylistVideo (video_id i) (video_url i) (download_status i) (download_error i)
    (Some path) (Some size) (transcript_status i) (analysis_status i)
    (conversion_status i) (shorts_count i).

Definition set_transcript_status (i : PlaylistVideo) (s : phase_status) : PlaylistVideo :=
  mkPlaylistVideo (video_id i) (video_url i) (download_status i) (download_error i)
    (local_path i) (file_size i) s (analysis_status i) (conversion_status i)
    (shorts_count i).

Definition set_analysis_status (i : PlaylistVideo) (s : phase_status) : PlaylistVideo :=
  mkPlaylistVideo (video_id i) (video_url i) (download_status i) (download_error i)
    (local_path i) (file_size i) (transcript_status i) s (conversion_status i)
    (shorts_count i).

Definition set_conversion_status (i : PlaylistVideo) (s : phase_status) : PlaylistVideo :=
  mkPlaylistVideo (video_id i) (video_url i) (download_status i) (download_error i)
    (local_path i) (file_size i) (transcript_status i) (analysis_status i) s
    (shorts_count i).

Definition set_shorts_count (i : PlaylistVideo) (n : nat) : PlaylistVideo :=
  mkPlaylistVideo (video_id i) (video_url i) (download_status i) (download_error i)
    (local_path i) (file_size i) (transcript_status i) (analysis_status i)
    (conversion_status i) n.

Definition set_error (s : Stats) (e : error_text) : Stats :=
  mkStats (success s) (shorts_created s) (Some e) (stats_skipped s).

Definition set_skipped (s : Stats) : Stats :=
  mkStats (success s) (shorts_created s) (error s) true.

Definition set_success (s : Stats) : Stats :=
  mkStats true (shorts_created s) (error s) (stats_skipped s).

Definition incr_shorts_created (s : Stats) : Stats :=
  mkStats (success s) (shorts_created s + 1) (error s) (stats_skipped s).

Definition initial_stats : Stats := mkStats false 0 None false.

(** The four assignments of both "no transcript" exits. *)
Definition mark_all_skipped (i : PlaylistVideo) : PlaylistVideo :=
  set_conversion_status
    (set_analysis_status
       (set_transcript_status (set_download_status i skipped) skipped) skipped) skipped.

(** [sanitize_filename(seg['title'])]: the regular expressions want a string. *)
Definition sanitize_filename (env : Env) (t : json) : result string :=
  match t with
  | JStr s => Ok (sanitize env s)
  | _ => Raise TypeError
  end.

Definition decimal (n : nat) : string :=
  DecimalString.NilZero.string_of_uint (Nat.to_uint n).

(** [v[:500]]. *)
Definition first_500 (v : json) : result json :=
  match v with
  | JStr s => Ok (JStr (String.substring 0 500 s))
  | JArr l => Ok (JArr (firstn 500 l))
  | _ => Raise TypeError
  end.

(** Step 5: [for i, seg in enumerate(segments, 1)]. *)
Fixpoint cut_loop (env : Env) (vid video_path : string) (segments : list json)
  (i : nat) (created_shorts : list Short) (log : list MEvent)
  : result (list Short) * list MEvent :=
  match segments with
  | [] => (Ok created_shorts, log)
  | seg :: rest =>
    match bind (getitem seg "title") (sanitize_filename env) with
    | Raise e => (Raise e, log)
    | Ok t =>
      let output_filename := (vid ++ "_" ++ decimal i ++ "_" ++ t ++ ".mp4")%string in
      let output_path := (temp_dir env ++ "/shorts/" ++ output_filename)%string in
      match bind (getitem seg "start") (fun _ => getitem seg "end") with
      | Raise e => (Raise e, log)
      | Ok _ =>
        let ok := cut_video_clip env (length log) output_path in
        let log1 := MCut output_filename ok :: log in
        cut_loop env vid video_path rest (S i)
          (if ok then created_shorts ++ [mkShort output_filename output_path seg]
           else created_shorts)
          log1
      end
    end
  end.

(** The [Video(...)] built for an uploaded clip. *)
Definition video_record (vid : string) (short : Short) (key url : string)
  : result Video :=
  bind (getitem (segment short) "title") (fun t =>
  bind (getitem (segment short) "description") (fun d =>
  bind (getitem (segment short) "end") (fun e =>
  bind (getitem (segment short) "start") (fun s =>
  bind (sub e s) (fun dur =>
  bind (getitem (segment short) "description") (fun d' =>
  bind (first_500 d') (fun d500 =>
  Ok (mkVideo (vid ++ "_" ++ short_filename short)%string (short_filename short)
        t d dur url key d500 false)))))))).

(** Step 6: [for short in created_shorts]. *)
Fixpoint upload_loop (env : Env) (vid : string) (shorts : list Short) (w : World)
  : result unit * World :=
  match shorts with
  | [] => (Ok tt, w)
  | short :: rest =>
    let key := ("shorts/" ++ vid ++ "/" ++ short_filename short)%string in
    let ok := upload_succeeds env (length (mlog w)) key in
    let w1 := set_mlog w (MUpload (short_filename short) ok :: mlog w) in
    if ok then
      match video_record vid short key (public_url env ++ "/" ++ key)%string with
      | Raise e => (Raise e, w1)
      | Ok v =>
        upload_loop env vid rest
          (set_stats (add_video w1 v) (incr_shorts_created (stats w1)))
      end
    else upload_loop env vid rest w1
  end.

Definition update_item (w : World) (f : PlaylistVideo -> PlaylistVideo) : World :=
  set_item w (f (item w)).

Definition fail_with (w : World) (m : string) : World :=
  set_stats w (set_error (stats w) (Message m)).

(** The exit shared by the 404 handler and by [if not transcript]. *)
Definition skip_no_transcript (w : World) (msg : string) (err : option string)
  (why : string) : World :=
  let w1 := set_stats w (set_skipped (set_error (stats w) (Message msg))) in
  let w2 := update_item w1 mark_all_skipped in
  let w3 := match err with
            | Some e => update_item w2 (fun i => set_download_error i e)
            | None => w2
            end in
  commit (merge_no_transcript w3 (mkNoTranscript (video_id (item w3)) why)).

(** Steps 5 and 6, once the segments are known. *)
Definition cut_and_upload (env : Env) (video_path : string) (segments : list json)
  (w : World) : result unit * World :=
  let vid := video_id (item w) in
  let '(r, log) := cut_loop env vid video_path segments 1 [] (mlog w) in
  let w1 := set_mlog w log in
  match r with
  | Raise e => (Raise e, w1)
  | Ok [] =>
    (Ok tt, commit (update_item (fail_with w1 "No shorts created")
                      (fun i => set_conversion_status i failed)))
  | Ok created_shorts =>
    let w2 := commit (update_item w1 (fun i =>
                set_shorts_count (set_conversion_status i completed)
                  (length created_shorts))) in
    match upload_loop env vid created_shorts w2 with
    | (Raise e, w3) => (Raise e, w3)
    | (Ok _, w3) =>
      let w4 := commit w3 in
      let w5 := set_mlog w4 (MRemove video_path :: mlog w4) in
      (Ok tt, set_stats w5 (set_success (stats w5)))
    end
  end.

(** Steps 3 to 6, once the video is on disk. *)
Definition after_download (env : Env) (transcript : list Transcript.TranscriptEntry)
  (video_path : string) (w : World) : result unit * World :=
  let '(r, st) := AI.check_video_availability (ai env) (video_id (item w))
                    (key_manager w) (alog w) in
  let w1 := set_ai w st in
  match r with
  | Raise e => (Raise e, w1)
  | Ok is_available =>
    if negb (truthy is_available) then
      let w2 := set_stats w1 (set_skipped (set_error (stats w1) (Message "Video unavailable"))) in
      let w3 := update_item w2 (fun i =>
                  set_download_error
                    (set_conversion_status
                       (set_analysis_status (set_download_status i skipped) skipped)
                       skipped)
                    "Video unavailable or inaccessible") in
      let w4 := commit w3 in
      (Ok tt, set_mlog w4 (MRemove video_path :: mlog w4))
    else
      let '(r2, st2) := AI.analyze_transcript (ai env) (analysis_prompt env transcript)
                          (key_manager w1) (alog w1) in
      let w2 := set_ai w1 st2 in
      match r2 with
      | Raise e => (Raise e, w2)
      | Ok None
      | Ok (Some []) =>
        (Ok tt, commit (update_item (fail_with w2 "AI analysis failed")
                          (fun i => set_analysis_status i failed)))
      | Ok (Some segments) =>
        let w3 := commit (update_item w2 (fun i => set_analysis_status i completed)) in
        cut_and_upload env video_path segments w3
      end
  end.

(** The body of the outer [try]. *)
Definition process_steps (env : Env) (w : World) : result unit * World :=
  let w1 := commit (update_item w (fun i => set_transcript_status i fetching)) in
  let '(r, ts) := Transcript.fetch_transcript_with_retry (transcripts env)
                    (video_id (item w1)) 3 (tstate w1) in
  let w2 := set_tstate w1 ts in
  match r with
  | Raise (HTTPError resp) =>
    match resp with
    | Some rs =>
      if response_truth rs && (status_code rs =? 404)%Z then
        (Ok tt, skip_no_transcript w2 "Transcript not found (404)"
                  (Some "Transcript API 404 - video unavailable"%string)
                  "Transcript API 404 error")
      else (Raise (HTTPError resp), w2)
    | None => (Raise (HTTPError resp), w2)
    end
  | Raise e => (Raise e, w2)
  | Ok None
  | Ok (Some []) =>
    (Ok tt, skip_no_transcript w2 "No transcript" None
              "Transcript not available from API")
  | Ok (Some transcript) =>
    let w3 := commit (update_item w2 (fun i => set_transcript_status i completed)) in
    let w4 := commit (update_item w3 (fun i => set_download_status i downloading)) in
    let path := download_video env (length (mlog w4)) (video_url (item w4)) in
    let w5 := set_mlog w4 (MDownload (video_url (item w4)) (str_truthy path) :: mlog w4) in
    match path with
    | None =>
      (Ok tt, commit (update_item (fail_with w5 "Download failed") (fun i =>
                        set_download_error (set_download_status i failed)
                          "Download failed")))
    | Some video_path =>
      if (video_path =? "")%string then
        (Ok tt, commit (update_item (fail_with w5 "Download failed") (fun i =>
                          set_download_error (set_download_status i failed)
                            "Download failed")))
      else
        let w6 := commit (update_item w5 (fun i =>
                    set_local_file (set_download_status i completed) video_path
                      (getsize env video_path))) in
        after_download env transcript video_path w6
    end
  end.

Definition process_single_video (env : Env) (w : World) : Stats * World :=
  let w0 := set_stats w initial_stats in
  match process_steps env w0 with
  | (Ok _, w') => (stats w', w')
  | (Raise e, w') =>
    let w'' := set_stats w' (set_error (stats w') (OfException e)) in
    (stats w'', w'')
  end.

(** Whether the run ended in the outer [except] clause. *)
Definition run_raised (env : Env) (w : World) : bool :=
  negb (is_ok (fst (process_steps env (set_stats w initial_stats)))).

(** §4.4: a status is not started, in progress, or final. *)
Definition rank (s : phase_status) : nat :=
  match s with
  | pending => 0
  | fetching | downloading => 1
  | completed | failed | skipped => 2
  end.

(** One status keeps its value or moves forward. *)
Definition forward (a b : phase_status) : bool :=
  match a, b with
  | pending, pending | fetching, fetching | downloading, downloading
  | completed, completed | failed, failed | skipped, skipped => true
  | _, _ => rank a <? rank b
  end.

Definition item_forward (a b : PlaylistVideo) : bool :=
  forward (transcript_status a) (transcript_status b) &&
  forward (download_status a) (download_status b) &&
  forward (analysis_status a) (analysis_status b) &&
  forward (conversion_status a) (conversion_status b).

Definition unfinished (s : phase_status) : bool :=
  match s with
  | pending | failed => true
  | _ => false
  end.

Definition is_completed (s : phase_status) : bool :=
  match s with completed => true | _ => false end.

(** No phase is completed while the phase it depends on is pending or
    failed: download on transcript, analysis on download, conversion on
    analysis. *)
Definition dependencies_met (i : PlaylistVideo) : bool :=
  negb (is_completed (download_status i) && unfinished (transcript_status i)) &&
  negb (is_completed (analysis_status i) && unfinished (download_status i)) &&
  negb (is_completed (conversion_status i) && unfinished (analysis_status i)).

(** [steps] lists the persisted items oldest first. *)
Fixpoint all_forward (step : PlaylistVideo -> PlaylistVideo -> bool)
  (prev : PlaylistVideo) (steps : list PlaylistVideo) : bool :=
  match steps with
  | [] => true
  | next :: rest => step prev next && all_forward step next rest
  end.

(** The claim as worded: every step forward, every state with its
    dependencies met. *)
Definition only_forward (start : PlaylistVideo) (steps : list PlaylistVideo) : bool :=
  all_forward item_forward start steps && forallb dependencies_met steps.

(** The one step the orchestrator takes on top: a completed download is
    marked skipped when the availability check says no. *)
Definition download_forward (a b : phase_status) : bool :=
  forward a b ||
  match a, b with
  | completed, skipped => true
  | _, _ => false
  end.

Definition item_step (a b : PlaylistVideo) : bool :=
  forward (transcript_status a) (transcript_status b) &&
  download_forward (download_status a) (download_status b) &&
  forward (analysis_status a) (analysis_status b) &&
  forward (conversion_status a) (conversion_status b).

Definition is_cut (e : MEvent) : bool :=
  match e with MCut _ _ => true | _ => false end.

Definition is_upload (e : MEvent) : bool :=
  match e with MUpload _ _ => true | _ => false end.

(** Two worlds that differ at most in the clips, the counters of the run
    and the media log. *)
Definition same_outside_media (w w' : World) : Prop :=
  item w' = item w /\ history w' = history w /\
  no_transcript_videos w' = no_transcript_videos w /\
  key_manager w' = key_manager w /\ alog w' = alog w /\ tstate w' = tstate w /\
  success (stats w') = success (stats w) /\ error (stats w') = error (stats w) /\
  stats_skipped (stats w') = stats_skipped (stats w).

(** The commits [newest_first] that follow the item [start] are steps of
    the orchestrator, each leaving the dependencies met. *)
Definition steps_ok (start : PlaylistVideo) (newest_first : list PlaylistVideo) : bool :=
  all_forward item_step start (rev newest_first) && forallb dependencies_met newest_first.

(** From [w] to [w'] the item was persisted step by step, and ends as last
    persisted. *)
Definition advances (w w' : World) : Prop :=
  exists newest_first,
    history w' = newest_first ++ history w /\
    steps_ok (item w) newest_first = true /\
    item w' = hd (item w) newest_first.



(** The items one run persisted, oldest first. *)
Definition persisted (env : Env) (w : World) : list PlaylistVideo :=
  rev (history (snd (process_single_video env w))).


Definition all_pending (i : PlaylistVideo) : Prop :=
  transcript_status i = pending /\ download_status i = pending /\
  analysis_status i = pending /\ conversion_status i = pending.

Definition all_skipped (i : PlaylistVideo) : Prop :=
  transcript_status i = skipped /\ download_status i = skipped /\
  analysis_status i = skipped /\ conversion_status i = skipped.

End Pipeline.

(* ===================================================================== *)
(** ** Concrete scenarios                                                 *)
(* ===================================================================== *)

Module Scenario.

Import KeyManager.

(** A provisioning run in which every step fails. *)
Definition failing_run : Transcript.ProvisionRun :=
  Transcript.mkRun None None "pw" (fun _ _ => false) (fun _ _ => None)
    (fun _ => false) (fun _ _ => Transcript.PollTimeout) None (fun _ => None)
    (fun _ => None) (fun _ _ => false) (fun _ => None) false.

(** A provisioning run through the testmail mailbox in which every step
    succeeds; the code arrives on the second poll. *)
Definition successful_run : Transcript.ProvisionRun :=
  Transcript.mkRun None (Some ("tag.sg7ph@inbox.testmail.app", "tag")%string) "pw"
    (fun _ _ => true) (fun _ _ => Some "token"%string) (fun _ => true)
    (fun attempt _ =>
       if attempt =? 2 then
         Transcript.PollJson
           (JObj [("result", JStr "success");
                  ("emails", JArr [JObj [("text", JStr "code 123456")]])]%string)
       else Transcript.PollTimeout)
    None (fun _ => None) (fun _ => None) (fun _ _ => true)
    (fun _ => Some "fresh-key"%string) true.

(** The transcript provider answering [answer n] to the request made when
    the log holds [n] events. *)
Definition transcript_env (answer : nat -> Transcript.get_outcome)
  (run : Transcript.ProvisionRun) : Transcript.Env :=
  Transcript.mkEnv (fun n _ _ => answer n) true (fun _ => run) (fun n => n)
    (fun _ => None) (fun _ => None)
    (fun t => if (t =? "code 123456")%string then Some "123456"%string else None).

Definition key_row (i : nat) (secret : string) : Transcript.ApiKey :=
  Transcript.mkApiKey i "transcript_api" secret None None "active" (Some 0)
    None None None.

(** A store with one, and with two, active transcript keys. *)
Definition one_key : Transcript.TState :=
  Transcript.mkTState (Transcript.mkTable [key_row 1 "secret-1"] 2) [].

Definition two_keys : Transcript.TState :=
  Transcript.mkTState
    (Transcript.mkTable [key_row 1 "secret-1"; key_row 2 "secret-2"] 3) [].

(** Gemini answering [answer] to every request. *)
Definition gemini_env (answer : AI.post_outcome) : AI.Env :=
  AI.mkEnv (fun _ _ => answer) "hf_token" (fun _ => AI.PostException)
    (fun _ => None) (fun v => v).

Definition http_error (code : Z) : AI.post_outcome :=
  AI.PostHTTPError (Some (mkResponse code true)).

Definition two_gemini_keys : GeminiKeyManager :=
  init [KStr "key-a"; KStr "key-b"] 0.

(** A segment from [first] to [last] seconds, titled X and described Y. *)
Definition segment (first last : Z) : json :=
  JObj [("start", JNum first); ("end", JNum last);
        ("title", JStr "X"); ("description", JStr "Y")]%string.

(** The transcript provider's answer for a video 900 seconds long. *)
Definition transcript_answer : Transcript.get_outcome :=
  Transcript.GetResponse 200
    (Some (JObj [("transcript",
                  JArr [JObj [("start", JNum 0); ("duration", JNum 900);
                              ("text", JStr "hello")]])]))%string.

(** A world in which the transcript provider gives [answer], the download
    succeeds, the AI answers with text that parses to [analysis], and the
    cutter and the uploader succeed as told. *)
Definition pipeline_env (answer : Transcript.get_outcome) (analysis : json)
  (cut_ok upload_ok : bool) : Pipeline.Env :=
  Pipeline.mkEnv
    (AI.mkEnv (fun _ _ => AI.PostOk (AI.gemini_format (JStr "answer"))) "hf_token"
       (fun _ => AI.PostException) (fun _ => Some analysis) (fun v => v))
    (transcript_env (fun _ => answer) failing_run)
    (fun _ _ => Some "/tmp/video.mp4"%string) (fun _ => 1000)
    (fun _ _ => cut_ok) (fun _ _ => upload_ok)
    "https://cdn.example" "/tmp" (fun _ => "prompt"%string) (fun t => t).

Definition one_segment : json :=
  JObj [("segments", JArr [segment 60 300])]%string.

Definition unavailable : json :=
  JObj [("available", JBool false); ("reason", JStr "private")]%string.

Definition fresh_item : Pipeline.PlaylistVideo :=
  Pipeline.mkPlaylistVideo "vid" "https://youtu.be/vid" Pipeline.pending None None None
    Pipeline.pending Pipeline.pending Pipeline.pending 0.

Definition fresh_world : Pipeline.World :=
  Pipeline.mkWorld fresh_item [] [] [] Pipeline.initial_stats two_gemini_keys []
    one_key [].

End Scenario.

(* ===================================================================== *)
(** * Further properties: what they are worded with                       *)
(* ===================================================================== *)

Module PoolUse.

Import KeyManager.

Definition is_disable (o : pool_op) : bool :=
  match o with OpDisable _ => true | _ => false end.

(** How many [disable_current_key] calls a sequence of operations holds. *)
Definition count_disable (ops : list pool_op) : nat :=
  length (filter is_disable ops).

End PoolUse.

Module KeyStore.

Import Transcript.

(** The status of the row a lookup by id finds ([filter_by(id=...).first()]). *)
Definition status_of (t : KeyTable) (key_id : nat) : option string :=
  option_map status (find (fun r => row_id r =? key_id) (rows t)).

(** An answer after which [fetch_transcript_with_retry] disables the key. *)
Definition is_fatal_answer (o : get_outcome) : bool :=
  match o with
  | GetResponse status_code _ => existsb (Z.eqb status_code) FATAL_STATUSES
  | _ => false
  end.

(** The seconds spent in [time.sleep] according to a log. *)
Fixpoint slept (log : list TEvent) : nat :=
  match log with
  | [] => 0
  | TSleep n :: rest => n + slept rest
  | _ :: rest => slept rest
  end.

(** What a row is besides its bookkeeping: these fields are never rewritten. *)
Definition same_credential (a b : ApiKey) : Prop :=
  row_id a = row_id b /\ service a = service b /\ api_key a = api_key b /\
  email a = email b /\ password a = password b.

(** Between two states of the store: the log grew, and every key whose
    status is no longer what it was has been disabled after a fatal
    answer to a request made with it in between. *)
Definition disabled_only_after_fatal (st st' : TState) : Prop :=
  exists added,
    tlog st' = added ++ tlog st /\
    forall i s,
      status_of (tbl st) i = Some s ->
      status_of (tbl st') i = Some s \/
      (status_of (tbl st') i = Some "disabled"%string /\
       exists o, In (THttpGet i o) added /\ is_fatal_answer o = true).

(** Every credential of [t] is still a row of [t']. *)
Definition credentials_kept (t t' : KeyTable) : Prop :=
  forall r, In r (rows t) -> exists r', In r' (rows t') /\ same_credential r r'.

End KeyStore.

(* ===================================================================== *)
(** * process_pipeline.py: sanitize_filename                              *)
(* ===================================================================== *)

(** A title is taken as the list of its characters, which is what the
    regular expressions, the slice and [strip] of the source work on. *)
Module Filename.

Definition double_quote : ascii := ascii_of_nat 34.
Definition backslash : ascii := ascii_of_nat 92.

(** The character class of [re.sub(r'[<>:...|?*]', '', title)]. *)
Definition FORBIDDEN : list ascii :=
  ["<"; ">"; ":"; double_quote; "/"; backslash; "|"; "?"; "*"]%char.

Definition member (c : ascii) (cs : list ascii) : bool :=
  existsb (Ascii.eqb c) cs.

Definition remove_forbidden (title : list ascii) : list ascii :=
  filter (fun c => negb (member c FORBIDDEN)) title.

(** [title.replace(' ', '_')]. *)
Definition replace_spaces (title : list ascii) : list ascii :=
  map (fun c => if (c =? " ")%char then "_"%char else c) title.

(** [re.sub(r'_+', '_', title)]: every run of underscores becomes one. *)
Fixpoint collapse_underscores (title : list ascii) : list ascii :=
  match title with
  | [] => []
  | c :: rest =>
    if (c =? "_")%char then
      match rest with
      | c' :: _ => if (c' =? "_")%char then collapse_underscores rest
                   else c :: collapse_underscores rest
      | [] => [c]
      end
    else c :: collapse_underscores rest
  end.

(** [s.lstrip(chars)], [s.rstrip(chars)] and [s.strip(chars)]. *)
Fixpoint lstrip_chars (cs : list ascii) (s : list ascii) : list ascii :=
  match s with
  | [] => []
  | c :: rest => if member c cs then lstrip_chars cs rest else s
  end.

Definition rstrip_chars (cs : list ascii) (s : list ascii) : list ascii :=
  rev (lstrip_chars cs (rev s)).

Definition strip_chars (cs : list ascii) (s : list ascii) : list ascii :=
  rstrip_chars cs (lstrip_chars cs s).

Definition STRIPPED : list ascii := ["."; " "; "_"]%char.

Definition sanitize_chars (title : list ascii) (max_length : nat) : list ascii :=
  let title := remove_forbidden title in
  let title := replace_spaces title in
  let title := collapse_underscores title in
  match strip_chars STRIPPED (firstn max_length title) with
  | [] => list_ascii_of_string "clip"
  | name => name
  end.

Definition sanitize_filename (title : string) (max_length : nat) : string :=
  string_of_list_ascii (sanitize_chars (list_ascii_of_string title) max_length).

(** No two underscores in a row. *)
Fixpoint no_underscore_run (s : list ascii) : bool :=
  match s with
  | [] => true
  | c :: rest =>
    match rest with
    | c' :: _ => negb ((c =? "_")%char && (c' =? "_")%char)
    | [] => true
    end && no_underscore_run rest
  end.

End Filename.

(* ===================================================================== *)
(** * r2_uploader.py                                                      *)
(* ===================================================================== *)

Module R2.

(** What [open] and [client.put_object] do inside the [try]: success, a
    [ClientError] or [BotoCoreError], or any other exception. *)
Inductive put_outcome : Type :=
| PutOk
| PutClientError
| PutException.

Record Env : Type := mkEnv {
  path_exists : string -> bool;                       (* os.path.exists *)
  getsize : string -> option nat;                     (* [None]: OSError *)
  put_object : nat -> string -> string -> put_outcome; (* call number, key, path *)
  listdir : string -> option (list string);           (* [None]: OSError *)
  path_join : string -> string -> string              (* os.path.join *)
}.

Record R2Uploader : Type := mkUploader {
  bucket_name : string;
  public_url : string
}.

Fixpoint lstrip_slash (s : string) : string :=
  match s with
  | EmptyString => EmptyString
  | String c s' => if (c =? "/")%char then lstrip_slash s' else s
  end.

(** [public_url.rstrip('/')]. *)
Definition rstrip_slash (s : string) : string :=
  rev_string (lstrip_slash (rev_string s EmptyString)) EmptyString.

(** [__init__], without the client it builds. *)
Definition init (bucket url : string) : R2Uploader :=
  mkUploader bucket (rstrip_slash url).

(** A [put_object] call, newest first in the log. *)
Inductive REvent : Type :=
| RPut (key : string).

(** A call returns, or the [OSError] raised outside its [try] escapes. *)
Inductive outcome (A : Type) : Type :=
| Returned (a : A)
| RaisedOSError.

Arguments Returned {A} a.
Arguments RaisedOSError {A}.

(** [for attempt in range(max_retries)] of [upload_file]. *)
Fixpoint put_loop (env : Env) (u : R2Uploader) (local_path r2_key : string)
  (max_retries remaining attempt : nat) (log : list REvent)
  : option (string * string) * list REvent :=
  match remaining with
  | O => (None, log)
  | S remaining' =>
    let log1 := RPut r2_key :: log in
    match put_object env (length log) r2_key local_path with
    | PutOk => (Some (r2_key, (public_url u ++ "/" ++ r2_key)%string), log1)
    | PutClientError =>
      if attempt <? max_retries - 1 then
        put_loop env u local_path r2_key max_retries remaining' (S attempt) log1
      else (None, log1)
    | PutException => (None, log1)
    end
  end.

Definition upload_file (env : Env) (u : R2Uploader) (local_path r2_key : string)
  (max_retries : nat) (log : list REvent)
  : outcome (option (string * string)) * list REvent :=
  if negb (path_exists env local_path) then (Returned None, log)
  else
    match getsize env local_path with
    | None => (RaisedOSError, log)
    | Some _ =>
      let '(r, log') := put_loop env u local_path r2_key max_retries max_retries 0 log in
      (Returned r, log')
    end.

(** [for filename in os.listdir(shorts_dir)] of [upload_shorts_batch]. *)
Fixpoint batch_loop (env : Env) (u : R2Uploader) (shorts_dir video_id : string)
  (names : list string) (uploaded_shorts : list (string * string * string))
  (log : list REvent)
  : outcome (list (string * string * string)) * list REvent :=
  match names with
  | [] => (Returned uploaded_shorts, log)
  | filename :: rest =>
    if negb (endswith filename ".mp4") then
      batch_loop env u shorts_dir video_id rest uploaded_shorts log
    else
      let local_path := path_join env shorts_dir filename in
      let r2_key := ("shorts/" ++ video_id ++ "/" ++ filename)%string in
      match upload_file env u local_path r2_key 3 log with
      | (RaisedOSError, log') => (RaisedOSError, log')
      | (Returned (Some (key, url)), log') =>
        batch_loop env u shorts_dir video_id rest
          (uploaded_shorts ++ [(filename, key, url)]) log'
      | (Returned None, log') =>
        batch_loop env u shorts_dir video_id rest uploaded_shorts log'
      end
  end.

Definition upload_shorts_batch (env : Env) (u : R2Uploader)
  (shorts_dir video_id : string) (log : list REvent)
  : outcome (list (string * string * string)) * list REvent :=
  if negb (path_exists env shorts_dir) then (Returned [], log)
  else
    match listdir env shorts_dir with
    | None => (RaisedOSError, log)
    | Some names => batch_loop env u shorts_dir video_id names [] log
    end.

End R2.

(* ===================================================================== *)
(** * fetch_playlist.py: saving the discovered videos                     *)
(* ===================================================================== *)

Module Playlist.

Import Pipeline.

(** An element of the list [extract_video_info] returns; the columns that
    are only copied (title, channel, duration, thumbnail, playlist URL)
    are left out, as they are in [PlaylistVideo]. *)
Record VideoInfo : Type := mkVideoInfo {
  info_video_id : string;
  info_url : string
}.

(** What [db_session.add] and [db_session.commit] do. *)
Inductive commit_outcome : Type :=
| Committed
| RaisesIntegrityError
| RaisesOther.

(** The database as the loop meets it, by the position of the video. *)
Record Db : Type := mkDb {
  query_raises : nat -> bool;
  commit_of : nat -> commit_outcome
}.

Record SaveStats : Type := mkSaveStats {
  inserted : nat;
  skipped : nat;
  failed : nat
}.

(** [PlaylistVideo(...)] with the column defaults of database.py. *)
Definition new_row (v : VideoInfo) : PlaylistVideo :=
  mkPlaylistVideo (info_video_id v) (info_url v) pending None None None
    pending pending pending 0.

(** [for video in videos] of [save_videos_to_db]; [n] counts the videos
    seen so far. *)
Fixpoint save_loop (db : Db) (videos : list VideoInfo) (n : nat)
  (table : list PlaylistVideo) (st : SaveStats) : SaveStats * list PlaylistVideo :=
  match videos with
  | [] => (st, table)
  | video :: rest =>
    if query_raises db n then
      save_loop db rest (S n) table
        (mkSaveStats (inserted st) (skipped st) (failed st + 1))
    else if existsb (fun r => (video_id r =? info_video_id video)%string) table then
      save_loop db rest (S n) table
        (mkSaveStats (inserted st) (skipped st + 1) (failed st))
    else
      match commit_of db n with
      | Committed =>
        save_loop db rest (S n) (table ++ [new_row video])
          (mkSaveStats (inserted st + 1) (skipped st) (failed st))
      | RaisesIntegrityError =>
        save_loop db rest (S n) table
          (mkSaveStats (inserted st) (skipped st + 1) (failed st))
      | RaisesOther =>
        save_loop db rest (S n) table
          (mkSaveStats (inserted st) (skipped st) (failed st + 1))
      end
  end.

Definition save_videos_to_db (db : Db) (videos : list VideoInfo)
  (table : list PlaylistVideo) : SaveStats * list PlaylistVideo :=
  save_loop db videos 0 table (mkSaveStats 0 0 0).

(** [if args.limit and len(videos) > args.limit: videos = videos[:args.limit]]. *)
Definition apply_limit (limit : option Z) (videos : list VideoInfo) : list VideoInfo :=
  match limit with
  | None => videos
  | Some l =>
    if (l =? 0)%Z then videos
    else if (l <? Z.of_nat (length videos))%Z then
      if (0 <=? l)%Z then firstn (Z.to_nat l) videos
      else firstn (length videos - Z.to_nat (- l)) videos
    else videos
  end.

(** [main] from the extracted list on: the exit code and the table. *)
Definition main (db : Db) (extracted : list VideoInfo) (limit : option Z)
  (table : list PlaylistVideo) : nat * list PlaylistVideo :=
  match extracted with
  | [] => (1, table)
  | _ =>
    let '(st, table') := save_videos_to_db db (apply_limit limit extracted) table in
    if 0 <? inserted st then (0, table')
    else if 0 <? skipped st then (0, table')
    else (1, table')
  end.

End Playlist.

(* ===================================================================== *)
(** * process_pipeline.py: the run as a whole and the batch               *)
(* ===================================================================== *)

Module Outcome.

Import KeyManager.
Import Pipeline.

(** The counters of a run before anything was reported. *)
Definition untouched (s : Stats) : Prop :=
  success s = false /\ error s = None /\ stats_skipped s = false.

Definition all_completed (i : PlaylistVideo) : Prop :=
  transcript_status i = completed /\ download_status i = completed /\
  analysis_status i = completed /\ conversion_status i = completed.

(** The three later phases as both "skipped" exits leave them. *)
Definition later_phases_skipped (i : PlaylistVideo) : Prop :=
  download_status i = skipped /\ analysis_status i = skipped /\
  conversion_status i = skipped.

(** [main]'s loop over [pending_videos]: the shared store, pools and logs
    are threaded through, the item and its commits are per video. The two
    counters are [total_shorts] and [skipped_count]; the items are
    returned as each run left them. *)
Fixpoint process_batch (env : Env) (pending_videos : list PlaylistVideo) (w : World)
  (total_shorts skipped_count : nat)
  : (nat * nat) * (list PlaylistVideo * World) :=
  match pending_videos with
  | [] => ((total_shorts, skipped_count), ([], w))
  | pv :: rest =>
    let '(st, w1) := process_single_video env (set_item w pv) in
    let '(totals, (done, w2)) :=
      process_batch env rest w1 (total_shorts + shorts_created st)
        (if stats_skipped st then skipped_count + 1 else skipped_count) in
    (totals, (item w1 :: done, w2))
  end.


Definition is_pending (pv : PlaylistVideo) : bool :=
  match download_status pv with pending => true | _ => false end.

(** [filter_by(download_status='pending').limit(args.limit).all()]. *)
Definition pending_query (limit : nat) (table : list PlaylistVideo) : list PlaylistVideo :=
  firstn limit (filter is_pending table).

(** [main] from the query on. *)
Definition main (env : Env) (limit : nat) (table : list PlaylistVideo) (w : World)
  : (nat * nat) * (list PlaylistVideo * World) :=
  process_batch env (pending_query limit table) w 0 0.

End Outcome.

(* ===================================================================== *)
(** * database.py: run_pending_migrations                                 *)
(* ===================================================================== *)

Module Migrations.

(** A file of [migrations/]: its name and its text. *)
Record Migration : Type := mkMigration {
  name : string;
  read_text : string
}.

Record Env : Type := mkEnv {
  dir_exists : bool;                          (* migrations_dir.exists() *)
  migration_files : list Migration;           (* sorted(glob("*.sql")) *)
  split_sql_statements : string -> list string;
  db_ok : nat -> bool                         (* by call number; [false]: the call raises *)
}.

(** The calls made on the connection, newest first. *)
Inductive MgEvent : Type :=
| MgCreateTable
| MgSelectApplied
| MgExec (statement : string)
| MgInsert (filename : string).

(** The rows of [schema_migrations] and the log. *)
Record State : Type := mkState {
  applied : list string;
  mlog : list MgEvent
}.

Definition is_applied (filename : string) (rows : list string) : bool :=
  existsb (String.eqb filename) rows.

(** [for statement in statements: connection.exec_driver_sql(statement)];
    [false] when a statement raised. *)
Fixpoint exec_all (env : Env) (statements : list string) (log : list MgEvent)
  : bool * list MgEvent :=
  match statements with
  | [] => (true, log)
  | statement :: rest =>
    let log1 := MgExec statement :: log in
    if db_ok env (length log) then exec_all env rest log1 else (false, log1)
  end.

(** [INSERT INTO schema_migrations (filename) VALUES (...)]: the file name
    is the primary key. *)
Definition insert_applied (env : Env) (filename : string) (st : State) : bool * State :=
  let log1 := MgInsert filename :: mlog st in
  if db_ok env (length (mlog st)) && negb (is_applied filename (applied st))
  then (true, mkState (filename :: applied st) log1)
  else (false, mkState (applied st) log1).

(** [for migration in migration_files]; [seen] is the set read before the
    loop. A transaction that raises leaves the table as it was, and the
    exception leaves the function. *)
Fixpoint run_files (env : Env) (files : list Migration) (seen : list string)
  (st : State) : bool * State :=
  match files with
  | [] => (true, st)
  | migration :: rest =>
    if is_applied (name migration) seen then run_files env rest seen st
    else
      match split_sql_statements env (read_text migration) with
      | [] =>
        match insert_applied env (name migration) st with
        | (true, st1) => run_files env rest seen st1
        | (false, st1) => (false, st1)
        end
      | statements =>
        match exec_all env statements (mlog st) with
        | (true, log1) =>
          match insert_applied env (name migration) (mkState (applied st) log1) with
          | (true, st1) => run_files env rest seen st1
          | (false, st1) => (false, mkState (applied st) (mlog st1))
          end
        | (false, log1) => (false, mkState (applied st) log1)
        end
      end
  end.

Definition run_pending_migrations (env : Env) (st : State) : bool * State :=
  if negb (dir_exists env) then (true, st)
  else
    match migration_files env with
    | [] => (true, st)
    | files =>
      let st1 := mkState (applied st) (MgCreateTable :: mlog st) in
      if db_ok env (length (mlog st)) then
        let st2 := mkState (applied st1) (MgSelectApplied :: mlog st1) in
        if db_ok env (length (mlog st1)) then run_files env files (applied st) st2
        else (false, st2)
      else (false, st1)
    end.

(** A call that changes the schema or the record of what was applied. *)
Definition is_change (e : MgEvent) : bool :=
  match e with
  | MgExec _ | MgInsert _ => true
  | MgCreateTable | MgSelectApplied => false
  end.

End Migrations.

Module Fence.

(** The line feed, and an answer wrapped in a markdown fence with the
    given language tag. *)
Definition newline : string := String (ascii_of_nat 10) EmptyString.

Definition fenced (tag body : string) : string :=
  ("```" ++ tag ++ newline ++ body ++ newline ++ "```")%string.

End Fence.

(* ===================================================================== *)
(** * transcript_manager.py: generate_random_password                     *)
(* ===================================================================== *)

Module Password.

Definition ascii_letters : string :=
  "abcdefghijklmnopqrstuvwxyzABCDEFGHIJKLMNOPQRSTUVWXYZ".

Definition digits : string := "0123456789".

(** [random.choices(population, k=k)]: the i-th element is
    [population[floor(random() * len(population))]]; [pick i] is the
    entropy of that draw. *)
Definition choices (population : list ascii) (k : nat) (pick : nat -> nat)
  : list ascii :=
  map (fun i => nth (pick i mod length population) population "a"%char) (seq 0 k).

Definition generate_random_password (rnd : nat) (pick : nat -> nat) : string :=
  let length := randint 12 16 rnd in
  let chars := list_ascii_of_string (ascii_letters ++ digits) in
  string_of_list_ascii (choices chars length pick).

Definition is_alphanumeric (c : ascii) : bool :=
  let n := nat_of_ascii c in
  ((48 <=? n) && (n <=? 57)) || ((65 <=? n) && (n <=? 90)) ||
  ((97 <=? n) && (n <=? 122)).

End Password.

(* ===================================================================== *)
(** * fetch_playlist.py: extract_video_info                               *)
(* ===================================================================== *)

Module Discovery.

(** What [ydl.extract_info(url, download=False)] does: it returns the
    information dictionary ([JNull] for [None]) or raises. *)
Inductive extract_outcome : Type :=
| Extracted (info : json)
| ExtractRaises.

Record Env : Type := mkEnv {
  extract_info : string -> extract_outcome;
  py_str : json -> string                (* [str(v)], as the f-string formats it *)
}.

(** The dictionary built for one video. *)
Record VideoDict : Type := mkVideoDict {
  video_id : json;
  url : string;
  title : json;
  channel : json;
  duration : json;
  thumbnail_url : json;
  playlist_url : string
}.

(** [d.get(k)]. *)
Definition get (d : list (string * json)) (k : string) : json :=
  match dict_get k d with
  | Some v => v
  | None => JNull
  end.

(** [a or b]. *)
Definition or_else (a b : json) : json := if truthy a then a else b.

(** The dictionary of an entry of a playlist or channel. *)
Definition entry_video (env : Env) (playlist : string) (d : list (string * json))
  : VideoDict :=
  mkVideoDict (get d "id")
    ("https://youtube.com/watch?v=" ++ py_str env (get d "id"))%string
    (get d "title") (or_else (get d "uploader") (get d "channel"))
    (get d "duration") (get d "thumbnail") playlist.

(** The dictionary of a single video. *)
Definition single_video (video_url : string) (d : list (string * json)) : VideoDict :=
  mkVideoDict (get d "id") video_url (get d "title")
    (or_else (get d "uploader") (get d "channel"))
    (get d "duration") (get d "thumbnail") video_url.

(** [for entry in info['entries']]: [None] is skipped, [.get] exists on
    dictionaries only. *)
Fixpoint entries_loop (env : Env) (playlist : string) (entries : list json)
  (videos : list VideoDict) : result (list VideoDict) :=
  match entries with
  | [] => Ok videos
  | JNull :: rest => entries_loop env playlist rest videos
  | JObj d :: rest =>
    let video_info := entry_video env playlist d in
    if truthy (video_id video_info)
    then entries_loop env playlist rest (videos ++ [video_info])
    else entries_loop env playlist rest videos
  | _ :: rest => Raise AttributeError
  end.

(** The body of the [try]. *)
Definition extract_body (env : Env) (video_url : string) (info : json)
  : result (list VideoDict) :=
  bind (str_in "entries" info) (fun has_entries =>
  if has_entries then
    bind (getitem info "entries") (fun es =>
    bind (len es) (fun _ =>
    bind (getitem info "entries") (fun es' =>
    bind (iterate es') (fun entries =>
    entries_loop env video_url entries []))))
  else
    match info with
    | JObj d =>
      let video_info := single_video video_url d in
      Ok (if truthy (video_id video_info) then [video_info] else [])
    | _ => Raise AttributeError
    end).

Definition extract_video_info (env : Env) (video_url : string) : list VideoDict :=
  match extract_info env video_url with
  | ExtractRaises => []
  | Extracted info =>
    if negb (truthy info) then []
    else
      match extract_body env video_url info with
      | Ok videos => videos
      | Raise _ => []
      end
  end.

(** An entry the loop can read: [None] or a dictionary. *)
Definition readable (entry : json) : bool :=
  match entry with
  | JNull | JObj _ => true
  | _ => false
  end.

(** The videos of the entries that carry an id, in order. *)
Definition with_id (env : Env) (playlist : string) (entries : list json)
  : list VideoDict :=
  flat_map (fun entry =>
              match entry with
              | JObj d => if truthy (get d "id") then [entry_video env playlist d] else []
              | _ => []
              end) entries.

End Discovery.

(* ===================================================================== *)
(** * database.py: _split_sql_statements                                  *)
(* ===================================================================== *)

(** The script is taken as the list of its characters; letter case is
    that of the ASCII letters. *)
Module Sql.

Import Filename.

Definition line_feed : ascii := ascii_of_nat 10.
Definition single_quote : ascii := ascii_of_nat 39.

(** The characters [str.strip()] removes. *)
Definition WHITESPACE : list ascii :=
  map ascii_of_nat [9; 10; 11; 12; 13; 28; 29; 30; 31; 32].

Definition strip (s : list ascii) : list ascii := strip_chars WHITESPACE s.

Definition upper_char (c : ascii) : ascii :=
  let n := nat_of_ascii c in
  if (97 <=? n) && (n <=? 122) then ascii_of_nat (n - 32) else c.

Definition upper (s : list ascii) : list ascii := map upper_char s.

Definition same (a b : list ascii) : bool :=
  (string_of_list_ascii a =? string_of_list_ascii b)%string.

Record Scan : Type := mkScan {
  statements : list (list ascii);
  buffer : list ascii;
  in_single_quote : bool;
  in_double_quote : bool;
  in_line_comment : bool;
  in_block_comment : bool;
  dollar_quote_tag : option (list ascii)
}.

Definition initial : Scan := mkScan [] [] false false false false None.

(** [sql.startswith(prefix, i)], on the text from [i] on. *)
Fixpoint starts_with (prefix text : list ascii) : bool :=
  match prefix, text with
  | [], _ => true
  | _ :: _, [] => false
  | p :: prefix', c :: text' => (p =? c)%char && starts_with prefix' text'
  end.

(** The set that ends the search for the closing dollar of a tag. *)
Definition TAG_STOPS : list ascii :=
  ["$"%char; line_feed; ascii_of_nat 13; ascii_of_nat 9; " "%char].

(** [sql[i + 1 : tag_end]] and [sql[tag_end:]] for the text after the dollar. *)
Fixpoint tag_name (text : list ascii) : list ascii :=
  match text with
  | [] => []
  | c :: text' => if member c TAG_STOPS then [] else c :: tag_name text'
  end.

Fixpoint after_tag_name (text : list ascii) : list ascii :=
  match text with
  | [] => []
  | c :: text' => if member c TAG_STOPS then text else after_tag_name text'
  end.

Definition append_buffer (s : Scan) (chars : list ascii) : Scan :=
  mkScan (statements s) (buffer s ++ chars) (in_single_quote s) (in_double_quote s)
    (in_line_comment s) (in_block_comment s) (dollar_quote_tag s).

(** The statement is closed at a semicolon outside quotes. *)
Definition close_statement (s : Scan) : Scan :=
  let statement := strip (buffer s) in
  mkScan (match statement with
          | [] => statements s
          | _ => statements s ++ [statement]
          end)
    [] (in_single_quote s) (in_double_quote s) (in_line_comment s)
    (in_block_comment s) (dollar_quote_tag s).

(** The part of the loop body after the comment and dollar tests. *)
Definition ordinary (char : ascii) (s : Scan) : Scan :=
  if (char =? single_quote)%char && negb (in_double_quote s) then
    mkScan (statements s) (buffer s ++ [char]) (negb (in_single_quote s))
      (in_double_quote s) (in_line_comment s) (in_block_comment s) (dollar_quote_tag s)
  else if (char =? double_quote)%char && negb (in_single_quote s) then
    mkScan (statements s) (buffer s ++ [char]) (in_single_quote s)
      (negb (in_double_quote s)) (in_line_comment s) (in_block_comment s)
      (dollar_quote_tag s)
  else if (char =? ";")%char && negb (in_single_quote s) && negb (in_double_quote s) then
    close_statement s
  else append_buffer s [char].

(** One round of the [while] loop at [char = sql[i]], with [text] the
    characters after it: the new state and how many of them [i] jumps over. *)
Definition step (char : ascii) (text : list ascii) (s : Scan) : Scan * nat :=
  if in_line_comment s then
    if (char =? line_feed)%char then
      (mkScan (statements s) (buffer s ++ [char]) (in_single_quote s)
         (in_double_quote s) false (in_block_comment s) (dollar_quote_tag s), 0)
    else (s, 0)
  else if in_block_comment s then
    if starts_with ["*"; "/"]%char (char :: text) then
      (mkScan (statements s) (buffer s) (in_single_quote s) (in_double_quote s)
         (in_line_comment s) false (dollar_quote_tag s), 1)
    else (s, 0)
  else
    match dollar_quote_tag s with
    | Some tag =>
      if starts_with tag (char :: text) then
        (mkScan (statements s) (buffer s ++ tag) (in_single_quote s)
           (in_double_quote s) (in_line_comment s) (in_block_comment s) None,
         length tag - 1)
      else (append_buffer s [char], 0)
    | None =>
      if negb (in_single_quote s) && negb (in_double_quote s) then
        if starts_with ["-"; "-"]%char (char :: text) then
          (mkScan (statements s) (buffer s) (in_single_quote s) (in_double_quote s)
             true (in_block_comment s) (dollar_quote_tag s), 1)
        else if starts_with ["/"; "*"]%char (char :: text) then
          (mkScan (statements s) (buffer s) (in_single_quote s) (in_double_quote s)
             (in_line_comment s) true (dollar_quote_tag s), 1)
        else if (char =? "$")%char && starts_with ["$"%char] (after_tag_name text) then
          let tag := (char :: tag_name text) ++ ["$"%char] in
          (mkScan (statements s) (buffer s ++ tag) (in_single_quote s)
             (in_double_quote s) (in_line_comment s) (in_block_comment s) (Some tag),
           length tag - 1)
        else (ordinary char s, 0)
      else (ordinary char s, 0)
    end.

(** [while i < len(sql)]: [skip] characters are jumped over first. *)
Fixpoint scan (sql : list ascii) (skip : nat) (s : Scan) : Scan :=
  match sql with
  | [] => s
  | char :: text =>
    match skip with
    | S skip' => scan text skip' s
    | O => let '(s', jump) := step char text s in scan text jump s'
    end
  end.

Definition TRANSACTION_WORDS : list (list ascii) :=
  map list_ascii_of_string ["COMMIT"; "BEGIN"; "START TRANSACTION"]%string.

(** [stmt.strip().upper() in {...}]. *)
Definition is_transaction_word (stmt : list ascii) : bool :=
  existsb (same (upper (strip stmt))) TRANSACTION_WORDS.

Definition split_chars (sql : list ascii) : list (list ascii) :=
  let s := scan sql 0 initial in
  let tail := strip (buffer s) in
  let found := match tail with
               | [] => statements s
               | _ => statements s ++ [tail]
               end in
  filter (fun stmt => negb (is_transaction_word stmt)) found.

Definition _split_sql_statements (sql : string) : list string :=
  map string_of_list_ascii (split_chars (list_ascii_of_string sql)).

(** A script without quotes, dollars and comment openers. *)
Fixpoint plain (sql : list ascii) : bool :=
  match sql with
  | [] => true
  | c :: text =>
    negb (member c [single_quote; double_quote; "$"%char]) &&
    negb (starts_with ["-"; "-"]%char sql) &&
    negb (starts_with ["/"; "*"]%char sql) &&
    plain text
  end.

(** The pieces between the semicolons of a script: the closed ones and
    the one still open at the end. *)
Fixpoint pieces (sql : list ascii) (current : list ascii)
  : list (list ascii) * list ascii :=
  match sql with
  | [] => ([], current)
  | c :: text =>
    if (c =? ";")%char then
      let '(closed, last) := pieces text [] in (current :: closed, last)
    else pieces text (current ++ [c])
  end.

Definition not_empty (s : list ascii) : bool :=
  match s with [] => false | _ => true end.

(** Splitting at every semicolon, stripping, and leaving out what is
    empty or a transaction word. *)
Definition split_at_semicolons (sql : list ascii) : list (list ascii) :=
  let '(closed, last) := pieces sql [] in
  filter (fun stmt => negb (is_transaction_word stmt))
    (filter not_empty (map strip (closed ++ [last]))).

End Sql.

(* ===================================================================== *)
(** * Theorems                                                            *)
(* ===================================================================== *)

Import KeyManager.

Lemma remove_at_length A (l : list A) i :
  i < length l -> length (remove_at i l) = length l - 1.
Proof.
  revert i; induction l as [|a l IH]; intros [|i] H; simpl in *; try lia.
  rewrite IH by lia. lia.
Qed.

Lemma replace_at_length A (l : list A) i a :
  length (replace_at i a l) = length l.
Proof.
  revert i; induction l as [|b l IH]; intros [|i]; simpl; auto.
Qed.

(* --------------------------------------------------------------------- *)
(** ** The AI-credential pool                                             *)
(* --------------------------------------------------------------------- *)

Lemma nth_error_in_range A (l : list A) i :
  i < length l -> exists a, nth_error l i = Some a.
Proof.
  intros H. destruct (nth_error l i) as [a|] eqn:E; eauto.
  apply nth_error_None in E. lia.
Qed.

Lemma remove_at_incl A (l : list A) i : incl (remove_at i l) l.
Proof.
  revert i; induction l as [|a l IH]; intros [|i]; simpl.
  - apply incl_refl.
  - apply incl_refl.
  - apply incl_tl, incl_refl.
  - intros x [->|Hx]; [left; reflexivity | right; apply (IH i); exact Hx].
Qed.

Lemma remove_replace_at A (l : list A) i a :
  remove_at i (replace_at i a l) = remove_at i l.
Proof.
  revert i; induction l as [|b l IH]; intros [|i]; simpl; auto.
  now rewrite IH.
Qed.

(** [get_current_key] never raises: it answers [None] on an empty working
    set and otherwise the key of the entry the (normalised) index selects. *)
Lemma get_current_key_spec (m : GeminiKeyManager) :
  exists k m',
    get_current_key m = Ok (k, m') /\
    keys m' = keys m /\
    in_bounds m' /\
    (keys m = [] -> k = None /\ m' = m) /\
    (keys m <> [] ->
       exists e, nth_error (keys m) (current_index m') = Some e /\
                 k = entry_key e /\ current_index m' < length (keys m)).
Proof.
  unfold get_current_key. destruct (keys m) as [|e0 ks] eqn:Hk.
  - exists None, m. split; [reflexivity|]. split; [exact Hk|].
    split; [unfold in_bounds; rewrite Hk; congruence|].
    split; [auto | congruence].
  - rewrite <- Hk.
    set (m1 := if length (keys m) <=? current_index m then set_index m 0 else m).
    assert (Hkeys : keys m1 = keys m).
    { unfold m1. destruct (length (keys m) <=? current_index m); reflexivity. }
    assert (Hidx : current_index m1 < length (keys m)).
    { unfold m1. destruct (Nat.leb_spec (length (keys m)) (current_index m)).
      - simpl. rewrite Hk. simpl. lia.
      - assumption. }
    destruct (nth_error_in_range (keys m) Hidx) as [e He].
    exists (entry_key e), m1. unfold list_index. rewrite Hkeys, He. simpl.
    split; [reflexivity|]. split; [reflexivity|].
    split; [unfold in_bounds; rewrite Hkeys; intros _; exact Hidx|].
    split; [rewrite Hk; discriminate|].
    intros _. exists e. auto.
Qed.

Lemma rotate_key_spec (m : GeminiKeyManager) :
  keys (rotate_key m) = keys m /\ in_bounds (rotate_key m).
Proof.
  unfold rotate_key, in_bounds. destruct (keys m) as [|e ks] eqn:Hk.
  - rewrite Hk. split; congruence.
  - cbn [keys current_index set_index]. rewrite Hk. split; auto. intros _.
    apply Nat.mod_upper_bound. discriminate.
Qed.

(** [disable_current_key] never raises; under its guard it removes the
    selected entry, otherwise it leaves the pool alone. *)
Lemma disable_current_key_spec (m : GeminiKeyManager) reason :
  exists m',
    disable_current_key m reason = Ok m' /\
    (in_bounds m -> in_bounds m') /\
    (current_index m < length (keys m) ->
       keys m' = remove_at (current_index m) (keys m)) /\
    (length (keys m) <= current_index m -> m' = m).
Proof.
  unfold disable_current_key. destruct (keys m) as [|e0 ks] eqn:Hk.
  - exists m. split; [reflexivity|]. split; [auto|].
    split; [simpl; lia | auto].
  - rewrite <- Hk.
    destruct (Nat.ltb_spec (current_index m) (length (keys m))) as [Hlt|Hge].
    + destruct (nth_error_in_range (keys m) Hlt) as [e He].
      unfold list_index. rewrite He. simpl. unfold list_pop.
      rewrite replace_at_length.
      destruct (Nat.ltb_spec (current_index m) (length (keys m))); [|lia].
      simpl. eexists. split; [reflexivity|]. rewrite remove_replace_at.
      split; [|split; [reflexivity | lia]].
      unfold in_bounds. simpl. intros _ Hne.
      destruct (Nat.leb_spec (length (remove_at (current_index m) (keys m)))
                  (current_index m)); [|assumption].
      destruct (remove_at (current_index m) (keys m)); [congruence | simpl; lia].
    + exists m. split; [reflexivity|]. split; [auto|]. split; [lia | auto].
Qed.



Lemma load_keys_active (inputs : list key_input) :
  Forall (fun e => is_active e = true) (load_keys inputs).
Proof.
  induction inputs as [|[k|d|] rest IH]; simpl; auto.
  destruct (is_active d) eqn:E; auto.
Qed.

Lemma init_in_bounds (inputs : list key_input) (rnd : nat) :
  in_bounds (init inputs rnd).
Proof.
  unfold init, in_bounds. simpl. destruct (load_keys inputs) as [|e ks]; [congruence|].
  intros _. unfold randint. simpl length.
  replace (S (length ks) - 1 - 0 + 1) with (S (length ks)) by lia.
  pose proof (Nat.mod_upper_bound rnd (S (length ks))). lia.
Qed.





(* --------------------------------------------------------------------- *)
(** ** The transcript-key table                                           *)
(* --------------------------------------------------------------------- *)

Import Transcript.

Lemma update_first_In p f rs r :
  In r (update_first p f rs) ->
  In r rs \/ exists r0, In r0 rs /\ p r0 = true /\ r = f r0.
Proof.
  induction rs as [|a rs IH]; simpl; [tauto|].
  destruct (p a) eqn:E; simpl.
  - intros [<-|H]; [right; exists a; auto | left; auto].
  - intros [<-|H]; [left; auto|].
    destruct (IH H) as [H'|(r0 & H1 & H2 & H3)]; [left; auto|].
    right; exists r0; auto.
Qed.

Lemma update_first_unique k f rs key r :
  NoDup (map row_id rs) ->
  In key rs -> row_id key = k ->
  In r (update_first (fun x => row_id x =? k) f rs) ->
  row_id r = k -> (forall x, row_id (f x) = row_id x) ->
  r = f key.
Proof.
  intros Hnd Hin Hk Hr Hrk Hf.
  induction rs as [|a rs IH]; simpl in *; [tauto|].
  inversion Hnd as [|? ? Hnotin Hnd']; subst.
  destruct (Nat.eqb_spec (row_id a) (row_id key)) as [E|E].
  - destruct Hin as [->|Hin].
    + destruct Hr as [<-|Hr]; [reflexivity|].
      exfalso. apply Hnotin. rewrite <- Hrk. apply in_map. exact Hr.
    + exfalso. apply Hnotin. rewrite E. apply in_map. exact Hin.
  - destruct Hin as [->|Hin]; [congruence|].
    destruct Hr as [<-|Hr]; [congruence|]. apply IH; assumption.
Qed.

Lemma retired_mark_key_used k t key_id now :
  retired k t -> retired k (mark_key_used t key_id now).
Proof.
  intros [Hlt H]. split; [exact Hlt|]. simpl. intros r Hr Hk.
  apply update_first_In in Hr. destruct Hr as [Hr|(r0 & Hr0 & _ & ->)].
  - apply H; assumption.
  - simpl in *. apply H; assumption.
Qed.

Lemma retired_disable_key k t key_id reason now :
  retired k t -> retired k (disable_key t key_id reason now).
Proof.
  intros [Hlt H]. split; [exact Hlt|]. simpl. intros r Hr Hk.
  apply update_first_In in Hr. destruct Hr as [Hr|(r0 & Hr0 & _ & ->)].
  - apply H; assumption.
  - reflexivity.
Qed.

Lemma retired_insert_key k t key email pw :
  retired k t -> retired k (snd (insert_key t key email pw)).
Proof.
  intros [Hlt H]. split; simpl; [lia|]. intros r Hr Hk.
  apply in_app_or in Hr. destruct Hr as [Hr|[<-|[]]].
  - apply H; assumption.
  - simpl in Hk. lia.
Qed.

Lemma disable_key_retires t key reason now :
  table_wf t -> In key (rows t) ->
  retired (row_id key) (disable_key t (row_id key) reason now).
Proof.
  intros [Hnd Hall] Hin. split.
  - simpl. rewrite Forall_forall in Hall. apply Hall. exact Hin.
  - simpl. intros r Hr Hk.
    erewrite (@update_first_unique (row_id key) _ (rows t) key r); eauto.
    reflexivity.
Qed.

Lemma fold_earlier_In rs best r :
  fold_left earlier rs best = Some r -> best = Some r \/ In r rs.
Proof.
  revert best; induction rs as [|a rs IH]; simpl; intros best H; [auto|].
  apply IH in H. destruct H as [H|H]; [|auto].
  unfold earlier in H. destruct best as [b|].
  - destruct (last_used_le (last_used b) (last_used a)); inversion H; subst; auto.
  - inversion H; subst; auto.
Qed.

(** [get_active_key] answers a row of the table that is active. *)
Lemma get_active_key_active t r :
  get_active_key t = Some r ->
  In r (rows t) /\ status r = "active"%string.
Proof.
  unfold get_active_key. intros H. apply fold_earlier_In in H.
  destruct H as [H|H]; [discriminate|].
  apply filter_In in H. destruct H as [Hin Hact]. split; [exact Hin|].
  unfold is_active_transcript_key in Hact. apply andb_true_iff in Hact.
  destruct Hact as [_ Hs]. apply String.eqb_eq in Hs. exact Hs.
Qed.

Lemma retired_not_returned k t r :
  retired k t -> get_active_key t = Some r -> row_id r <> k.
Proof.
  intros [_ H] Hget Hk. apply get_active_key_active in Hget.
  destruct Hget as [Hin Hs]. rewrite (H r Hin Hk) in Hs. discriminate.
Qed.

(* --------------------------------------------------------------------- *)
(** ** Account provisioning                                               *)
(* --------------------------------------------------------------------- *)

Lemma poll_loop_bound run tag interval max_attempts remaining attempt log :
  Transcript.count is_poll
    (snd (poll_loop run tag interval max_attempts remaining attempt log))
  <= Transcript.count is_poll log + remaining.
Proof.
  revert attempt log; induction remaining as [|n IH]; intros attempt log; simpl.
  - lia.
  - destruct (poll_once run tag attempt max_attempts) as [r|[|]]; simpl.
    + unfold Transcript.count. simpl. lia.
    + etransitivity; [apply IH|]. unfold Transcript.count. simpl. lia.
    + etransitivity; [apply IH|]. unfold Transcript.count. simpl. lia.
Qed.


Lemma retrieve_otp_safe env run box st :
  exists otp,
    fst (retrieve_otp env run box st) = Ok otp /\
    tbl (snd (retrieve_otp env run box st)) = tbl st.
Proof.
  unfold retrieve_otp. destruct box as [temp_email_id|email_tag].
  - eexists. split; reflexivity.
  - unfold wait_for_testmail_message.
    destruct (poll_loop run email_tag 10 (60 / 10) (60 / 10) 1 (tlog st)) as [r log'].
    destruct r as [email_data|]; [|eexists; split; reflexivity].
    destruct (truthy email_data); eexists; split; reflexivity.
Qed.

Lemma verify_and_save_spec run email pw access_token otp_code st :
  match fst (verify_and_save run email pw access_token otp_code st) with
  | None => tbl (snd (verify_and_save run email pw access_token otp_code st)) = tbl st
  | Some row =>
    exists key,
      verify_email_with_otp run access_token otp_code = true /\
      get_api_key_from_account run access_token = Some key /\ key <> ""%string /\
      commit_succeeds run = true /\
      insert_key (tbl st) key email pw =
        (row, tbl (snd (verify_and_save run email pw access_token otp_code st)))
  end.
Proof.
  unfold verify_and_save.
  destruct (verify_email_with_otp run access_token otp_code); simpl; [|reflexivity].
  destruct (get_api_key_from_account run access_token) as [key|]; simpl; [|reflexivity].
  destruct (String.eqb_spec key ""); simpl; [reflexivity|].
  destruct (commit_succeeds run); simpl; [|reflexivity].
  exists key. auto.
Qed.


(* --------------------------------------------------------------------- *)
(** ** The provider fallback chain                                        *)
(* --------------------------------------------------------------------- *)

Import AI.

Lemma call_gemini_api_eq env prompt retry_count km log :
  call_gemini_api env prompt retry_count km log =
  if MAX_GEMINI_RETRIES <=? retry_count
  then hf_backup env prompt km (AEnter retry_count :: log)
  else gemini_round env prompt retry_count km (AEnter retry_count :: log)
         (call_gemini_api env prompt (retry_count + 1)).
Proof.
  rewrite call_gemini_api_equation_1. unfold call_gemini_api_unfold_clause_1.
  destruct (le_lt_dec MAX_GEMINI_RETRIES retry_count) as [H|H];
    destruct (Nat.leb_spec MAX_GEMINI_RETRIES retry_count); try lia; reflexivity.
Qed.

(** The secondary provider is entered once per call of
    [call_huggingface_api], and that call touches nothing else. *)
Lemma call_huggingface_api_log env prompt log :
  exists posts,
    snd (call_huggingface_api env prompt log) = posts ++ AHfCall :: log /\
    (posts = [] \/ posts = [AHfPost]).
Proof.
  unfold call_huggingface_api.
  destruct (HUGGINGFACE_TOKEN env =? "")%string.
  - exists []. auto.
  - exists [AHfPost]. destruct (hf_post env (length (AHfCall :: log))); auto.
Qed.

Lemma hf_backup_spec env prompt km log :
  exists v posts,
    hf_backup env prompt km log = (Ok v, (km, posts ++ AHfCall :: log)) /\
    (posts = [] \/ posts = [AHfPost]).
Proof.
  unfold hf_backup.
  destruct (call_huggingface_api_log env prompt log) as (posts & Hlog & Hposts).
  destruct (call_huggingface_api env prompt log) as [r log']. simpl in Hlog. subst log'.
  eexists. exists posts. split; [reflexivity | exact Hposts].
Qed.

Lemma hf_backup_counts env prompt km log :
  exists v log',
    hf_backup env prompt km log = (Ok v, (km, log')) /\
    AI.count is_hf_call log' = AI.count is_hf_call log + 1 /\
    AI.count is_enter log' = AI.count is_enter log /\
    AI.count is_gemini_post log' = AI.count is_gemini_post log.
Proof.
  destruct (hf_backup_spec env prompt km log) as (v & posts & H & Hposts).
  exists v. eexists. split; [exact H|].
  destruct Hposts as [->| ->]; unfold AI.count; simpl; lia.
Qed.

(** What a call of the chain can do, [n] being the retries it has left. *)
Lemma call_gemini_api_bounds env prompt :
  forall n retry_count km log,
    n = MAX_GEMINI_RETRIES - retry_count ->
    exists v km' log',
      call_gemini_api env prompt retry_count km log = (Ok v, (km', log')) /\
      incl (keys km') (keys km) /\
      AI.count is_hf_call log' <= AI.count is_hf_call log + 1 /\
      AI.count is_enter log' <= AI.count is_enter log + n + 1 /\
      AI.count is_gemini_post log' <= AI.count is_gemini_post log + n.
Proof.
  induction n as [|n IH]; intros retry_count km log Hn; rewrite call_gemini_api_eq.
  - destruct (Nat.leb_spec MAX_GEMINI_RETRIES retry_count) as [_|Hlt]; [|lia].
    destruct (hf_backup_counts env prompt km (AEnter retry_count :: log))
      as (v & log' & -> & H1 & H2 & H3).
    exists v, km, log'. split; [reflexivity|]. split; [apply incl_refl|].
    unfold AI.count in *; simpl in *; lia.
  - destruct (Nat.leb_spec MAX_GEMINI_RETRIES retry_count) as [Hge|_]; [lia|].
    assert (Hrec : forall km1 log1,
               incl (keys km1) (keys km) ->
               AI.count is_hf_call log1 = AI.count is_hf_call log ->
               AI.count is_enter log1 = AI.count is_enter log + 1 ->
               AI.count is_gemini_post log1 = AI.count is_gemini_post log + 1 ->
               exists v km' log',
                 call_gemini_api env prompt (retry_count + 1) km1 log1
                 = (Ok v, (km', log')) /\
                 incl (keys km') (keys km) /\
                 AI.count is_hf_call log' <= AI.count is_hf_call log + 1 /\
                 AI.count is_enter log' <= AI.count is_enter log + S n + 1 /\
                 AI.count is_gemini_post log' <= AI.count is_gemini_post log + S n).
    { intros km1 log1 Hincl E1 E2 E3.
      destruct (IH (retry_count + 1) km1 log1) as (v & km' & log' & -> & Hi & B1 & B2 & B3);
        [lia|].
      exists v, km', log'. split; [reflexivity|].
      split; [eapply incl_tran; eassumption | lia]. }
    unfold gemini_round.
    destruct (get_current_key_spec km) as (k & km1 & -> & Hkeys1 & _).
    assert (Hhf : forall log1,
               AI.count is_hf_call log1 = AI.count is_hf_call log ->
               AI.count is_enter log1 = AI.count is_enter log + 1 ->
               AI.count is_gemini_post log1 <= AI.count is_gemini_post log + 1 ->
               exists v km' log',
                 hf_backup env prompt km1 log1 = (Ok v, (km', log')) /\
                 incl (keys km') (keys km) /\
                 AI.count is_hf_call log' <= AI.count is_hf_call log + 1 /\
                 AI.count is_enter log' <= AI.count is_enter log + S n + 1 /\
                 AI.count is_gemini_post log' <= AI.count is_gemini_post log + S n).
    { intros log1 E1 E2 E3.
      destruct (hf_backup_counts env prompt km1 log1) as (v & log' & -> & H1 & H2 & H3).
      exists v, km1, log'. split; [reflexivity|].
      split; [rewrite Hkeys1; apply incl_refl | lia]. }
    destruct k as [api_key|]; [|apply Hhf; unfold AI.count; simpl; lia].
    destruct (api_key =? "")%string; [apply Hhf; unfold AI.count; simpl; lia|].
    destruct (gemini_post env (length (AEnter retry_count :: log)) api_key)
      as [body|resp|].
    + eexists _, km1, _. split; [reflexivity|].
      split; [rewrite Hkeys1; apply incl_refl|]. unfold AI.count; simpl; lia.
    + cbv zeta.
      destruct (status_in [400; 403; 429; 503]%Z (error_status resp)).
      * destruct (status_in [503]%Z (error_status resp)).
        -- destruct (0 <? get_active_count km1).
           ++ apply Hrec; [rewrite (proj1 (rotate_key_spec km1)), Hkeys1; apply incl_refl | ..];
                unfold AI.count; simpl; lia.
           ++ apply Hhf; unfold AI.count; simpl; lia.
        -- destruct (disable_current_key_spec km1 (http_msg (error_status resp)))
             as (km2 & -> & _ & Hlt & Hge).
           assert (Hincl2 : incl (keys km2) (keys km)).
           { rewrite <- Hkeys1.
             destruct (Nat.lt_ge_cases (current_index km1) (length (keys km1))) as [H|H].
             - rewrite (Hlt H). apply remove_at_incl.
             - rewrite (Hge H). apply incl_refl. }
           destruct (0 <? get_active_count km2).
           ++ apply Hrec; [rewrite (proj1 (rotate_key_spec km2)); exact Hincl2 | ..];
                unfold AI.count; simpl; lia.
           ++ eexists _, km2, _. split; [reflexivity|]. split; [exact Hincl2|].
              unfold AI.count; simpl; lia.
      * eexists _, km1, _. split; [reflexivity|].
        split; [rewrite Hkeys1; apply incl_refl|]. unfold AI.count; simpl; lia.
    + destruct (0 <? get_active_count km1).
      * apply Hrec; [rewrite (proj1 (rotate_key_spec km1)), Hkeys1; apply incl_refl | ..];
          unfold AI.count; simpl; lia.
      * eexists _, km1, _. split; [reflexivity|].
        split; [rewrite Hkeys1; apply incl_refl|]. unfold AI.count; simpl; lia.
Qed.





(* --------------------------------------------------------------------- *)
(** ** The transcript fetch loop                                          *)
(* --------------------------------------------------------------------- *)

Lemma count_provisioning (p : TEvent -> bool) added log :
  forallb is_provisioning added = true ->
  (forall e, is_provisioning e = true -> p e = false) ->
  Transcript.count p (added ++ log) = Transcript.count p log.
Proof.
  intros Hall Hp. unfold Transcript.count. induction added as [|e added IH]; simpl; auto.
  simpl in Hall. apply andb_true_iff in Hall. destruct Hall as [He Hrest].
  rewrite (Hp e He). apply IH. exact Hrest.
Qed.

Lemma provisioning_not_query e : is_provisioning e = true -> is_query e = false.
Proof. destruct e; simpl; congruence. Qed.

Lemma provisioning_not_http_get e : is_provisioning e = true -> is_http_get e = false.
Proof. destruct e; simpl; congruence. Qed.

Lemma poll_loop_added run tag interval max_attempts remaining attempt log :
  exists added,
    snd (poll_loop run tag interval max_attempts remaining attempt log) = added ++ log /\
    forallb is_provisioning added = true.
Proof.
  revert attempt log; induction remaining as [|n IH]; intros attempt log; simpl.
  - exists []. auto.
  - destruct (poll_once run tag attempt max_attempts) as [r|[|]]; simpl.
    + exists [TPoll attempt]. auto.
    + destruct (IH (S attempt) (TSleep interval :: TPoll attempt :: log)) as (added & -> & H).
      exists (added ++ [TSleep interval; TPoll attempt]). rewrite <- app_assoc.
      split; [reflexivity|]. rewrite forallb_app, H. reflexivity.
    + destruct (IH (S attempt) (TPoll attempt :: log)) as (added & -> & H).
      exists (added ++ [TPoll attempt]). rewrite <- app_assoc.
      split; [reflexivity|]. rewrite forallb_app, H. reflexivity.
Qed.

Lemma retrieve_otp_added env run box st :
  exists added,
    tlog (snd (retrieve_otp env run box st)) = added ++ tlog st /\
    forallb is_provisioning added = true.
Proof.
  unfold retrieve_otp. destruct box as [temp_email_id|email_tag].
  - exists [TSleep 30]. auto.
  - unfold wait_for_testmail_message.
    destruct (poll_loop_added run email_tag 10 (60 / 10) (60 / 10) 1 (tlog st))
      as (added & Hlog & H).
    destruct (poll_loop run email_tag 10 (60 / 10) (60 / 10) 1 (tlog st)) as [r log'].
    simpl in Hlog. subst log'. exists added. split; [|exact H].
    destruct r as [email_data|]; [|reflexivity].
    destruct (truthy email_data); reflexivity.
Qed.

Lemma verify_and_save_added run email pw access_token otp_code st :
  exists added,
    tlog (snd (verify_and_save run email pw access_token otp_code st)) = added ++ tlog st /\
    forallb is_provisioning added = true.
Proof.
  unfold verify_and_save.
  destruct (verify_email_with_otp run access_token otp_code); simpl;
    [|exists []; auto].
  destruct (get_api_key_from_account run access_token) as [key|]; simpl;
    [|exists [TSleep 2]; auto].
  destruct (key =? "")%string; [exists [TSleep 2]; auto|].
  destruct (commit_succeeds run); exists [TSleep 2]; auto.
Qed.

(** Provisioning adds provisioning events only, never raises, and keeps a
    retired row retired. *)
Lemma auto_register_frame env st :
  exists k added,
    fst (auto_register_and_save_key env st) = Ok k /\
    tlog (snd (auto_register_and_save_key env st)) = added ++ tlog st /\
    forallb is_provisioning added = true /\
    (forall i, retired i (tbl st) ->
               retired i (tbl (snd (auto_register_and_save_key env st)))).
Proof.
  unfold auto_register_and_save_key.
  set (run := provision env (length (tlog st))).
  destruct (obtain_mailbox run) as [[email box]|];
    [|exists None, [TProvision]; auto].
  destruct (register_account run email (generate_random_password run)); simpl;
    [|exists None, [TProvision]; auto].
  destruct (login_account run email (generate_random_password run)) as [access_token|];
    [|exists None, [TSleep 2; TProvision]; auto].
  destruct (access_token =? "")%string;
    [exists None, [TSleep 2; TProvision]; auto|].
  destruct (send_verification_otp run access_token); simpl;
    [|exists None, [TSleep 2; TSleep 2; TProvision]; auto].
  set (st2 := record_event (TSleep 2) (record_event (TSleep 2) (record_event TProvision st))).
  destruct (retrieve_otp_safe env run box st2) as (otp & Hr & Htbl).
  destruct (retrieve_otp_added env run box st2) as (added & Hlog & Hprov).
  destruct (retrieve_otp env run box st2) as [r st3]. simpl in Hr, Htbl, Hlog. subst r.
  assert (Hframe : tlog st3 = (added ++ [TSleep 2; TSleep 2; TProvision]) ++ tlog st
                   /\ forallb is_provisioning (added ++ [TSleep 2; TSleep 2; TProvision]) = true).
  { rewrite Hlog, <- app_assoc. split; [reflexivity|].
    rewrite forallb_app, Hprov. reflexivity. }
  destruct Hframe as [Hlog3 Hprov3].
  assert (Hnone : exists k added0,
             Ok (@None ApiKey) = Ok k /\ tlog st3 = added0 ++ tlog st /\
             forallb is_provisioning added0 = true /\
             (forall i, retired i (tbl st) -> retired i (tbl st3))).
  { exists None. eexists. split; [reflexivity|]. split; [exact Hlog3|].
    split; [exact Hprov3|]. intros i Hi. rewrite Htbl. exact Hi. }
  destruct otp as [otp_code|]; [|exact Hnone].
  destruct (otp_code =? "")%string; [exact Hnone|].
  pose proof (verify_and_save_spec run email (generate_random_password run)
                access_token otp_code st3) as Hsave.
  destruct (verify_and_save_added run email (generate_random_password run)
              access_token otp_code st3) as (added4 & Hlog4 & Hprov4).
  destruct (verify_and_save run email (generate_random_password run)
              access_token otp_code st3) as [k st4].
  simpl in Hsave, Hlog4. exists k, (added4 ++ added ++ [TSleep 2; TSleep 2; TProvision]).
  simpl. split; [reflexivity|]. split; [rewrite Hlog4, Hlog3, !app_assoc; reflexivity|].
  split; [rewrite forallb_app, Hprov4; exact Hprov3|].
  intros i Hi. destruct k as [row|].
  - destruct Hsave as (key & _ & _ & _ & _ & Hins).
    pose proof (@retired_insert_key i (tbl st3) key email
                  (generate_random_password run)) as Hret.
    rewrite Hins in Hret. simpl in Hret. apply Hret. rewrite Htbl. exact Hi.
  - rewrite Hsave, Htbl. exact Hi.
Qed.

Lemma on_request_exception_frame attempt max_attempts st :
  exists pre,
    tlog (snd (on_request_exception attempt max_attempts st)) = pre ++ tlog st /\
    forallb is_provisioning pre = true /\
    tbl (snd (on_request_exception attempt max_attempts st)) = tbl st.
Proof.
  unfold on_request_exception. destruct (attempt <? max_attempts - 1).
  - exists [TSleep 2]. auto.
  - exists []. auto.
Qed.

Lemma on_success_frame env key data st :
  tlog (snd (on_success env key data st)) = tlog st /\
  (forall i, retired i (tbl st) -> retired i (tbl (snd (on_success env key data st)))).
Proof.
  unfold on_success.
  destruct (str_in "transcript" data) as [[|]|]; [| |auto].
  - destruct (getitem data "transcript") as [transcript_data|]; [|auto].
    destruct (match transcript_data with
              | JArr entries => parse_entries env entries
              | _ => Ok []
              end) as [[|e es]|]; simpl; auto.
    split; [reflexivity|]. intros i Hi. apply retired_mark_key_used. exact Hi.
  - destruct (str_in "error" data) as [[|]|]; auto.
Qed.

Lemma on_success_empty env key status_code data st :
  is_empty_transcript env (GetResponse status_code (Some data)) = true ->
  fst (on_success env key data st) = FetchReturn None.
Proof.
  unfold is_empty_transcript, on_success. intros H.
  apply andb_true_iff in H. destruct H as [_ H].
  destruct (str_in "transcript" data) as [[|]|]; simpl in H; try discriminate.
  destruct (getitem data "transcript") as [transcript_data|]; simpl in H;
    [|discriminate].
  destruct (match transcript_data with
            | JArr entries => parse_entries env entries
            | _ => Ok []
            end) as [[|e es]|]; simpl; congruence.
Qed.

(** One round with a key in hand: it logs its request, keeps retired rows
    retired, and ends the fetch with no transcript on a 404 and on an empty
    transcript. *)
Lemma request_transcript_frame env video_id max_attempts attempt key st :
  exists pre,
    tlog (snd (request_transcript env video_id max_attempts attempt key st))
    = pre ++ THttpGet (row_id key)
               (transcript_get env (length (tlog st)) (api_key key) video_id)
             :: tlog st /\
    forallb is_provisioning pre = true /\
    (forall i, retired i (tbl st) ->
       retired i (tbl (snd (request_transcript env video_id max_attempts attempt key st)))) /\
    (is_not_found (transcript_get env (length (tlog st)) (api_key key) video_id)
     || is_empty_transcript env
          (transcript_get env (length (tlog st)) (api_key key) video_id) = true ->
     fst (request_transcript env video_id max_attempts attempt key st) = FetchReturn None).
Proof.
  unfold request_transcript.
  set (answer := transcript_get env (length (tlog st)) (api_key key) video_id).
  set (st1 := record_event (THttpGet (row_id key) answer) st).
  assert (Hexc : exists pre,
             tlog (snd (on_request_exception attempt max_attempts st1))
             = pre ++ THttpGet (row_id key) answer :: tlog st /\
             forallb is_provisioning pre = true /\
             (forall i, retired i (tbl st) ->
                retired i (tbl (snd (on_request_exception attempt max_attempts st1))))).
  { destruct (on_request_exception_frame attempt max_attempts st1) as (pre & H1 & H2 & H3).
    exists pre. rewrite H1, H3. auto. }
  destruct answer as [status_code body| |] eqn:Hans.
  - destruct (existsb (Z.eqb status_code) FATAL_STATUSES) eqn:Hfatal.
    + assert (H404 : (status_code =? 404)%Z = false /\ (status_code <? 400)%Z = false).
      { unfold FATAL_STATUSES in Hfatal. simpl in Hfatal.
        repeat (apply orb_true_iff in Hfatal; destruct Hfatal as [Hfatal|Hfatal]);
          try discriminate; apply Z.eqb_eq in Hfatal; subst; auto. }
      destruct H404 as [H404 H400].
      assert (Hterm : is_not_found (GetResponse status_code body)
                      || is_empty_transcript env (GetResponse status_code body) = false).
      { simpl. rewrite H404. destruct body; simpl; [rewrite H400|]; reflexivity. }
      rewrite Hterm. destruct (attempt <? max_attempts - 1).
      * exists [TSleep 1]. split; [reflexivity|]. split; [reflexivity|].
        split; [|discriminate]. intros i Hi. simpl. apply retired_disable_key. exact Hi.
      * exists []. split; [reflexivity|]. split; [reflexivity|].
        split; [|discriminate]. intros i Hi. simpl. apply retired_disable_key. exact Hi.
    + destruct (Z.eqb_spec status_code 404) as [E404|N404].
      * exists []. split; [reflexivity|]. split; [reflexivity|].
        split; [|reflexivity]. intros i Hi. simpl. apply retired_mark_key_used. exact Hi.
      * destruct (Z.leb_spec 400 status_code) as [Hge|Hlt].
        -- exists []. split; [reflexivity|]. split; [reflexivity|].
           split; [auto|]. simpl. rewrite (proj2 (Z.eqb_neq _ _) N404).
           destruct body; simpl; [|discriminate].
           destruct (Z.ltb_spec status_code 400); [lia | discriminate].
        -- destruct body as [data|].
           ++ destruct (on_success_frame env key data st1) as [Hlog Hret].
              exists []. rewrite Hlog. split; [reflexivity|]. split; [reflexivity|].
              split; [exact Hret|].
              simpl is_not_found. rewrite (proj2 (Z.eqb_neq _ _) N404). simpl orb.
              apply on_success_empty.
           ++ destruct (json_error_is_request_exception env).
              ** destruct Hexc as (pre & H1 & H2 & H3). exists pre.
                 split; [exact H1|]. split; [exact H2|]. split; [exact H3|].
                 simpl. rewrite (proj2 (Z.eqb_neq _ _) N404). discriminate.
              ** exists []. split; [reflexivity|]. split; [reflexivity|].
                 split; [auto|]. simpl. rewrite (proj2 (Z.eqb_neq _ _) N404). discriminate.
  - destruct Hexc as (pre & H1 & H2 & H3). exists pre.
    split; [exact H1|]. split; [exact H2|]. split; [exact H3|]. discriminate.
  - exists []. split; [reflexivity|]. split; [reflexivity|]. split; [auto | discriminate].
Qed.

Lemma tcount_app (p : TEvent -> bool) a b :
  Transcript.count p (a ++ b) = Transcript.count p a + Transcript.count p b.
Proof. unfold Transcript.count. rewrite filter_app, length_app. reflexivity. Qed.

Lemma tcount_provisioning_query added :
  forallb is_provisioning added = true -> Transcript.count is_query added = 0.
Proof.
  intros H. rewrite <- (app_nil_r added).
  rewrite (count_provisioning is_query added [] H provisioning_not_query). reflexivity.
Qed.

Lemma tcount_provisioning_http_get added :
  forallb is_provisioning added = true -> Transcript.count is_http_get added = 0.
Proof.
  intros H. rewrite <- (app_nil_r added).
  rewrite (count_provisioning is_http_get added [] H provisioning_not_http_get).
  reflexivity.
Qed.

Lemma provisioning_has_no_request added k o :
  forallb is_provisioning added = true -> ~ In (THttpGet k o) added.
Proof.
  intros H Hin. rewrite forallb_forall in H. apply H in Hin. discriminate.
Qed.

Ltac count_events :=
  unfold Transcript.count in *;
  repeat (progress (rewrite ?filter_app, ?length_app; simpl));
  lia.

Lemma request_of_round k o pre ev added_p :
  forallb is_provisioning pre = true ->
  forallb is_provisioning added_p = true ->
  In (THttpGet k o) (pre ++ ev :: added_p ++ [TQueryActive]) ->
  THttpGet k o = ev.
Proof.
  intros Hpre Hp Hin. rewrite in_app_iff in Hin. simpl in Hin.
  rewrite in_app_iff in Hin. simpl in Hin.
  destruct Hin as [Hin|[Heq|[Hin|[Heq|Hf]]]].
  - exfalso. exact (@provisioning_has_no_request pre k o Hpre Hin).
  - auto.
  - exfalso. exact (@provisioning_has_no_request added_p k o Hp Hin).
  - discriminate.
  - contradiction.
Qed.

(** The fetch loop with [remaining] rounds left: it never raises, it makes
    at most [remaining] key queries and requests, an answer 404 or an empty
    transcript ends it with no transcript, and retired rows stay retired. *)
Lemma fetch_loop_spec env video_id max_attempts :
  forall remaining attempt st,
    exists r added,
      fst (fetch_loop env video_id max_attempts remaining attempt st) = Ok r /\
      tlog (snd (fetch_loop env video_id max_attempts remaining attempt st))
      = added ++ tlog st /\
      Transcript.count is_query added <= remaining /\
      Transcript.count is_http_get added <= remaining /\
      (forall k o, In (THttpGet k o) added ->
                   is_not_found o || is_empty_transcript env o = true -> r = None) /\
      (forall i, retired i (tbl st) ->
         retired i (tbl (snd (fetch_loop env video_id max_attempts remaining attempt st)))).
Proof.
  induction remaining as [|n IH]; intros attempt st.
  - exists None, []. simpl. split; [reflexivity|]. split; [reflexivity|].
    split; [unfold Transcript.count; simpl; lia|].
    split; [unfold Transcript.count; simpl; lia|].
    split; [intros k o []|auto].
  - cbn [fetch_loop].
    set (st0 := record_event TQueryActive st).
    assert (Hkey : exists ko added_p,
               fst (match get_active_key (tbl st0) with
                    | Some k => (Ok (Some k), st0)
                    | None => auto_register_and_save_key env st0
                    end) = Ok ko /\
               tlog (snd (match get_active_key (tbl st0) with
                          | Some k => (Ok (Some k), st0)
                          | None => auto_register_and_save_key env st0
                          end)) = added_p ++ TQueryActive :: tlog st /\
               forallb is_provisioning added_p = true /\
               (forall i, retired i (tbl st) ->
                  retired i (tbl (snd (match get_active_key (tbl st0) with
                                       | Some k => (Ok (Some k), st0)
                                       | None => auto_register_and_save_key env st0
                                       end))))).
    { destruct (get_active_key (tbl st0)) as [k|].
      - exists (Some k), []. simpl. auto.
      - destruct (auto_register_frame env st0) as (k & added & H1 & H2 & H3 & H4).
        exists k, added. auto. }
    destruct Hkey as (ko & added_p & Hk & Hlog1 & Hprov1 & Hret1).
    destruct (match get_active_key (tbl st0) with
              | Some k => (Ok (Some k), st0)
              | None => auto_register_and_save_key env st0
              end) as [key st1].
    simpl in Hk, Hlog1, Hret1. subst key.
    destruct ko as [key_obj|].
    + destruct (request_transcript_frame env video_id max_attempts attempt key_obj st1)
        as (pre & Hlog2 & Hprov2 & Hret2 & Hterm).
      destruct (request_transcript env video_id max_attempts attempt key_obj st1)
        as [[r|] st2]; simpl in Hlog2, Hret2, Hterm.
      * exists r.
        exists (pre ++ THttpGet (row_id key_obj)
                         (transcript_get env (length (tlog st1)) (api_key key_obj) video_id)
                       :: added_p ++ [TQueryActive]).
        simpl. split; [reflexivity|].
        split; [rewrite Hlog2, Hlog1, <- !app_assoc; simpl; rewrite <- app_assoc; reflexivity|].
        pose proof (tcount_provisioning_query added_p Hprov1) as Q1.
        pose proof (tcount_provisioning_http_get added_p Hprov1) as Q2.
        pose proof (tcount_provisioning_query pre Hprov2) as Q3.
        pose proof (tcount_provisioning_http_get pre Hprov2) as Q4.
        split; [count_events|]. split; [count_events|]. split; [|auto].
        intros k o Hin Ho.
        apply (@request_of_round _ _ _ _ _ Hprov2 Hprov1) in Hin.
        inversion Hin; subst. specialize (Hterm Ho). congruence.
      * destruct (IH (S attempt) st2) as (r & added & Hr & Hlog & Hq & Hg & Hnf & Hret).
        exists r.
        exists (added ++ pre ++ THttpGet (row_id key_obj)
                         (transcript_get env (length (tlog st1)) (api_key key_obj) video_id)
                       :: added_p ++ [TQueryActive]).
        split; [exact Hr|].
        split; [rewrite Hlog, Hlog2, Hlog1, <- !app_assoc; simpl; rewrite <- app_assoc;
                reflexivity|].
        pose proof (tcount_provisioning_query added_p Hprov1) as Q1.
        pose proof (tcount_provisioning_http_get added_p Hprov1) as Q2.
        pose proof (tcount_provisioning_query pre Hprov2) as Q3.
        pose proof (tcount_provisioning_http_get pre Hprov2) as Q4.
        split; [count_events|]. split; [count_events|]. split; [|auto].
        intros k o Hin Ho. apply in_app_or in Hin. destruct Hin as [Hin|Hin];
          [eapply Hnf; eassumption|].
        apply (@request_of_round _ _ _ _ _ Hprov2 Hprov1) in Hin.
        inversion Hin; subst. specialize (Hterm Ho). discriminate.
    + destruct (IH (S attempt) st1) as (r & added & Hr & Hlog & Hq & Hg & Hnf & Hret).
      exists r, (added ++ added_p ++ [TQueryActive]).
      split; [exact Hr|].
      split; [rewrite Hlog, Hlog1, <- !app_assoc; reflexivity|].
      pose proof (tcount_provisioning_query added_p Hprov1) as Q1.
      pose proof (tcount_provisioning_http_get added_p Hprov1) as Q2.
      split; [count_events|]. split; [count_events|]. split; [|auto].
      intros k o Hin Ho. apply in_app_or in Hin. destruct Hin as [Hin|Hin];
        [eapply Hnf; eassumption|].
      apply in_app_or in Hin. destruct Hin as [Hin|[Heq|[]]]; [|discriminate].
      exfalso. exact (@provisioning_has_no_request added_p k o Hprov1 Hin).
Qed.

(* --------------------------------------------------------------------- *)
(** ** C5: disabled credentials                                           *)
(* --------------------------------------------------------------------- *)





(* --------------------------------------------------------------------- *)
(** ** C4: transient and credential-fatal answers                         *)
(* --------------------------------------------------------------------- *)

(** C4 as worded fails on the transcript path: with one active key and a
    provider answering 503, the fetch makes a single request and gives up,
    two attempts of its budget unused. *)
Example transcript_503_is_not_retried :
  ~ transient_answer_is_retried
      (Scenario.transcript_env (fun _ => GetResponse 503 None) Scenario.failing_run)
      "video" Scenario.one_key.
Proof.
  unfold transient_answer_is_retried. intros H.
  specialize (H (Scenario.key_row 1 "secret-1") None eq_refl eq_refl).
  vm_compute in H. lia.
Qed.

Lemma selected_key_means_nonempty km api_key km1 :
  get_current_key km = Ok (Some api_key, km1) ->
  keys km1 = keys km /\ (0 <? get_active_count km1) = true /\
  current_index km1 < length (keys km1).
Proof.
  intros Hget.
  destruct (get_current_key_spec km) as (k & km1' & Hg & Hkeys & _ & Hempty & Hne).
  rewrite Hget in Hg. inversion Hg; subst k km1'.
  assert (Hnonempty : keys km <> []).
  { intros E. destruct (Hempty E). discriminate. }
  destruct (Hne Hnonempty) as (_ & _ & _ & Hlt).
  split; [exact Hkeys|]. unfold get_active_count. rewrite Hkeys.
  split; [apply Nat.ltb_lt; lia | exact Hlt].
Qed.

(** C4, as the code has it. AI path, the status of the error being read
    from the response: on 503 the pool is rotated and the call made again
    with the next retry count, no credential being disabled; on 400, 403
    or 429 the current credential is disabled (removed from the working
    set) and, if a credential is left, the pool is rotated and the call
    made again, else the call returns None. Transcript path: on 401, 402,
    403 or 429 the key is disabled and the loop goes on to its next round
    if one is left, else returns None; on a 5xx answer the fetch returns
    None at once, the key untouched; on a network error the loop goes on to
    its next round if one is left, the key untouched. *)
Theorem answers_by_error_class :
  (forall (env : AI.Env) (prompt : string) (retry_count : nat)
          (km km1 : GeminiKeyManager) (log : list AEvent) (api_key : string)
          (resp : option Response),
     retry_count < MAX_GEMINI_RETRIES ->
     get_current_key km = Ok (Some api_key, km1) ->
     api_key <> ""%string ->
     gemini_post env (S (length log)) api_key = PostHTTPError resp ->
     (error_status resp = Some 503%Z ->
        keys (rotate_key km1) = keys km /\
        call_gemini_api env prompt retry_count km log
        = call_gemini_api env prompt (retry_count + 1) (rotate_key km1)
            (ASleep 2 :: AGeminiPost api_key :: AEnter retry_count :: log)) /\
     (forall c, error_status resp = Some c -> In c [400; 403; 429]%Z ->
        exists km2,
          disable_current_key km1 (http_msg (Some c)) = Ok km2 /\
          keys km2 = remove_at (current_index km1) (keys km) /\
          call_gemini_api env prompt retry_count km log
          = if 0 <? get_active_count km2
            then call_gemini_api env prompt (retry_count + 1) (rotate_key km2)
                   (ASleep 1 :: AGeminiPost api_key :: AEnter retry_count :: log)
            else (Ok None, (km2, AGeminiPost api_key :: AEnter retry_count :: log)))) /\
  (forall (env : Transcript.Env) (video_id : string) (max_attempts remaining attempt : nat)
          (st : TState) (key : ApiKey),
     get_active_key (tbl st) = Some key ->
     let answer := transcript_get env (S (length (tlog st))) (Transcript.api_key key) video_id in
     let st1 := record_event (THttpGet (row_id key) answer) (record_event TQueryActive st) in
     (forall c body, answer = GetResponse c body -> In c FATAL_STATUSES ->
        let st2 := set_tbl st1 (disable_key (tbl st) (row_id key) (fatal_reason c)
                                  (utcnow env (S (S (length (tlog st)))))) in
        fetch_loop env video_id max_attempts (S remaining) attempt st
        = if attempt <? max_attempts - 1
          then fetch_loop env video_id max_attempts remaining (S attempt)
                 (record_event (TSleep 1) st2)
          else (Ok None, st2)) /\
     (forall c body, answer = GetResponse c body -> (500 <= c)%Z ->
        fetch_loop env video_id max_attempts (S remaining) attempt st = (Ok None, st1)) /\
     (answer = GetRequestException ->
        fetch_loop env video_id max_attempts (S remaining) attempt st
        = if attempt <? max_attempts - 1
          then fetch_loop env video_id max_attempts remaining (S attempt)
                 (record_event (TSleep 2) st1)
          else (Ok None, st1))).
Proof.
  split.
  - intros env prompt retry_count km km1 log api_key resp Hlt Hget Hkey Hpost.
    destruct (selected_key_means_nonempty _ Hget) as (Hkeys & Hcount & Hidx).
    assert (Hunfold : call_gemini_api env prompt retry_count km log
                      = gemini_round env prompt retry_count km (AEnter retry_count :: log)
                          (call_gemini_api env prompt (retry_count + 1))).
    { rewrite call_gemini_api_eq.
      destruct (Nat.leb_spec MAX_GEMINI_RETRIES retry_count); [lia | reflexivity]. }
    assert (Hne : (api_key =? "")%string = false) by (apply String.eqb_neq; exact Hkey).
    split.
    + intros Hstatus. split; [rewrite (proj1 (rotate_key_spec km1)); exact Hkeys|].
      rewrite Hunfold. unfold gemini_round. rewrite Hget, Hne. simpl length.
      rewrite Hpost. cbv zeta. rewrite Hstatus. simpl status_in. cbv iota.
      rewrite Hcount. reflexivity.
    + intros c Hstatus Hc.
      destruct (disable_current_key_spec km1 (http_msg (Some c))) as (km2 & Hdis & _ & Hrem & _).
      exists km2. split; [exact Hdis|]. split; [rewrite <- Hkeys; apply Hrem; exact Hidx|].
      rewrite Hunfold. unfold gemini_round. rewrite Hget, Hne. simpl length.
      rewrite Hpost. cbv zeta. rewrite Hstatus.
      assert (Hin : status_in [400; 403; 429; 503]%Z (Some c) = true
                    /\ status_in [503]%Z (Some c) = false).
      { simpl in Hc. destruct Hc as [<-|[<-|[<-|[]]]]; split; reflexivity. }
      destruct Hin as [-> ->]. rewrite Hdis. reflexivity.
  - intros env video_id max_attempts remaining attempt st key Hactive answer st1.
    assert (Hloop : fetch_loop env video_id max_attempts (S remaining) attempt st
                    = match request_transcript env video_id max_attempts attempt key
                              (record_event TQueryActive st) with
                      | (FetchReturn r, st2) => (Ok r, st2)
                      | (FetchContinue, st2) =>
                        fetch_loop env video_id max_attempts remaining (S attempt) st2
                      end).
    { cbn [fetch_loop]. simpl tbl. rewrite Hactive. reflexivity. }
    rewrite Hloop. unfold request_transcript. simpl tlog. simpl length. fold answer.
    fold st1. split; [|split].
    + intros c body Hans Hc. rewrite Hans.
      assert (Hfatal : existsb (Z.eqb c) FATAL_STATUSES = true).
      { apply existsb_exists. exists c. split; [exact Hc | apply Z.eqb_refl]. }
      rewrite Hfatal. cbv zeta. simpl tbl. simpl tlog. simpl length.
      destruct (attempt <? max_attempts - 1); reflexivity.
    + intros c body Hans Hc. rewrite Hans.
      assert (Hfatal : existsb (Z.eqb c) FATAL_STATUSES = false).
      { unfold FATAL_STATUSES. simpl.
        repeat (match goal with |- context [(c =? ?k)%Z] =>
                  destruct (Z.eqb_spec c k); [lia|] end). reflexivity. }
      rewrite Hfatal. destruct (Z.eqb_spec c 404); [lia|].
      destruct (Z.leb_spec 400 c); [|lia]. reflexivity.
    + intros Hans. rewrite Hans. unfold on_request_exception.
      destruct (attempt <? max_attempts - 1); reflexivity.
Qed.

Lemma answers_by_error_class_witness :
  keys (rotate_key Scenario.two_gemini_keys) = keys Scenario.two_gemini_keys /\
  fst (fetch_loop
         (Scenario.transcript_env (fun _ => GetResponse 503 None) Scenario.failing_run)
         "video" 3 3 0 Scenario.one_key) = Ok None.
Proof.
  destruct answers_by_error_class as [Hai Htr]. split.
  - refine (proj1 (proj1 (Hai (Scenario.gemini_env (Scenario.http_error 503)) "prompt"%string
                            0 Scenario.two_gemini_keys Scenario.two_gemini_keys []
                            "key-a"%string (Some (mkResponse 503 true)) _ eq_refl _ eq_refl)
                     eq_refl)).
    + unfold MAX_GEMINI_RETRIES. lia.
    + discriminate.
  - rewrite (proj1 (proj2 (Htr (Scenario.transcript_env (fun _ => GetResponse 503 None)
                                  Scenario.failing_run)
                               "video"%string 3 2 0 Scenario.one_key
                               (Scenario.key_row 1 "secret-1") eq_refl))
               503%Z None eq_refl ltac:(lia)).
    reflexivity.
Defined.

(* --------------------------------------------------------------------- *)
(** ** C10: retry budgets                                                 *)
(* --------------------------------------------------------------------- *)


(* --------------------------------------------------------------------- *)
(** ** C6: segment validation                                             *)
(* --------------------------------------------------------------------- *)

Lemma all_in_object ks d :
  all_in ks (JObj d) = Ok (forallb (fun k => dict_has k d) ks).
Proof.
  induction ks as [|k ks IH]; simpl; [reflexivity|].
  destruct (dict_has k d); simpl; [exact IH | reflexivity].
Qed.

Lemma getitem_present d k :
  dict_has k d = true -> exists v, getitem (JObj d) k = Ok v /\ dict_get k d = Some v.
Proof.
  unfold dict_has. simpl. destruct (dict_get k d) as [v|]; [|discriminate].
  exists v. auto.
Qed.

(** The round of the loop appends an acceptable segment. *)
Lemma validate_one_accepts seg valid :
  acceptable seg = true -> validate_one seg valid = Ok (valid ++ [seg]).
Proof.
  unfold acceptable. intros H. apply andb_true_iff in H. destruct H as [Hf Hd].
  destruct seg as [| | | | |d]; try discriminate. simpl in Hf.
  unfold validate_one. rewrite all_in_object.
  change (forallb (fun k => dict_has k d) REQUIRED_FIELDS) with
    (dict_has "start" d && (dict_has "end" d && (dict_has "title" d &&
       (dict_has "description" d && true)))) in *.
  rewrite Hf. simpl bind.
  apply andb_true_iff in Hf. destruct Hf as [Hs Hf].
  apply andb_true_iff in Hf. destruct Hf as [He Hf].
  apply andb_true_iff in Hf. destruct Hf as [Ht _].
  destruct (getitem_present d "end" He) as (e & _ & Hge).
  destruct (getitem_present d "start" Hs) as (s0 & _ & Hgs).
  destruct (getitem_present d "title" Ht) as (t & _ & Hgt).
  rewrite Hge, Hgs, Hgt. simpl bind.
  unfold duration_of in Hd. rewrite Hge, Hgs in Hd. unfold sub.
  destruct (as_number e) as [x|]; [|discriminate].
  destruct (as_number s0) as [y|]; [|discriminate].
  simpl. rewrite Hd. reflexivity.
Qed.

(** A round that does not raise appends the segment exactly when it is
    acceptable. *)
Lemma validate_one_result seg valid out :
  validate_one seg valid = Ok out ->
  out = if acceptable seg then valid ++ [seg] else valid.
Proof.
  destruct (acceptable seg) eqn:Hacc.
  - rewrite (validate_one_accepts seg valid Hacc). congruence.
  - unfold validate_one. intros H.
    destruct (all_in REQUIRED_FIELDS seg) as [[|]|] eqn:Hall; simpl in H;
      [|congruence|discriminate].
    destruct (getitem seg "end") as [e|] eqn:He; simpl in H; [|discriminate].
    destruct (getitem seg "start") as [s0|] eqn:Hs; simpl in H; [|discriminate].
    destruct (sub e s0) as [dur|] eqn:Hsub; simpl in H; [|discriminate].
    destruct (120 <=? dur)%Z eqn:Hdur; [|congruence].
    exfalso. destruct seg as [| | | | |d]; try discriminate.
    rewrite all_in_object in Hall. inversion Hall as [Hfields].
    unfold acceptable in Hacc. simpl has_all_fields in Hacc. rewrite Hfields in Hacc.
    simpl in Hacc, He, Hs.
    destruct (dict_get "end" d) as [e'|]; [|discriminate].
    destruct (dict_get "start" d) as [s'|]; [|discriminate].
    inversion He; inversion Hs; subst e' s'. unfold sub in Hsub.
    destruct (as_number e) as [x|]; [|discriminate].
    destruct (as_number s0) as [y|]; [|discriminate].
    inversion Hsub; subst dur. congruence.
Qed.

Lemma validate_loop_result segs valid out :
  validate_loop segs valid = Ok out -> out = valid ++ filter acceptable segs.
Proof.
  revert valid; induction segs as [|seg segs IH]; intros valid H; simpl in *.
  - inversion H. rewrite app_nil_r. reflexivity.
  - destruct (validate_one seg valid) as [v1|] eqn:H1; simpl in H; [|discriminate].
    apply validate_one_result in H1. apply IH in H. subst out v1.
    destruct (acceptable seg); [rewrite <- app_assoc|]; reflexivity.
Qed.

(** What [parse_gemini_response] answers once the JSON has been read. *)
Lemma parse_gemini_response_result env response valid :
  parse_gemini_response env response = Some valid ->
  valid <> [] /\
  exists segs, valid = filter acceptable segs.
Proof.
  unfold parse_gemini_response. intros H.
  destruct (response_text response) as [text|]; [|discriminate].
  destruct (json_loads env (clean_text text)) as [data|]; [|discriminate].
  destruct (str_in "segments" data) as [[|]|]; try discriminate.
  destruct (getitem data "segments") as [segments|]; simpl in H; [|discriminate].
  destruct (iterate segments) as [segs|]; simpl in H; [|discriminate].
  destruct (validate_loop segs []) as [[|seg out]|] eqn:Hloop; try discriminate.
  inversion H; subst valid. split; [discriminate|].
  exists segs. apply validate_loop_result in Hloop. exact Hloop.
Qed.



(* --------------------------------------------------------------------- *)
(** ** The orchestrator: cutting and uploading                            *)
(* --------------------------------------------------------------------- *)

Import Pipeline.

Lemma mcount_app (p : MEvent -> bool) a b :
  Pipeline.count p (a ++ b) = Pipeline.count p a + Pipeline.count p b.
Proof. unfold Pipeline.count. rewrite filter_app, length_app. reflexivity. Qed.

(** The cutting loop logs one cut per segment reached; the shorts it adds
    are those whose cut succeeded. *)
Lemma cut_loop_spec env vid video_path :
  forall segments i created log,
    exists cuts,
      snd (cut_loop env vid video_path segments i created log) = cuts ++ log /\
      forallb is_cut cuts = true /\
      forall created',
        fst (cut_loop env vid video_path segments i created log) = Ok created' ->
        exists added,
          created' = created ++ added /\
          length added = Pipeline.count is_cut_ok cuts /\
          forall sh, In sh added -> In (MCut (short_filename sh) true) cuts.
Proof.
  induction segments as [|seg rest IH]; intros i created log.
  - exists []. simpl. split; [reflexivity|]. split; [reflexivity|].
    intros created' H. inversion H; subst. exists [].
    rewrite app_nil_r. split; [reflexivity|]. split; [reflexivity|]. intros sh [].
  - cbn [cut_loop].
    destruct (bind (getitem seg "title") (sanitize_filename env)) as [t|e];
      [|exists []; simpl; split; [reflexivity|]; split; [reflexivity|]; discriminate].
    destruct (bind (getitem seg "start") (fun _ => getitem seg "end")) as [x|e];
      [|exists []; simpl; split; [reflexivity|]; split; [reflexivity|]; discriminate].
    cbv zeta.
    set (output_filename := (vid ++ "_" ++ decimal i ++ "_" ++ t ++ ".mp4")%string).
    set (output_path := (temp_dir env ++ "/shorts/" ++ output_filename)%string).
    set (ok := cut_video_clip env (length log) output_path).
    destruct (IH (S i)
                (if ok then created ++ [mkShort output_filename output_path seg]
                 else created)
                (MCut output_filename ok :: log)) as (cuts & Hlog & Hcut & Hres).
    exists (cuts ++ [MCut output_filename ok]). rewrite Hlog, <- app_assoc.
    split; [reflexivity|]. split; [rewrite forallb_app, Hcut; reflexivity|].
    intros created' H. destruct (Hres created' H) as (added & Hc & Hlen & Hin).
    destruct ok.
    + exists (mkShort output_filename output_path seg :: added).
      split; [rewrite Hc, <- app_assoc; reflexivity|].
      split; [rewrite mcount_app; unfold Pipeline.count in *; simpl; lia|].
      intros sh [<-|Hsh]; apply in_or_app; [right; left; reflexivity | left; auto].
    + exists added. split; [exact Hc|].
      split; [rewrite mcount_app; unfold Pipeline.count in *; simpl; lia|].
      intros sh Hsh. apply in_or_app. left. auto.
Qed.

Lemma video_record_filename vid short key url v :
  video_record vid short key url = Ok v -> filename v = short_filename short.
Proof.
  unfold video_record. intros H.
  repeat match type of H with
         | bind ?x _ = Ok _ => destruct x; simpl in H; [|discriminate]
         end.
  inversion H. reflexivity.
Qed.

(** The upload loop touches the clips, the counter of the run and the
    media log only; it adds one record per upload that succeeded and whose
    record could be built. *)
Lemma upload_loop_spec env vid :
  forall shorts w,
    same_outside_media w (snd (upload_loop env vid shorts w)) /\
    exists added ups,
      videos (snd (upload_loop env vid shorts w)) = videos w ++ added /\
      mlog (snd (upload_loop env vid shorts w)) = ups ++ mlog w /\
      forallb is_upload ups = true /\
      shorts_created (stats (snd (upload_loop env vid shorts w)))
      = shorts_created (stats w) + length added /\
      length added <= Pipeline.count is_upload_ok ups /\
      (forall u, fst (upload_loop env vid shorts w) = Ok u ->
                 length added = Pipeline.count is_upload_ok ups) /\
      forall v, In v added ->
                In (MUpload (filename v) true) ups /\
                exists sh, In sh shorts /\ filename v = short_filename sh.
Proof.
  induction shorts as [|short rest IH]; intros w.
  - simpl. split; [repeat split|]. exists [], []. rewrite app_nil_r.
    repeat (split; [first [reflexivity | simpl; lia]|]). intros v [].
  - cbn [upload_loop]. cbv zeta.
    set (key := ("shorts/" ++ vid ++ "/" ++ short_filename short)%string).
    set (ok := upload_succeeds env (length (mlog w)) key).
    set (w1 := set_mlog w (MUpload (short_filename short) ok :: mlog w)).
    destruct ok.
    + destruct (video_record vid short key (public_url env ++ "/" ++ key)) as [v|e] eqn:Hv.
      * set (w2 := set_stats (add_video w1 v) (incr_shorts_created (stats w1))).
        destruct (IH w2) as (Hsame & added & ups & Hvid & Hlog & Hup & Hcnt & Hle & Heq & Hin).
        split.
        { unfold same_outside_media in *. simpl in Hsame. exact Hsame. }
        exists (v :: added), (ups ++ [MUpload (short_filename short) true]).
        rewrite Hvid, Hlog, Hcnt. simpl. rewrite <- !app_assoc. simpl.
        split; [reflexivity|]. split; [reflexivity|].
        split; [rewrite forallb_app, Hup; reflexivity|].
        split; [lia|].
        split; [rewrite mcount_app; unfold Pipeline.count in *; simpl; lia|].
        split; [intros u Hu; rewrite mcount_app, <- (Heq u Hu);
                unfold Pipeline.count; simpl; lia|].
        intros v' [<-|Hv'].
        -- rewrite (video_record_filename _ _ _ _ Hv).
           split; [apply in_or_app; right; left; reflexivity|].
           exists short. split; [left; reflexivity | reflexivity].
        -- destruct (Hin v' Hv') as (H1 & sh & H2 & H3).
           split; [apply in_or_app; left; exact H1|].
           exists sh. split; [right; exact H2 | exact H3].
      * split; [repeat split|]. exists [], [MUpload (short_filename short) true].
        rewrite app_nil_r. simpl.
        split; [reflexivity|]. split; [reflexivity|]. split; [reflexivity|].
        split; [lia|]. split; [unfold Pipeline.count; simpl; lia|].
        split; [discriminate|]. intros v [].
    + destruct (IH w1) as (Hsame & added & ups & Hvid & Hlog & Hup & Hcnt & Hle & Heq & Hin).
      split.
      { unfold same_outside_media in *. simpl in Hsame. exact Hsame. }
      exists added, (ups ++ [MUpload (short_filename short) false]).
      rewrite Hvid, Hlog, Hcnt. simpl. rewrite <- !app_assoc. simpl.
      split; [reflexivity|]. split; [reflexivity|].
      split; [rewrite forallb_app, Hup; reflexivity|].
      split; [reflexivity|].
      split; [rewrite mcount_app; unfold Pipeline.count in *; simpl; lia|].
      split; [intros u Hu; rewrite mcount_app, <- (Heq u Hu);
              unfold Pipeline.count; simpl; lia|].
      intros v' Hv'. destruct (Hin v' Hv') as (H1 & sh & H2 & H3).
      split; [apply in_or_app; left; exact H1|].
      exists sh. split; [right; exact H2 | exact H3].
Qed.

(* --------------------------------------------------------------------- *)
(** ** C1: the order of the phase statuses                                *)
(* --------------------------------------------------------------------- *)

Lemma last_cons_default (l : list PlaylistVideo) x a b :
  last (x :: l) a = last (x :: l) b.
Proof.
  revert x; induction l as [|y l IH]; intros x; [reflexivity|].
  change (last (y :: l) a = last (y :: l) b). apply IH.
Qed.

Lemma all_forward_app step a l1 l2 :
  all_forward step a (l1 ++ l2)
  = all_forward step a l1 && all_forward step (last l1 a) l2.
Proof.
  revert a; induction l1 as [|x l1 IH]; intros a; simpl app; [reflexivity|].
  cbn [all_forward]. rewrite IH, andb_assoc. destruct l1 as [|y l1]; [reflexivity|].
  rewrite (last_cons_default l1 y x a). reflexivity.
Qed.

Lemma last_rev_hd (l : list PlaylistVideo) a : last (rev l) a = hd a l.
Proof.
  destruct l as [|x l]; simpl; [reflexivity|]. apply last_last.
Qed.

Lemma advances_refl w : advances w w.
Proof. exists []. repeat split. Qed.

Lemma advances_trans w1 w2 w3 : advances w1 w2 -> advances w2 w3 -> advances w1 w3.
Proof.
  intros (n1 & H1 & S1 & I1) (n2 & H2 & S2 & I2).
  exists (n2 ++ n1). split; [rewrite H2, H1, app_assoc; reflexivity|].
  unfold steps_ok in *. apply andb_true_iff in S1, S2.
  destruct S1 as [F1 D1], S2 as [F2 D2]. split.
  - rewrite rev_app_distr, all_forward_app, forallb_app, F1, D1, D2, last_rev_hd, <- I1, F2.
    reflexivity.
  - rewrite I2, I1. destruct n2; reflexivity.
Qed.

(** One group of assignments followed by [commit]. *)
Lemma advances_commit w f :
  item_step (item w) (f (item w)) = true ->
  dependencies_met (f (item w)) = true ->
  advances w (commit (update_item w f)).
Proof.
  intros Hs Hd. exists [f (item w)]. simpl. split; [reflexivity|].
  unfold steps_ok. simpl. rewrite Hs, Hd. split; reflexivity.
Qed.

(** What [advances] looks at. *)
Lemma advances_same w1 w1' w2 :
  item w1' = item w1 -> history w1' = history w1 ->
  advances w1' w2 -> advances w1 w2.
Proof.
  intros Hi Hh (n & H & S & I). exists n. rewrite <- Hi, <- Hh. auto.
Qed.

Lemma advances_after w1 w2 w2' :
  item w2' = item w2 -> history w2' = history w2 ->
  advances w1 w2 -> advances w1 w2'.
Proof.
  intros Hi Hh (n & H & S & I). exists n. rewrite Hi, Hh. auto.
Qed.

Lemma cut_and_upload_advances env video_path segments w :
  transcript_status (item w) = completed ->
  download_status (item w) = completed ->
  analysis_status (item w) = completed ->
  conversion_status (item w) = pending ->
  advances w (snd (cut_and_upload env video_path segments w)).
Proof.
  intros Ht Hd Ha Hc. unfold cut_and_upload.
  destruct (cut_loop env (video_id (item w)) video_path segments 1 [] (mlog w))
    as [[[|sh created]|e] log].
  - eapply advances_same with (w1' := fail_with (set_mlog w log) "No shorts created");
      [reflexivity | reflexivity |].
    apply advances_commit; unfold item_step, dependencies_met; simpl;
      rewrite ?Ht, ?Hd, ?Ha, ?Hc; reflexivity.
  - set (w2 := commit (update_item (set_mlog w log) (fun i =>
                 set_shorts_count (set_conversion_status i completed)
                   (length (sh :: created))))).
    assert (H2 : advances w w2).
    { eapply advances_same with (w1' := set_mlog w log); [reflexivity | reflexivity |].
      apply advances_commit; unfold item_step, dependencies_met; simpl;
        rewrite ?Ht, ?Hd, ?Ha, ?Hc; reflexivity. }
    destruct (upload_loop_spec env (video_id (item w)) (sh :: created) w2)
      as ((Hi & Hh & _) & _).
    destruct (upload_loop env (video_id (item w)) (sh :: created) w2) as [[u|e] w3];
      simpl in Hi, Hh; simpl snd.
    + eapply advances_trans; [exact H2|].
      eapply advances_after with (w2 := commit w3); [reflexivity | reflexivity |].
      eapply advances_same with (w1' := w3); [auto | auto |].
      change (commit w3) with (commit (update_item w3 (fun i => i))).
      apply advances_commit.
      * rewrite Hi. unfold w2, item_step, forward, download_forward. simpl.
        rewrite ?Ht, ?Hd, ?Ha. reflexivity.
      * rewrite Hi. unfold w2, dependencies_met. simpl. rewrite ?Ht, ?Hd, ?Ha. reflexivity.
    + eapply advances_after with (w2 := w2); [auto | auto | exact H2].
  - eapply advances_after with (w2 := w); [reflexivity | reflexivity | apply advances_refl].
Qed.

Ltac by_commit Ht Hd Ha Hc :=
  apply advances_commit; unfold item_step, dependencies_met; simpl;
  rewrite ?Ht, ?Hd, ?Ha, ?Hc; reflexivity.

Lemma after_download_advances env transcript video_path w :
  transcript_status (item w) = completed ->
  download_status (item w) = completed ->
  analysis_status (item w) = pending ->
  conversion_status (item w) = pending ->
  advances w (snd (after_download env transcript video_path w)).
Proof.
  intros Ht Hd Ha Hc. unfold after_download.
  destruct (check_video_availability (ai env) (video_id (item w)) (key_manager w) (alog w))
    as [[is_available|e] st].
  - destruct (truthy is_available); cbn [negb].
    + destruct (analyze_transcript (ai env) (analysis_prompt env transcript)
                  (key_manager (set_ai w st)) (alog (set_ai w st)))
        as [[[[|seg segs]|]|e] st2].
      * eapply advances_same
          with (w1' := fail_with (set_ai (set_ai w st) st2) "AI analysis failed");
          [reflexivity | reflexivity |]. by_commit Ht Hd Ha Hc.
      * set (w3 := commit (update_item (set_ai (set_ai w st) st2)
                             (fun i => set_analysis_status i completed))).
        eapply advances_trans with (w2 := w3).
        -- eapply advances_same with (w1' := set_ai (set_ai w st) st2);
             [reflexivity | reflexivity |]. by_commit Ht Hd Ha Hc.
        -- apply cut_and_upload_advances; unfold w3; simpl; assumption || reflexivity.
      * eapply advances_same
          with (w1' := fail_with (set_ai (set_ai w st) st2) "AI analysis failed");
          [reflexivity | reflexivity |]. by_commit Ht Hd Ha Hc.
      * eapply advances_after with (w2 := w);
          [reflexivity | reflexivity | apply advances_refl].
    + set (w2 := set_stats (set_ai w st)
                   (set_skipped (set_error (stats (set_ai w st))
                                   (Message "Video unavailable")))).
      eapply advances_after
        with (w2 := commit (update_item w2 (fun i =>
                      set_download_error
                        (set_conversion_status
                           (set_analysis_status (set_download_status i skipped) skipped)
                           skipped)
                        "Video unavailable or inaccessible")));
        [reflexivity | reflexivity |].
      eapply advances_same with (w1' := w2); [reflexivity | reflexivity |].
      by_commit Ht Hd Ha Hc.
  - eapply advances_after with (w2 := w);
      [reflexivity | reflexivity | apply advances_refl].
Qed.

Lemma skip_no_transcript_advances w msg err why :
  transcript_status (item w) = fetching ->
  download_status (item w) = pending ->
  analysis_status (item w) = pending ->
  conversion_status (item w) = pending ->
  advances w (skip_no_transcript w msg err why) /\
  all_skipped (item (skip_no_transcript w msg err why)).
Proof.
  intros Ht Hd Ha Hc. unfold skip_no_transcript, advances, all_skipped.
  destruct err as [e|]; simpl.
  - split; [|repeat split].
    exists [set_download_error (mark_all_skipped (item w)) e]. split; [reflexivity|].
    split; [|reflexivity]. unfold steps_ok, item_step, dependencies_met. simpl.
    rewrite Ht, Hd, Ha, Hc. reflexivity.
  - split; [|repeat split].
    exists [mark_all_skipped (item w)]. split; [reflexivity|].
    split; [|reflexivity]. unfold steps_ok, item_step, dependencies_met. simpl.
    rewrite Ht, Hd, Ha, Hc. reflexivity.
Qed.

Lemma process_steps_advances env w :
  all_pending (item w) -> advances w (snd (process_steps env w)).
Proof.
  intros (Ht & Hd & Ha & Hc). unfold process_steps.
  set (w1 := commit (update_item w (fun i => set_transcript_status i fetching))).
  assert (H1 : advances w w1) by (unfold w1; by_commit Ht Hd Ha Hc).
  assert (Ht1 : transcript_status (item w1) = fetching) by reflexivity.
  assert (Hd1 : download_status (item w1) = pending) by exact Hd.
  assert (Ha1 : analysis_status (item w1) = pending) by exact Ha.
  assert (Hc1 : conversion_status (item w1) = pending) by exact Hc.
  destruct (fetch_transcript_with_retry (transcripts env) (video_id (item w1)) 3 (tstate w1))
    as [r ts].
  set (w2 := set_tstate w1 ts).
  assert (H2 : advances w w2).
  { eapply advances_after with (w2 := w1); [reflexivity | reflexivity | exact H1]. }
  assert (Hskip : forall msg err why, advances w (skip_no_transcript w2 msg err why)).
  { intros msg err why. eapply advances_trans; [exact H2|].
    apply skip_no_transcript_advances; assumption. }
  destruct r as [[[|t transcript]|]|e].
  - apply Hskip.
  - set (w3 := commit (update_item w2 (fun i => set_transcript_status i completed))).
    set (w4 := commit (update_item w3 (fun i => set_download_status i downloading))).
    assert (H3 : advances w2 w3) by (unfold w3; by_commit Ht Hd Ha Hc).
    assert (H4 : advances w3 w4).
    { unfold w4. apply advances_commit; unfold item_step, dependencies_met; simpl;
        rewrite ?Hd, ?Ha, ?Hc; reflexivity. }
    assert (H04 : advances w w4).
    { eapply advances_trans; [exact H2|]. eapply advances_trans; eassumption. }
    cbv zeta.
    set (w5 := set_mlog w4 (MDownload (video_url (item w4))
                              (str_truthy (download_video env (length (mlog w4))
                                             (video_url (item w4))))
                            :: mlog w4)).
    assert (Hfail : advances w
              (commit (update_item (fail_with w5 "Download failed") (fun i =>
                         set_download_error (set_download_status i failed)
                           "Download failed")))).
    { eapply advances_trans; [exact H04|].
      eapply advances_same with (w1' := fail_with w5 "Download failed");
        [reflexivity | reflexivity |].
      apply advances_commit; unfold item_step, dependencies_met; simpl;
        rewrite ?Hd, ?Ha, ?Hc; reflexivity. }
    destruct (download_video env (length (mlog w4)) (video_url (item w4)))
      as [video_path|]; [|exact Hfail].
    destruct (video_path =? "")%string; [exact Hfail|].
    set (w6 := commit (update_item w5 (fun i =>
                 set_local_file (set_download_status i completed) video_path
                   (getsize env video_path)))).
    eapply advances_trans with (w2 := w6).
    + eapply advances_trans; [exact H04|].
      eapply advances_same with (w1' := w5); [reflexivity | reflexivity |].
      apply advances_commit; unfold item_step, dependencies_met; simpl;
        rewrite ?Hd, ?Ha, ?Hc; reflexivity.
    + apply after_download_advances; unfold w6; simpl; assumption || reflexivity.
  - apply Hskip.
  - destruct e as [| | | | | |resp]; try exact H2.
    destruct resp as [rs|]; [|exact H2].
    destruct (response_truth rs && (status_code rs =? 404)%Z); [apply Hskip | exact H2].
Qed.

Lemma forallb_rev_eq (p : PlaylistVideo -> bool) l : forallb p (rev l) = forallb p l.
Proof.
  induction l as [|x l IH]; simpl; [reflexivity|].
  rewrite forallb_app, IH. simpl. rewrite andb_true_r. apply andb_comm.
Qed.

Lemma process_single_video_advances env w :
  all_pending (item w) -> advances w (snd (process_single_video env w)).
Proof.
  intros Hp. unfold process_single_video.
  pose proof (process_steps_advances env (set_stats w initial_stats) Hp) as H.
  destruct (process_steps env (set_stats w initial_stats)) as [[u|e] w']; simpl in *.
  - eapply advances_same with (w1' := set_stats w initial_stats);
      [reflexivity | reflexivity | exact H].
  - eapply advances_same with (w1' := set_stats w initial_stats);
      [reflexivity | reflexivity |].
    eapply advances_after with (w2 := w'); [reflexivity | reflexivity | exact H].
Qed.

(** C1 as worded fails when the availability check says no after the
    download was persisted as completed: the next commit shows the download
    skipped. *)
Example completed_download_is_marked_skipped :
  only_forward Scenario.fresh_item
    (persisted (Scenario.pipeline_env Scenario.transcript_answer Scenario.unavailable
                  true true)
       Scenario.fresh_world)
  = false.
Proof. vm_compute. reflexivity. Qed.

(** C1, as the code has it. For an item whose four phases start pending,
    every commit of a run moves each phase status forward or leaves it as
    it is (pending, then fetching or downloading, then completed, failed or
    skipped), with one more step: a download persisted as completed is
    marked skipped when the availability check is negative. Transcript,
    analysis and conversion never leave completed, and in every persisted
    state no phase is completed while the phase it depends on is pending or
    failed. The item ends as last persisted. *)
Theorem phases_move_forward :
  forall (env : Pipeline.Env) (w : World),
    all_pending (item w) ->
    history w = [] ->
    all_forward item_step (item w) (persisted env w) = true /\
    forallb dependencies_met (persisted env w) = true /\
    item (snd (process_single_video env w))
    = last (persisted env w) (item w).
Proof.
  intros env w Hp Hh.
  destruct (@process_single_video_advances env w Hp) as (new & Hhist & Hsteps & Hitem).
  unfold persisted. rewrite Hhist, Hh, app_nil_r.
  unfold steps_ok in Hsteps. apply andb_true_iff in Hsteps. destruct Hsteps as [Hf Hd].
  split; [exact Hf|]. split; [rewrite forallb_rev_eq; exact Hd|].
  rewrite last_rev_hd. exact Hitem.
Qed.

Lemma phases_move_forward_witness :
  all_pending (item Scenario.fresh_world) /\
  all_forward item_step (item Scenario.fresh_world)
    (persisted (Scenario.pipeline_env Scenario.transcript_answer Scenario.unavailable
                  true true)
       Scenario.fresh_world) = true.
Proof.
  assert (Hp : all_pending (item Scenario.fresh_world)) by (repeat split).
  split; [exact Hp|].
  exact (proj1 (phases_move_forward
                  (Scenario.pipeline_env Scenario.transcript_answer Scenario.unavailable
                     true true)
                  Scenario.fresh_world Hp eq_refl)).
Defined.

(* --------------------------------------------------------------------- *)
(** ** C2: clips, records and the conversion status                       *)
(* --------------------------------------------------------------------- *)








Lemma cut_and_upload_tstate env video_path segments w :
  tstate (snd (cut_and_upload env video_path segments w)) = tstate w.
Proof.
  unfold cut_and_upload.
  destruct (cut_loop env (video_id (item w)) video_path segments 1 [] (mlog w))
    as [[[|sh created]|e] log]; try reflexivity.
  set (w2 := commit (update_item (set_mlog w log) (fun i =>
               set_shorts_count (set_conversion_status i completed)
                 (length (sh :: created))))).
  destruct (upload_loop_spec env (video_id (item w)) (sh :: created) w2)
    as ((_ & _ & _ & _ & _ & Hts & _) & _).
  destruct (upload_loop env (video_id (item w)) (sh :: created) w2) as [[u|e] w3];
    simpl in *; exact Hts.
Qed.

Lemma after_download_tstate env transcript video_path w :
  tstate (snd (after_download env transcript video_path w)) = tstate w.
Proof.
  unfold after_download.
  destruct (check_video_availability (ai env) (video_id (item w)) (key_manager w) (alog w))
    as [[is_available|e] st]; [|reflexivity].
  destruct (truthy is_available); cbn [negb]; [|reflexivity].
  destruct (analyze_transcript (ai env) (analysis_prompt env transcript)
              (key_manager (set_ai w st)) (alog (set_ai w st)))
    as [[[[|seg segs]|]|e] st2]; try reflexivity.
  rewrite cut_and_upload_tstate. reflexivity.
Qed.





(* --------------------------------------------------------------------- *)
(** ** C7: items without a transcript                                     *)
(* --------------------------------------------------------------------- *)

(** After the fetch nothing touches the transcript side. *)
Lemma process_steps_tstate env w :
  tstate (snd (process_steps env w))
  = snd (fetch_transcript_with_retry (transcripts env) (video_id (item w)) 3 (tstate w)).
Proof.
  unfold process_steps.
  set (w1 := commit (update_item w (fun i => set_transcript_status i fetching))).
  change (video_id (item w1)) with (video_id (item w)).
  change (tstate w1) with (tstate w).
  destruct (fetch_transcript_with_retry (transcripts env) (video_id (item w)) 3 (tstate w))
    as [r ts].
  destruct r as [[[|t transcript]|]|e]; simpl snd.
  - reflexivity.
  - cbv zeta.
    destruct (download_video _ _ _) as [video_path|]; [|reflexivity].
    destruct (video_path =? "")%string; [reflexivity|].
    rewrite after_download_tstate. reflexivity.
  - reflexivity.
  - destruct e as [| | | | | |resp]; try reflexivity.
    destruct resp as [rs|]; [|reflexivity].
    destruct (response_truth rs && (status_code rs =? 404)%Z); reflexivity.
Qed.

(** The exit taken when the fetch answers no transcript. *)
Lemma process_steps_without_transcript env w :
  fst (fetch_transcript_with_retry (transcripts env) (video_id (item w)) 3 (tstate w))
  = Ok None ->
  fst (process_steps env w) = Ok tt /\
  all_skipped (item (snd (process_steps env w))) /\
  In (mkNoTranscript (video_id (item w)) "Transcript not available from API")
     (no_transcript_videos (snd (process_steps env w))) /\
  mlog (snd (process_steps env w)) = mlog w /\
  videos (snd (process_steps env w)) = videos w /\
  stats_skipped (stats (snd (process_steps env w))) = true.
Proof.
  unfold process_steps.
  set (w1 := commit (update_item w (fun i => set_transcript_status i fetching))).
  change (video_id (item w1)) with (video_id (item w)).
  change (tstate w1) with (tstate w).
  destruct (fetch_transcript_with_retry (transcripts env) (video_id (item w)) 3 (tstate w))
    as [r ts].
  simpl fst. intros ->. simpl.
  split; [reflexivity|]. split; [repeat split|]. split; [left; reflexivity|].
  repeat split.
Qed.

(** C7. When the transcript call of a run is answered HTTP 404, or
    successfully with a transcript that has no entry, the item ends with
    its four phase statuses skipped, a no-transcript record exists for it,
    and nothing is downloaded: the media log of the run is empty (and so no
    clip record is added). *)
Theorem missing_transcript_skips_the_item :
  forall (env : Pipeline.Env) (w : World) (added : list TEvent)
         (k : nat) (answer : get_outcome),
    let w' := snd (process_single_video env w) in
    tlog (tstate w') = added ++ tlog (tstate w) ->
    In (THttpGet k answer) added ->
    is_not_found answer || is_empty_transcript (transcripts env) answer = true ->
    all_skipped (item w') /\
    In (mkNoTranscript (video_id (item w)) "Transcript not available from API")
       (no_transcript_videos w') /\
    mlog w' = mlog w /\
    Pipeline.count is_download (mlog w') = Pipeline.count is_download (mlog w) /\
    videos w' = videos w /\
    stats_skipped (fst (process_single_video env w)) = true.
Proof.
  intros env w added k answer w' Hlog Hin Hterm.
  set (w0 := set_stats w initial_stats).
  assert (Hts : tstate w'
                = snd (fetch_transcript_with_retry (transcripts env) (video_id (item w0)) 3
                         (tstate w0))).
  { unfold w', process_single_video. fold w0. rewrite <- process_steps_tstate.
    destruct (process_steps env w0) as [[u|e] w1]; reflexivity. }
  unfold fetch_transcript_with_retry in Hts.
  destruct (fetch_loop_spec (transcripts env) (video_id (item w0)) 3 3 0 (tstate w0))
    as (r & added0 & Hr & Hlog0 & _ & _ & Hnf & _).
  rewrite <- Hts, Hlog in Hlog0. apply app_inv_tail in Hlog0. subst added0.
  rewrite (Hnf k answer Hin Hterm) in Hr.
  destruct (@process_steps_without_transcript env w0 Hr)
    as (Hok & Hskipped & Hrecord & Hmlog & Hvideos & Hstats).
  unfold w', process_single_video. fold w0.
  destruct (process_steps env w0) as [[u|e] w1]; simpl in *; [|discriminate].
  split; [exact Hskipped|]. split; [exact Hrecord|]. split; [exact Hmlog|].
  split; [rewrite Hmlog; reflexivity|]. split; [exact Hvideos | exact Hstats].
Qed.

Lemma missing_transcript_skips_the_item_witness :
  all_skipped
    (item (snd (process_single_video
                  (Scenario.pipeline_env (GetResponse 404 None) Scenario.one_segment
                     true true)
                  Scenario.fresh_world))).
Proof.
  refine (proj1 (missing_transcript_skips_the_item
                   (Scenario.pipeline_env (GetResponse 404 None) Scenario.one_segment
                      true true)
                   Scenario.fresh_world
                   [THttpGet 1 (GetResponse 404 None); TQueryActive]
                   1 (GetResponse 404 None) eq_refl _ eq_refl)).
  left. reflexivity.
Defined.

(* ===================================================================== *)
(** * Further properties of the code                                      *)
(* ===================================================================== *)

(* --------------------------------------------------------------------- *)
(** ** GeminiKeyManager                                                   *)
(* --------------------------------------------------------------------- *)

Import PoolUse.

Lemma load_keys_origin (inputs : list key_input) (e : KeyEntry) :
  In e (load_keys inputs) ->
  (exists k, In (KStr k) inputs /\ e = mkEntry (Some k) (Some "active"%string)) \/
  In (KDict e) inputs.
Proof.
  induction inputs as [|[k|d|] rest IH]; simpl; [tauto| | |].
  - intros [<-|H].
    + left. exists k. auto.
    + destruct (IH H) as [(k' & Hin & ->)|Hin]; [left; exists k'; auto | auto].
  - destruct (is_active d).
    + intros [<-|H]; [auto|].
      destruct (IH H) as [(k' & Hin & ->)|Hin]; [left; exists k'; auto | auto].
    + intros H.
      destruct (IH H) as [(k' & Hin & ->)|Hin]; [left; exists k'; auto | auto].
  - intros H.
    destruct (IH H) as [(k' & Hin & ->)|Hin]; [left; exists k'; auto | auto].
Qed.

Lemma load_keys_length (inputs : list key_input) :
  length (load_keys inputs) <= length inputs.
Proof.
  induction inputs as [|[k|d|] rest IH]; simpl; try lia.
  destruct (is_active d); simpl; lia.
Qed.

Lemma load_keys_str (inputs : list key_input) (k : string) :
  In (KStr k) inputs ->
  In (mkEntry (Some k) (Some "active"%string)) (load_keys inputs).
Proof.
  induction inputs as [|[k'|d|] rest IH]; simpl; [tauto| | |].
  - intros [E|H]; [inversion E; auto | auto].
  - intros [E|H]; [discriminate|]. destruct (is_active d); simpl; auto.
  - intros [E|H]; [discriminate | auto].
Qed.

Lemma load_keys_dict (inputs : list key_input) (d : KeyEntry) :
  In (KDict d) inputs -> is_active d = true -> In d (load_keys inputs).
Proof.
  intros Hin Hd.
  induction inputs as [|[k'|d'|] rest IH]; simpl in *; [tauto| | |].
  - destruct Hin as [E|H]; [discriminate | auto].
  - destruct Hin as [E|H].
    + inversion E; subst d'. rewrite Hd. left. reflexivity.
    + destruct (is_active d'); simpl; auto.
  - destruct Hin as [E|H]; [discriminate | auto].
Qed.

(** X1. The constructor of the AI-credential pool admits every plain
    string as an active entry and a dictionary exactly when its status is
    'active'; nothing else enters the working set, every entry of the new
    pool is active and comes from the input, and the start index lies
    within the working set. *)
Theorem constructor_admits_active_keys_only :
  forall (inputs : list key_input) (rnd : nat),
    (forall k, In (KStr k) inputs ->
       In (mkEntry (Some k) (Some "active"%string)) (keys (init inputs rnd))) /\
    (forall d, In (KDict d) inputs ->
       (In d (keys (init inputs rnd)) <-> is_active d = true)) /\
    (forall e, In e (keys (init inputs rnd)) ->
       is_active e = true /\
       ((exists k, In (KStr k) inputs /\ e = mkEntry (Some k) (Some "active"%string)) \/
        In (KDict e) inputs)) /\
    get_active_count (init inputs rnd) <= length inputs /\
    in_bounds (init inputs rnd).
Proof.
  intros inputs rnd. unfold get_active_count.
  change (keys (init inputs rnd)) with (load_keys inputs).
  pose proof (load_keys_active inputs) as Hact. rewrite Forall_forall in Hact.
  split; [|split; [|split; [|split]]].
  - intros k. apply load_keys_str.
  - intros d Hin. split; [apply Hact | apply load_keys_dict; exact Hin].
  - intros e He. split; [apply Hact; exact He | apply load_keys_origin; exact He].
  - apply load_keys_length.
  - apply init_in_bounds.
Qed.

Lemma constructor_admits_active_keys_only_witness :
  In (mkEntry (Some "k1"%string) (Some "active"%string))
     (keys (init [KStr "k1"; KDict (mkEntry (Some "k2"%string) (Some "disabled"%string))] 7)) /\
  ~ In (mkEntry (Some "k2"%string) (Some "disabled"%string))
       (keys (init [KStr "k1"; KDict (mkEntry (Some "k2"%string) (Some "disabled"%string))] 7)).
Proof.
  destruct (constructor_admits_active_keys_only
              [KStr "k1"; KDict (mkEntry (Some "k2"%string) (Some "disabled"%string))] 7)
    as (Hs & Hd & _).
  split.
  - apply Hs. left. reflexivity.
  - intros H. apply Hd in H; [discriminate | right; left; reflexivity].
Defined.

Lemma rotate_key_index (m : GeminiKeyManager) :
  keys m <> [] ->
  current_index (rotate_key m) = (current_index m + 1) mod length (keys m).
Proof.
  unfold rotate_key. destruct (keys m) as [|e ks] eqn:Hk; [congruence|].
  intros _. reflexivity.
Qed.

(** X2. Rotation is round-robin: on a non-empty working set whose index is
    in range, [k] rotations leave the entries alone and move the index [k]
    places forward modulo the number of keys, so as many rotations as
    there are keys give every key one turn and bring the pool back to
    where it started. *)
Theorem rotation_is_round_robin :
  forall (m : GeminiKeyManager) (k : nat),
    keys m <> [] ->
    in_bounds m ->
    keys (Nat.iter k rotate_key m) = keys m /\
    current_index (Nat.iter k rotate_key m)
    = (current_index m + k) mod length (keys m) /\
    Nat.iter (length (keys m)) rotate_key m = m.
Proof.
  intros m k Hne Hb. specialize (Hb Hne).
  assert (Hiter : forall j,
             keys (Nat.iter j rotate_key m) = keys m /\
             current_index (Nat.iter j rotate_key m)
             = (current_index m + j) mod length (keys m)).
  { induction j as [|j [IHk IHi]].
    - simpl. split; [reflexivity|]. rewrite Nat.add_0_r.
      symmetry. apply Nat.mod_small. exact Hb.
    - change (Nat.iter (S j) rotate_key m) with (rotate_key (Nat.iter j rotate_key m)).
      split.
      + rewrite (proj1 (rotate_key_spec _)). exact IHk.
      + rewrite rotate_key_index by (rewrite IHk; exact Hne).
        rewrite IHk, IHi. rewrite Nat.Div0.add_mod_idemp_l.
        f_equal. lia. }
  split; [apply Hiter|]. split; [apply Hiter|].
  destruct (Hiter (length (keys m))) as [Hk Hi].
  destruct (Nat.iter (length (keys m)) rotate_key m) as [ks i].
  destruct m as [ks0 i0]. simpl in *. subst ks. f_equal.
  rewrite Hi. replace (i0 + length ks0) with (i0 + 1 * length ks0) by lia.
  rewrite Nat.Div0.mod_add. apply Nat.mod_small. exact Hb.
Qed.

Lemma rotation_is_round_robin_witness :
  current_index
    (Nat.iter 5 rotate_key (init [KStr "k1"; KStr "k2"; KStr "k3"] 1)) = 0.
Proof.
  refine (proj1 (proj2 (@rotation_is_round_robin
                          (init [KStr "k1"; KStr "k2"; KStr "k3"] 1) 5 _ _))).
  - discriminate.
  - apply init_in_bounds.
Defined.

Lemma apply_op_length (o : pool_op) (m m' : GeminiKeyManager) :
  in_bounds m ->
  apply_op o m = Ok m' ->
  in_bounds m' /\
  length (keys m') = length (keys m) - (if is_disable o then 1 else 0).
Proof.
  intros Hb H. destruct o as [| |reason]; simpl in *.
  - destruct (get_current_key_spec m) as (k & m1 & Hget & Hkeys & Hb1 & _).
    rewrite Hget in H. simpl in H. inversion H; subst m'.
    split; [exact Hb1 | rewrite Hkeys; lia].
  - inversion H; subst m'. destruct (rotate_key_spec m) as [Hkeys Hb1].
    split; [exact Hb1 | rewrite Hkeys; lia].
  - destruct (disable_current_key_spec m reason) as (m1 & Hd & Hb1 & Hlt & Hge).
    rewrite Hd in H. inversion H; subst m'. split; [auto|].
    destruct (Nat.lt_ge_cases (current_index m) (length (keys m))) as [Hi|Hi].
    + rewrite (Hlt Hi). rewrite remove_at_length by exact Hi. reflexivity.
    + rewrite (Hge Hi).
      assert (Hnil : keys m = []).
      { destruct (keys m) as [|e ks] eqn:Hk; [reflexivity|].
        unfold in_bounds in Hb. rewrite Hk in Hb.
        specialize (Hb ltac:(discriminate)). lia. }
      rewrite Hnil. reflexivity.
Qed.

(** X3. On a pool whose index is in range (as the constructor leaves it),
    every sequence of operations ends with as many active keys as it
    started with minus the number of [disable_current_key] calls (never
    below zero): each such call retires exactly one key while any is left,
    and neither reading the current key nor rotating changes the count. *)
Theorem each_disable_retires_one_key :
  forall (ops : list pool_op) (m m' : GeminiKeyManager),
    in_bounds m ->
    apply_ops ops m = Ok m' ->
    get_active_count m' = get_active_count m - count_disable ops.
Proof.
  unfold get_active_count, count_disable.
  induction ops as [|o ops IH]; intros m m' Hb H; simpl in *.
  - inversion H; subst. lia.
  - destruct (apply_op o m) as [m1|e] eqn:Ho; simpl in H; [|discriminate].
    destruct (@apply_op_length o m m1 Hb Ho) as [Hb1 Hlen].
    rewrite (IH m1 m' Hb1 H), Hlen.
    destruct (is_disable o); simpl; lia.
Qed.

Lemma each_disable_retires_one_key_witness :
  exists m',
    apply_ops [OpGet; OpDisable "HTTP 403"; OpRotate; OpDisable "HTTP 429"; OpGet]
      (init [KStr "k1"; KStr "k2"; KStr "k3"] 1) = Ok m' /\
    get_active_count m' = 1.
Proof.
  eexists. split; [reflexivity|].
  exact (@each_disable_retires_one_key
           [OpGet; OpDisable "HTTP 403"; OpRotate; OpDisable "HTTP 429"; OpGet]
           (init [KStr "k1"; KStr "k2"; KStr "k3"] 1) _
           (init_in_bounds _ _) eq_refl).
Defined.

Lemma get_current_key_in_range (m : GeminiKeyManager) :
  current_index m < length (keys m) ->
  exists e, nth_error (keys m) (current_index m) = Some e /\
            get_current_key m = Ok (entry_key e, m).
Proof.
  intros Hi. destruct (nth_error_in_range (keys m) Hi) as [e He].
  exists e. split; [exact He|]. unfold get_current_key.
  destruct (keys m) as [|e0 ks] eqn:Hk; [simpl in Hi; lia|]. rewrite <- Hk in *.
  destruct (Nat.leb_spec (length (keys m)) (current_index m)); [lia|].
  unfold list_index. rewrite He. reflexivity.
Qed.

Lemma nth_error_remove_at A (l : list A) i j :
  nth_error (remove_at i l) j
  = if j <? i then nth_error l j else nth_error l (S j).
Proof.
  revert i j; induction l as [|a l IH]; intros [|i] [|j]; simpl;
    try reflexivity; try (destruct (_ <? _); reflexivity).
  rewrite IH. change (S j <? S i) with (j <? i). reflexivity.
Qed.

(** X4. After a key is disabled the caller rotates, as [call_gemini_api]
    does on a 400/403/429 answer. With three keys or more, the key used
    next is then not the one that followed the disabled key but the one
    two places after it: removing the entry already moved the index onto
    its successor, and the rotation steps past it. *)
Theorem disable_then_rotate_skips_a_key :
  forall (m m1 : GeminiKeyManager) (reason : string),
    3 <= length (keys m) ->
    current_index m < length (keys m) ->
    disable_current_key m reason = Ok m1 ->
    exists e,
      nth_error (keys m) ((current_index m + 2) mod length (keys m)) = Some e /\
      get_current_key (rotate_key m1) = Ok (entry_key e, rotate_key m1).
Proof.
  intros m m1 reason Hn Hi Hd.
  destruct (disable_current_key_spec m reason) as (m1' & Hd' & _ & Hlt & _).
  rewrite Hd in Hd'. inversion Hd'; subst m1'. clear Hd'.
  specialize (Hlt Hi).
  assert (Hlen : length (keys m1) = length (keys m) - 1).
  { rewrite Hlt. apply remove_at_length. exact Hi. }
  assert (Hidx : current_index m1
                 = if length (keys m) - 1 <=? current_index m then 0 else current_index m).
  { revert Hd. unfold disable_current_key.
    destruct (keys m) as [|e0 ks] eqn:Hk; [simpl in Hn; lia|]. rewrite <- Hk in *.
    destruct (Nat.ltb_spec (current_index m) (length (keys m))); [|lia].
    destruct (nth_error_in_range (keys m) Hi) as [e He].
    unfold list_index. rewrite He. simpl. unfold list_pop.
    rewrite replace_at_length.
    destruct (Nat.ltb_spec (current_index m) (length (keys m))); [|lia].
    simpl. intros E. inversion E; subst m1. simpl.
    rewrite remove_replace_at, remove_at_length by exact Hi. reflexivity. }
  assert (Hne : keys m1 <> []).
  { intros E. rewrite E in Hlen. simpl in Hlen. lia. }
  pose proof (@rotate_key_index m1 Hne) as Hrot.
  destruct (rotate_key_spec m1) as [Hkeys _].
  assert (Hr : current_index (rotate_key m1) < length (keys (rotate_key m1))).
  { rewrite Hrot, Hkeys. apply Nat.mod_upper_bound. lia. }
  destruct (@get_current_key_in_range (rotate_key m1) Hr) as (e & He & Hget).
  exists e. split; [|exact Hget].
  rewrite Hkeys, Hlt, nth_error_remove_at, Hrot, Hlen, Hidx in He.
  rewrite <- He. clear He Hget Hr.
  set (n := length (keys m)) in *. set (i := current_index m) in *.
  destruct (Nat.leb_spec (n - 1) i) as [Hlast|Hnot].
  - (* the last key was disabled *)
    assert (Ei : i = n - 1) by lia.
    rewrite (Nat.mod_small (0 + 1) (n - 1)) by lia.
    destruct (Nat.ltb_spec (0 + 1) i); [|lia].
    replace (i + 2) with (1 + 1 * n) by lia.
    rewrite Nat.Div0.mod_add, Nat.mod_small by lia. reflexivity.
  - destruct (Nat.eq_dec (i + 2) n) as [E|E].
    + replace (i + 1) with (n - 1) by lia.
      rewrite Nat.Div0.mod_same.
      destruct (Nat.ltb_spec 0 i); [|lia].
      rewrite E, Nat.Div0.mod_same. reflexivity.
    + rewrite (Nat.mod_small (i + 1) (n - 1)) by lia.
      destruct (Nat.ltb_spec (i + 1) i); [lia|].
      rewrite (Nat.mod_small (i + 2) n) by lia.
      f_equal. lia.
Qed.

Lemma disable_then_rotate_skips_a_key_witness :
  exists m1,
    disable_current_key (init [KStr "k1"; KStr "k2"; KStr "k3"; KStr "k4"] 1) "HTTP 403"
    = Ok m1 /\
    get_current_key (rotate_key m1) = Ok (Some "k4"%string, rotate_key m1).
Proof.
  eexists. split; [reflexivity|].
  destruct (@disable_then_rotate_skips_a_key
              (init [KStr "k1"; KStr "k2"; KStr "k3"; KStr "k4"] 1) _ "HTTP 403"
              ltac:(simpl; lia) ltac:(vm_compute; lia) eq_refl)
    as (e & He & Hget).
  vm_compute in He. inversion He; subst e. exact Hget.
Defined.

(* --------------------------------------------------------------------- *)
(** ** The AI call chain                                                  *)
(* --------------------------------------------------------------------- *)

(** X5. Whatever [call_huggingface_api] returns is in the shape of a
    primary-provider answer: it is returned only when a token is
    configured and exactly one request was made, it wraps the content of
    the first choice of the reply, and when that content is a string the
    text that callers read off a primary answer is that string. *)
Theorem backup_answer_has_primary_shape :
  forall (env : AI.Env) (prompt : string) (log : list AEvent) (v : json),
    fst (call_huggingface_api env prompt log) = Some v ->
    HUGGINGFACE_TOKEN env <> ""%string /\
    snd (call_huggingface_api env prompt log) = AHfPost :: AHfCall :: log /\
    exists data choices c0 msg content,
      hf_post env (S (length log)) = PostOk data /\
      getitem data "choices" = Ok choices /\
      getindex choices 0 = Ok c0 /\
      getitem c0 "message" = Ok msg /\
      getitem msg "content" = Ok content /\
      v = gemini_format content /\
      (forall s, content = JStr s -> response_text v = Ok s).
Proof.
  intros env prompt log v. unfold call_huggingface_api.
  destruct (String.eqb_spec (HUGGINGFACE_TOKEN env) "") as [E|E]; [discriminate|].
  simpl length.
  destruct (hf_post env (S (length log))) as [data|resp|] eqn:Hpost;
    simpl; try discriminate.
  intros H. split; [exact E|]. split; [reflexivity|].
  unfold hf_convert in H.
  destruct (str_in "choices" data) as [[|]|]; simpl in H; try discriminate.
  destruct (getitem data "choices") as [choices|] eqn:Hc; simpl in H; [|discriminate].
  destruct (len choices) as [n|]; simpl in H; [|discriminate].
  destruct (0 <? n); [|discriminate].
  destruct (getindex choices 0) as [c0|] eqn:H0; simpl in H; [|discriminate].
  destruct (getitem c0 "message") as [msg|] eqn:Hm; simpl in H; [|discriminate].
  destruct (getitem msg "content") as [content|] eqn:Hct; simpl in H; [|discriminate].
  inversion H; subst v.
  exists data, choices, c0, msg, content.
  split; [reflexivity|]. split; [exact Hc|]. split; [exact H0|].
  split; [exact Hm|]. split; [exact Hct|]. split; [reflexivity|].
  intros s ->. reflexivity.
Qed.

Lemma backup_answer_has_primary_shape_witness :
  response_text
    (gemini_format (JStr "answer"))
  = Ok "answer"%string.
Proof.
  destruct (@backup_answer_has_primary_shape
              (AI.mkEnv (fun _ _ => PostException) "hf_token"
                 (fun _ => PostOk (JObj [("choices"%string,
                                          JArr [JObj [("message"%string,
                                                       JObj [("content"%string,
                                                              JStr "answer")])]])]))
                 (fun _ => None) (fun v => v))
              "prompt" [] (gemini_format (JStr "answer")) eq_refl)
    as (_ & _ & data & choices & c0 & msg & content & _ & _ & _ & _ & _ & Hv & Htext).
  apply Htext. inversion Hv. reflexivity.
Defined.

Lemma status_503_or_fatal (s : option Z) :
  status_in [400; 403; 429; 503]%Z s = true ->
  status_in [503]%Z s = false ->
  status_in [400; 403; 429]%Z s = true.
Proof.
  destruct s as [c|]; simpl; [|discriminate].
  destruct (c =? 400)%Z, (c =? 403)%Z, (c =? 429)%Z, (c =? 503)%Z; simpl; congruence.
Qed.

Lemma call_gemini_api_keeps_keys env prompt :
  (forall n key resp,
     gemini_post env n key = PostHTTPError resp ->
     status_in [400; 403; 429]%Z (error_status resp) = false) ->
  forall n retry_count km log,
    n = MAX_GEMINI_RETRIES - retry_count ->
    keys (fst (snd (call_gemini_api env prompt retry_count km log))) = keys km.
Proof.
  intros Hsafe.
  induction n as [|n IH]; intros retry_count km log Hn; rewrite call_gemini_api_eq.
  - destruct (Nat.leb_spec MAX_GEMINI_RETRIES retry_count) as [_|Hlt]; [|lia].
    destruct (hf_backup_spec env prompt km (AEnter retry_count :: log))
      as (v & posts & -> & _). reflexivity.
  - destruct (Nat.leb_spec MAX_GEMINI_RETRIES retry_count) as [Hge|_]; [lia|].
    unfold gemini_round.
    destruct (get_current_key_spec km) as (k & km1 & -> & Hkeys1 & _).
    assert (Hhf : forall log1,
               keys (fst (snd (hf_backup env prompt km1 log1))) = keys km).
    { intros log1. destruct (hf_backup_spec env prompt km1 log1) as (v & posts & -> & _).
      exact Hkeys1. }
    assert (Hrec : forall log1,
               keys (fst (snd (call_gemini_api env prompt (retry_count + 1)
                                 (rotate_key km1) log1))) = keys km).
    { intros log1. rewrite IH by lia.
      rewrite (proj1 (rotate_key_spec km1)). exact Hkeys1. }
    destruct k as [api_key|]; [|apply Hhf].
    destruct (api_key =? "")%string; [apply Hhf|].
    destruct (gemini_post env (length (AEnter retry_count :: log)) api_key)
      as [body|resp|] eqn:Hpost.
    + exact Hkeys1.
    + cbv zeta. specialize (Hsafe _ _ _ Hpost).
      destruct (status_in [400; 403; 429; 503]%Z (error_status resp)) eqn:H4;
        [|exact Hkeys1].
      destruct (status_in [503]%Z (error_status resp)) eqn:H503.
      * destruct (0 <? get_active_count km1); [apply Hrec | apply Hhf].
      * rewrite (status_503_or_fatal _ H4 H503) in Hsafe. discriminate.
    + destruct (0 <? get_active_count km1); [apply Hrec | exact Hkeys1].
Qed.

(** X6. One call of the chain retires keys only on a readable 400, 403 or
    429 answer: when the primary provider gives no such answer (so only
    successes, 503s, other statuses, errors without a usable response and
    network errors), the working set after the call holds the same entries
    as before, whatever the retry count and however many rotations were
    made. *)
Theorem keys_survive_transient_failures :
  forall (env : AI.Env) (prompt : string) (retry_count : nat)
         (km : GeminiKeyManager) (log : list AEvent),
    (forall n key resp,
       gemini_post env n key = PostHTTPError resp ->
       status_in [400; 403; 429]%Z (error_status resp) = false) ->
    keys (pool_after env prompt retry_count km log) = keys km /\
    get_active_count (pool_after env prompt retry_count km log) = get_active_count km.
Proof.
  intros env prompt retry_count km log Hsafe.
  assert (H : keys (pool_after env prompt retry_count km log) = keys km).
  { unfold pool_after. eapply call_gemini_api_keeps_keys; [exact Hsafe | reflexivity]. }
  split; [exact H|]. unfold get_active_count. rewrite H. reflexivity.
Qed.

Lemma keys_survive_transient_failures_witness :
  get_active_count
    (pool_after (Scenario.gemini_env (Scenario.http_error 503)) "prompt" 0
       Scenario.two_gemini_keys []) = 2.
Proof.
  refine (proj2 (@keys_survive_transient_failures
                   (Scenario.gemini_env (Scenario.http_error 503)) "prompt" 0
                   Scenario.two_gemini_keys [] _)).
  intros n key resp H. inversion H; subst resp. reflexivity.
Defined.



Lemma analyze_loop_spec env prompt max_retries :
  forall remaining attempt km log,
    exists r km' log',
      analyze_loop env prompt max_retries remaining attempt km log
      = (Ok r, (km', log')) /\
      incl (keys km') (keys km) /\
      (forall segs, r = Some segs ->
         segs <> [] /\ forallb acceptable segs = true) /\
      AI.count is_gemini_post log'
      <= AI.count is_gemini_post log + MAX_GEMINI_RETRIES * remaining /\
      AI.count is_hf_call log' <= AI.count is_hf_call log + remaining + 1.
Proof.
  assert (Hparse : forall v segs,
             parse_gemini_response env v = Some segs ->
             segs <> [] /\ forallb acceptable segs = true).
  { intros v segs H. apply parse_gemini_response_result in H.
    destruct H as (Hne & all & ->). split; [exact Hne|].
    apply forallb_forall. intros x Hx. apply filter_In in Hx. tauto. }
  induction remaining as [|remaining IH]; intros attempt km log.
  - exists None, km, log. simpl. split; [reflexivity|].
    split; [apply incl_refl|]. split; [discriminate | lia].
  - cbn [analyze_loop].
    destruct (@call_gemini_api_bounds env prompt _ 0 km log eq_refl)
      as (response & km1 & log1 & -> & Hincl & Bhf & _ & Bpost).
    change (MAX_GEMINI_RETRIES - 0) with MAX_GEMINI_RETRIES in Bpost.
    assert (Hnext : forall km2 log2,
               incl (keys km2) (keys km) ->
               AI.count is_gemini_post log2 = AI.count is_gemini_post log1 ->
               AI.count is_hf_call log2 = AI.count is_hf_call log1 ->
               exists r km' log',
                 analyze_loop env prompt max_retries remaining (S attempt) km2 log2
                 = (Ok r, (km', log')) /\
                 incl (keys km') (keys km) /\
                 (forall segs, r = Some segs ->
                    segs <> [] /\ forallb acceptable segs = true) /\
                 AI.count is_gemini_post log'
                 <= AI.count is_gemini_post log + MAX_GEMINI_RETRIES * S remaining /\
                 AI.count is_hf_call log'
                 <= AI.count is_hf_call log + S remaining + 1).
    { intros km2 log2 Hi E1 E2.
      destruct (IH (S attempt) km2 log2) as (r & km' & log' & -> & Hi' & Hs & B1 & B2).
      exists r, km', log'. split; [reflexivity|].
      split; [eapply incl_tran; eassumption|]. split; [exact Hs|]. lia. }
    assert (Hstop : forall r log2,
               (forall segs, r = Some segs ->
                  segs <> [] /\ forallb acceptable segs = true) ->
               AI.count is_gemini_post log2 = AI.count is_gemini_post log1 ->
               AI.count is_hf_call log2 <= AI.count is_hf_call log1 + 1 ->
               exists r0 km' log',
                 (Ok r, (km1, log2)) = (Ok r0, (km', log')) /\
                 incl (keys km') (keys km) /\
                 (forall segs, r0 = Some segs ->
                    segs <> [] /\ forallb acceptable segs = true) /\
                 AI.count is_gemini_post log'
                 <= AI.count is_gemini_post log + MAX_GEMINI_RETRIES * S remaining /\
                 AI.count is_hf_call log'
                 <= AI.count is_hf_call log + S remaining + 1).
    { intros r log2 Hs E1 E2. exists r, km1, log2. split; [reflexivity|].
      split; [exact Hincl|]. split; [exact Hs|]. lia. }
    destruct (usable response) eqn:Hu; simpl negb; cbv iota.
    + destruct response as [v|]; [|discriminate].
      destruct (parse_gemini_response env v) as [[|seg segs]|] eqn:Hp.
      * destruct (attempt <? max_retries - 1).
        -- apply Hnext; [rewrite (proj1 (rotate_key_spec km1)); exact Hincl | |];
             unfold AI.count; simpl; reflexivity.
        -- apply Hnext; [exact Hincl | reflexivity | reflexivity].
      * apply Hstop; [|reflexivity | lia].
        intros s E. inversion E; subst s. exact (Hparse _ _ Hp).
      * destruct (attempt <? max_retries - 1).
        -- apply Hnext; [rewrite (proj1 (rotate_key_spec km1)); exact Hincl | |];
             unfold AI.count; simpl; reflexivity.
        -- apply Hnext; [exact Hincl | reflexivity | reflexivity].
    + destruct (attempt <? max_retries - 1).
      * apply Hnext; [exact Hincl | |]; unfold AI.count; simpl; reflexivity.
      * destruct (call_huggingface_api_log env prompt log1) as (posts & Hlog & Hposts).
        destruct (call_huggingface_api env prompt log1) as [hf log2].
        simpl in Hlog. subst log2.
        assert (C1 : AI.count is_gemini_post (posts ++ AHfCall :: log1)
                     = AI.count is_gemini_post log1).
        { destruct Hposts as [->| ->]; reflexivity. }
        assert (C2 : AI.count is_hf_call (posts ++ AHfCall :: log1)
                     <= AI.count is_hf_call log1 + 1).
        { destruct Hposts as [->| ->]; unfold AI.count; simpl; lia. }
        destruct hf as [v|]; [|apply Hstop; [discriminate | exact C1 | exact C2]].
        destruct (truthy v); [|apply Hstop; [discriminate | exact C1 | exact C2]].
        apply Hstop; [|exact C1 | exact C2].
        intros s E. exact (Hparse _ _ E).
Qed.



(* --------------------------------------------------------------------- *)
(** ** The transcript-key table, continued                                *)
(* --------------------------------------------------------------------- *)

Import KeyStore.

Lemma last_used_le_trans a b c :
  last_used_le a b = true -> last_used_le b c = true -> last_used_le a c = true.
Proof.
  destruct a as [x|], b as [y|], c as [z|]; simpl; try congruence.
  intros H1 H2. apply Nat.leb_le in H1, H2. apply Nat.leb_le. lia.
Qed.

Lemma last_used_le_total a b :
  last_used_le a b = false -> last_used_le b a = true.
Proof.
  destruct a as [x|], b as [y|]; simpl; try congruence.
  intros H. apply Nat.leb_gt in H. apply Nat.leb_le. lia.
Qed.

Lemma last_used_le_refl a : last_used_le a a = true.
Proof. destruct a; simpl; [apply Nat.leb_refl | reflexivity]. Qed.

Lemma fold_earlier_least rs b :
  exists r,
    fold_left earlier rs (Some b) = Some r /\
    last_used_le (last_used r) (last_used b) = true /\
    forall x, In x rs -> last_used_le (last_used r) (last_used x) = true.
Proof.
  revert b; induction rs as [|a rs IH]; intros b; simpl.
  - exists b. split; [reflexivity|]. split; [apply last_used_le_refl | tauto].
  - destruct (last_used_le (last_used b) (last_used a)) eqn:E.
    + destruct (IH b) as (r & Hr & Hb & Hall). exists r.
      split; [exact Hr|]. split; [exact Hb|].
      intros x [<-|Hx]; [eapply last_used_le_trans; eassumption | auto].
    + destruct (IH a) as (r & Hr & Ha & Hall). exists r.
      split; [exact Hr|]. split.
      * eapply last_used_le_trans; [exact Ha | apply last_used_le_total; exact E].
      * intros x [<-|Hx]; [exact Ha | auto].
Qed.

(** X9. [get_active_key] answers nothing exactly when no active transcript
    key is counted, and otherwise a row of the table that is an active
    transcript key and was used no later than every other active
    transcript key, a key that was never used coming before all that
    were. *)
Theorem active_key_is_least_recently_used :
  forall (t : KeyTable),
    (get_active_key t = None <-> get_active_keys_count t = 0) /\
    (forall r, get_active_key t = Some r ->
       In r (rows t) /\ is_active_transcript_key r = true /\
       forall r', In r' (rows t) -> is_active_transcript_key r' = true ->
                  last_used_le (last_used r) (last_used r') = true).
Proof.
  intros t. unfold get_active_key, get_active_keys_count.
  destruct (filter is_active_transcript_key (rows t)) as [|a rs] eqn:Hf.
  - simpl. split; [tauto | discriminate].
  - cbn [fold_left earlier].
    destruct (fold_earlier_least rs a) as (r & Hr & Ha & Hall).
    rewrite Hr. split; [split; simpl; discriminate|].
    intros r0 E. inversion E; subst r0.
    assert (Hin : In r (a :: rs)).
    { apply fold_earlier_In in Hr. destruct Hr as [Hr|Hr].
      - inversion Hr. left. reflexivity.
      - right. exact Hr. }
    rewrite <- Hf in Hin. apply filter_In in Hin.
    split; [tauto|]. split; [tauto|].
    intros r' Hin' Hact'.
    assert (H' : In r' (a :: rs)).
    { rewrite <- Hf. apply filter_In. auto. }
    destruct H' as [<-|H']; [exact Ha | auto].
Qed.

Lemma active_key_is_least_recently_used_witness :
  exists r,
    get_active_key
      (mkTable [mkApiKey 1 "transcript_api" "a" None None "active" (Some 3) None (Some 50) None;
                mkApiKey 2 "transcript_api" "b" None None "active" (Some 0) None None None;
                mkApiKey 3 "transcript_api" "c" None None "disabled" (Some 0) None None None]
         4) = Some r /\
    row_id r = 2.
Proof.
  eexists. split; [reflexivity|].
  destruct (proj2 (active_key_is_least_recently_used
                     (mkTable
                        [mkApiKey 1 "transcript_api" "a" None None "active" (Some 3) None
                           (Some 50) None;
                         mkApiKey 2 "transcript_api" "b" None None "active" (Some 0) None
                           None None;
                         mkApiKey 3 "transcript_api" "c" None None "disabled" (Some 0) None
                           None None] 4)) _ eq_refl) as (_ & _ & _).
  reflexivity.
Defined.

Lemma update_first_ids p f rs :
  (forall x, row_id (f x) = row_id x) ->
  map row_id (update_first p f rs) = map row_id rs.
Proof.
  intros Hf. induction rs as [|a rs IH]; simpl; [reflexivity|].
  destruct (p a); simpl; [rewrite Hf | rewrite IH]; reflexivity.
Qed.

Lemma update_first_absent k f rs :
  (forall r, In r rs -> row_id r <> k) ->
  update_first (fun r => row_id r =? k) f rs = rs.
Proof.
  induction rs as [|a rs IH]; simpl; [reflexivity|]. intros H.
  destruct (Nat.eqb_spec (row_id a) k) as [E|E].
  - exfalso. apply (H a); auto.
  - rewrite IH; [reflexivity|]. intros r Hr. apply H. auto.
Qed.

Lemma update_first_count (q : ApiKey -> bool) key f rs :
  NoDup (map row_id rs) -> In key rs ->
  length (filter q (update_first (fun r => row_id r =? row_id key) f rs))
  + (if q key then 1 else 0)
  = length (filter q rs) + (if q (f key) then 1 else 0).
Proof.
  intros Hnd Hin. induction rs as [|a rs IH]; simpl in *; [tauto|].
  inversion Hnd as [|? ? Hnotin Hnd']; subst.
  destruct (Nat.eqb_spec (row_id a) (row_id key)) as [E|E].
  - assert (a = key).
    { destruct Hin as [H|H]; [exact H|].
      exfalso. apply Hnotin. rewrite E. apply in_map. exact H. }
    subst a. simpl. destruct (q key), (q (f key)); simpl; lia.
  - destruct Hin as [->|Hin]; [congruence|]. specialize (IH Hnd' Hin).
    simpl. destruct (q a); simpl; lia.
Qed.

Lemma update_first_same_count (q : ApiKey -> bool) p f rs :
  (forall x, q (f x) = q x) ->
  length (filter q (update_first p f rs)) = length (filter q rs).
Proof.
  intros Hf. induction rs as [|a rs IH]; simpl; [reflexivity|].
  destruct (p a); simpl.
  - rewrite Hf. destruct (q a); reflexivity.
  - destruct (q a); simpl; rewrite IH; reflexivity.
Qed.

(** X10. On a table with unique ids, disabling an active transcript key
    lowers the count of active keys by exactly one and the key is no
    longer the one [get_active_key] answers; marking a key used never
    changes the count; and either write is without effect when no row has
    the given id. *)
Theorem disabling_lowers_the_active_count :
  forall (t : KeyTable) (key : ApiKey) (reason : string) (now : nat),
    table_wf t ->
    In key (rows t) ->
    is_active_transcript_key key = true ->
    get_active_keys_count (disable_key t (row_id key) reason now) + 1
    = get_active_keys_count t /\
    (forall r, get_active_key (disable_key t (row_id key) reason now) = Some r ->
               row_id r <> row_id key) /\
    (forall k now', get_active_keys_count (mark_key_used t k now')
                    = get_active_keys_count t) /\
    (forall k now',
       (forall r, In r (rows t) -> row_id r <> k) ->
       disable_key t k reason now' = t /\ mark_key_used t k now' = t).
Proof.
  intros t key reason now Hwf Hin Hact.
  split; [|split; [|split]].
  - unfold get_active_keys_count, disable_key. simpl.
    pose proof (@update_first_count is_active_transcript_key key
                  (fun r => mkApiKey (row_id r) (service r) (api_key r) (email r)
                              (password r) "disabled" (usage_count r) (Some reason)
                              (last_used r) (Some now))
                  (rows t) (proj1 Hwf) Hin) as H.
    rewrite Hact in H.
    replace (is_active_transcript_key _) with false in H; [lia|].
    unfold is_active_transcript_key. simpl. rewrite andb_false_r. reflexivity.
  - intros r Hr. eapply retired_not_returned; [|exact Hr].
    apply disable_key_retires; assumption.
  - intros k now'. unfold get_active_keys_count, mark_key_used. simpl.
    apply update_first_same_count. intros x. reflexivity.
  - intros k now' Habs. unfold disable_key, mark_key_used, set_rows.
    rewrite !update_first_absent by exact Habs. destruct t; auto.
Qed.

Lemma disabling_lowers_the_active_count_witness :
  get_active_keys_count
    (disable_key (tbl Scenario.two_keys) 1 "Forbidden" 7) + 1 = 2.
Proof.
  refine (proj1 (@disabling_lowers_the_active_count (tbl Scenario.two_keys)
                   (Scenario.key_row 1 "secret-1") "Forbidden" 7 _ _ eq_refl)).
  - split.
    + simpl. repeat constructor; simpl; intuition discriminate.
    + simpl. repeat constructor.
  - left. reflexivity.
Defined.

Lemma auto_register_table env st :
  tbl (snd (auto_register_and_save_key env st)) = tbl st \/
  exists key email pw,
    tbl (snd (auto_register_and_save_key env st))
    = snd (insert_key (tbl st) key email pw).
Proof.
  unfold auto_register_and_save_key.
  set (run := provision env (length (tlog st))).
  destruct (obtain_mailbox run) as [[email box]|]; [|left; reflexivity].
  destruct (register_account run email (generate_random_password run)); simpl;
    [|left; reflexivity].
  destruct (login_account run email (generate_random_password run)) as [access_token|];
    [|left; reflexivity].
  destruct (access_token =? "")%string; [left; reflexivity|].
  destruct (send_verification_otp run access_token); simpl; [|left; reflexivity].
  set (st2 := record_event (TSleep 2) (record_event (TSleep 2) (record_event TProvision st))).
  destruct (retrieve_otp_safe env run box st2) as (otp & Hr & Htbl).
  destruct (retrieve_otp env run box st2) as [r st3]. simpl in Hr, Htbl. subst r.
  change (tbl st2) with (tbl st) in Htbl.
  destruct otp as [otp_code|]; [|left; exact Htbl].
  destruct (otp_code =? "")%string; [left; exact Htbl|].
  pose proof (verify_and_save_spec run email (generate_random_password run)
                access_token otp_code st3) as Hsave.
  destruct (verify_and_save run email (generate_random_password run)
              access_token otp_code st3) as [k st4].
  cbn [fst snd] in Hsave |- *. destruct k as [row|].
  - destruct Hsave as (key & _ & _ & _ & _ & Hins). right.
    exists key, email, (generate_random_password run).
    apply (f_equal snd) in Hins. cbn [snd] in Hins.
    rewrite <- Htbl. symmetry. exact Hins.
  - left. rewrite Hsave. exact Htbl.
Qed.

Lemma request_transcript_table env video_id max_attempts attempt key st :
  tbl (snd (request_transcript env video_id max_attempts attempt key st)) = tbl st \/
  (exists now,
     tbl (snd (request_transcript env video_id max_attempts attempt key st))
     = mark_key_used (tbl st) (row_id key) now) \/
  (is_fatal_answer (transcript_get env (length (tlog st)) (api_key key) video_id) = true /\
   exists reason now,
     tbl (snd (request_transcript env video_id max_attempts attempt key st))
     = disable_key (tbl st) (row_id key) reason now).
Proof.
  unfold request_transcript.
  set (answer := transcript_get env (length (tlog st)) (api_key key) video_id).
  set (st1 := record_event (THttpGet (row_id key) answer) st).
  assert (Hexc : tbl (snd (on_request_exception attempt max_attempts st1)) = tbl st).
  { destruct (on_request_exception_frame attempt max_attempts st1) as (pre & _ & _ & H).
    exact H. }
  destruct answer as [status_code body| |].
  - cbn [is_fatal_answer].
    destruct (existsb (Z.eqb status_code) FATAL_STATUSES).
    + right. right. split; [reflexivity|].
      destruct (attempt <? max_attempts - 1); eexists _, _; reflexivity.
    + destruct (status_code =? 404)%Z.
      * right. left. eexists. reflexivity.
      * destruct (400 <=? status_code)%Z; [left; reflexivity|].
        destruct body as [data|].
        -- unfold on_success.
           destruct (str_in "transcript" data) as [[|]|]; [| |left; reflexivity].
           ++ destruct (getitem data "transcript") as [td|]; [|left; reflexivity].
              destruct (match td with
                        | JArr entries => parse_entries env entries
                        | _ => Ok []
                        end) as [[|e es]|]; try (left; reflexivity).
              right. left. eexists. reflexivity.
           ++ destruct (str_in "error" data) as [[|]|]; left; reflexivity.
        -- destruct (json_error_is_request_exception env); [left; exact Hexc|].
           left. reflexivity.
  - left. exact Hexc.
  - left. reflexivity.
Qed.

(** Whatever holds of the table and is kept by its three writes is kept
    by provisioning, by one request and by the whole fetch loop. *)
Section TableInvariant.

Variable P : KeyTable -> Prop.
Hypothesis P_mark : forall t k now, P t -> P (mark_key_used t k now).
Hypothesis P_disable : forall t k reason now, P t -> P (disable_key t k reason now).
Hypothesis P_insert : forall t key email pw, P t -> P (snd (insert_key t key email pw)).

Lemma auto_register_invariant env st :
  P (tbl st) -> P (tbl (snd (auto_register_and_save_key env st))).
Proof.
  intros H. destruct (auto_register_table env st) as [E|(key & email & pw & E)];
    rewrite E; auto.
Qed.

Lemma request_transcript_invariant env video_id max_attempts attempt key st :
  P (tbl st) ->
  P (tbl (snd (request_transcript env video_id max_attempts attempt key st))).
Proof.
  intros H.
  destruct (request_transcript_table env video_id max_attempts attempt key st)
    as [E|[(now & E)|(_ & reason & now & E)]]; rewrite E; auto.
Qed.

Lemma fetch_loop_invariant env video_id max_attempts :
  forall remaining attempt st,
    P (tbl st) ->
    P (tbl (snd (fetch_loop env video_id max_attempts remaining attempt st))).
Proof.
  induction remaining as [|n IH]; intros attempt st H; [exact H|].
  cbn [fetch_loop].
  set (st0 := record_event TQueryActive st).
  assert (Hkey : P (tbl (snd (match get_active_key (tbl st0) with
                              | Some k => (Ok (Some k), st0)
                              | None => auto_register_and_save_key env st0
                              end)))).
  { destruct (get_active_key (tbl st0)); [exact H|].
    apply auto_register_invariant. exact H. }
  destruct (match get_active_key (tbl st0) with
            | Some k => (Ok (Some k), st0)
            | None => auto_register_and_save_key env st0
            end) as [[[key_obj|]|e] st1]; simpl in Hkey.
  - pose proof (request_transcript_invariant env video_id max_attempts attempt
                  key_obj st1 Hkey) as H2.
    destruct (request_transcript env video_id max_attempts attempt key_obj st1)
      as [[r|] st2]; simpl in H2; [exact H2|]. apply IH. exact H2.
  - apply IH. exact Hkey.
  - exact Hkey.
Qed.

Lemma apply_table_ops_invariant ops :
  forall st, P (tbl st) -> P (tbl (apply_table_ops ops st)).
Proof.
  unfold apply_table_ops. induction ops as [|o ops IH]; intros st H; [exact H|].
  simpl. apply IH. destruct o as [k now|k reason now|env|env v n]; simpl.
  - apply P_mark. exact H.
  - apply P_disable. exact H.
  - apply auto_register_invariant. exact H.
  - apply fetch_loop_invariant. exact H.
Qed.

End TableInvariant.

Lemma table_wf_update k f t :
  (forall x, row_id (f x) = row_id x) ->
  table_wf t -> table_wf (set_rows t (update_first (fun r => row_id r =? k) f (rows t))).
Proof.
  intros Hf [Hnd Hall]. split; simpl.
  - rewrite update_first_ids by exact Hf. exact Hnd.
  - rewrite Forall_forall in *. intros r Hr.
    apply update_first_In in Hr. destruct Hr as [Hr|(r0 & Hr0 & _ & ->)].
    + apply Hall. exact Hr.
    + rewrite Hf. apply Hall. exact Hr0.
Qed.

Lemma table_wf_insert t key email pw :
  table_wf t -> table_wf (snd (insert_key t key email pw)).
Proof.
  intros [Hnd Hall]. rewrite Forall_forall in Hall. split; simpl.
  - rewrite map_app. simpl. apply NoDup_app; [exact Hnd | repeat constructor; simpl; tauto |].
    intros a Hin [<-|[]]. apply in_map_iff in Hin.
    destruct Hin as (r & E & Hr). apply Hall in Hr. lia.
  - rewrite Forall_forall. intros r Hr. apply in_app_or in Hr.
    destruct Hr as [Hr|[<-|[]]]; [apply Hall in Hr; lia | simpl; lia].
Qed.

Lemma update_first_keeps p f rs (x : ApiKey) :
  In x rs -> In x (update_first p f rs) \/ In (f x) (update_first p f rs).
Proof.
  induction rs as [|a rs IH]; simpl; [tauto|].
  destruct (p a); simpl.
  - intros [->|H]; auto.
  - intros [->|H]; [auto|]. destruct (IH H); auto.
Qed.

Lemma update_first_length p f (rs : list ApiKey) :
  length (update_first p f rs) = length rs.
Proof.
  induction rs as [|a rs IH]; simpl; [reflexivity|].
  destruct (p a); simpl; [reflexivity | rewrite IH; reflexivity].
Qed.

Lemma credentials_kept_update t0 t k f :
  (forall x, same_credential x (f x)) ->
  credentials_kept t0 t ->
  credentials_kept t0 (set_rows t (update_first (fun r => row_id r =? k) f (rows t))).
Proof.
  intros Hf H r Hr. destruct (H r Hr) as (r' & Hin & Hsame). simpl.
  destruct (update_first_keeps (fun r => row_id r =? k) f (rows t) r' Hin) as [H'|H'].
  - exists r'. auto.
  - exists (f r'). split; [exact H'|].
    destruct Hsame as (E1 & E2 & E3 & E4 & E5), (Hf r') as (F1 & F2 & F3 & F4 & F5).
    repeat split; congruence.
Qed.

(** X11. The key table only grows and never loses a credential: whatever
    sequence of marking, disabling, provisioning and transcript fetching
    is applied to a well-formed table, the table stays well formed (ids
    unique and below the counter), every row that was there is still there
    with the same id, service, secret, e-mail and password, and neither
    the number of rows nor the id counter goes down. *)
Theorem store_keeps_every_credential :
  forall (ops : list table_op) (st : TState),
    table_wf (tbl st) ->
    table_wf (tbl (apply_table_ops ops st)) /\
    credentials_kept (tbl st) (tbl (apply_table_ops ops st)) /\
    length (rows (tbl st)) <= length (rows (tbl (apply_table_ops ops st))) /\
    next_id (tbl st) <= next_id (tbl (apply_table_ops ops st)).
Proof.
  intros ops st Hwf.
  apply (@apply_table_ops_invariant
           (fun t => table_wf t /\ credentials_kept (tbl st) t /\
                     length (rows (tbl st)) <= length (rows t) /\
                     next_id (tbl st) <= next_id t)).
  - intros t k now (H1 & H2 & H3 & H4). unfold mark_key_used.
    split; [apply table_wf_update; [reflexivity | exact H1]|].
    split; [apply credentials_kept_update; [|exact H2]|].
    + intros x. repeat split.
    + simpl. rewrite update_first_length. auto.
  - intros t k reason now (H1 & H2 & H3 & H4). unfold disable_key.
    split; [apply table_wf_update; [reflexivity | exact H1]|].
    split; [apply credentials_kept_update; [|exact H2]|].
    + intros x. repeat split.
    + simpl. rewrite update_first_length. auto.
  - intros t key email pw (H1 & H2 & H3 & H4).
    split; [apply table_wf_insert; exact H1|]. split; [|simpl; rewrite length_app; simpl; lia].
    intros r Hr. destruct (H2 r Hr) as (r' & Hin & Hsame).
    exists r'. split; [simpl; apply in_or_app; auto | exact Hsame].
  - split; [exact Hwf|]. split; [|lia].
    intros r Hr. exists r. split; [exact Hr | repeat split].
Qed.

Lemma store_keeps_every_credential_witness :
  exists r',
    In r' (rows (tbl (apply_table_ops
                        [TFetch (Scenario.transcript_env
                                   (fun _ => GetResponse 403 None) Scenario.successful_run)
                           "vid" 3;
                         TMarkUsed 1 9]
                        Scenario.two_keys))) /\
    same_credential (Scenario.key_row 1 "secret-1") r'.
Proof.
  assert (Hwf : table_wf (tbl Scenario.two_keys)).
  { split; simpl.
    - repeat constructor; simpl; intuition discriminate.
    - repeat constructor. }
  destruct (@store_keeps_every_credential
              [TFetch (Scenario.transcript_env
                         (fun _ => GetResponse 403 None) Scenario.successful_run)
                 "vid" 3;
               TMarkUsed 1 9]
              Scenario.two_keys Hwf) as (_ & Hkept & _).
  apply Hkept. left. reflexivity.
Defined.

Lemma status_of_mark t k now i :
  status_of (mark_key_used t k now) i = status_of t i.
Proof.
  unfold status_of, mark_key_used. simpl.
  induction (rows t) as [|a rs IH]; simpl; [reflexivity|].
  destruct (Nat.eqb_spec (row_id a) k) as [E|E]; simpl.
  - destruct (row_id a =? i); reflexivity.
  - destruct (row_id a =? i); [reflexivity | exact IH].
Qed.

Lemma status_of_disable t k reason now i :
  status_of (disable_key t k reason now) i = status_of t i \/
  (i = k /\ status_of (disable_key t k reason now) i = Some "disabled"%string).
Proof.
  unfold status_of, disable_key. simpl.
  induction (rows t) as [|a rs IH]; simpl; [left; reflexivity|].
  destruct (Nat.eqb_spec (row_id a) k) as [E|E]; simpl.
  - destruct (Nat.eqb_spec (row_id a) i) as [E'|E'].
    + right. split; [congruence | reflexivity].
    + left. reflexivity.
  - destruct (row_id a =? i); [left; reflexivity | exact IH].
Qed.

Lemma status_of_insert t key email pw i s :
  status_of t i = Some s ->
  status_of (snd (insert_key t key email pw)) i = Some s.
Proof.
  unfold status_of. simpl.
  induction (rows t) as [|a rs IH]; simpl; [discriminate|].
  destruct (row_id a =? i); [auto | exact IH].
Qed.

Lemma disabled_only_after_fatal_refl st : disabled_only_after_fatal st st.
Proof. exists []. split; [reflexivity | auto]. Qed.

Lemma disabled_only_after_fatal_trans st1 st2 st3 :
  disabled_only_after_fatal st1 st2 ->
  disabled_only_after_fatal st2 st3 ->
  disabled_only_after_fatal st1 st3.
Proof.
  intros (a1 & L1 & H1) (a2 & L2 & H2). exists (a2 ++ a1).
  split; [rewrite L2, L1, app_assoc; reflexivity|].
  intros i s Hs. destruct (H1 i s Hs) as [E|(E & o & Hin & Hf)].
  - destruct (H2 i s E) as [E'|(E' & o & Hin & Hf)]; [left; exact E'|].
    right. split; [exact E'|]. exists o. split; [apply in_or_app; auto | exact Hf].
  - right. split.
    + destruct (H2 i _ E) as [E'|(E' & _)]; exact E'.
    + exists o. split; [apply in_or_app; auto | exact Hf].
Qed.

Lemma disabled_only_after_fatal_same st st' added :
  tlog st' = added ++ tlog st ->
  (forall i s, status_of (tbl st) i = Some s -> status_of (tbl st') i = Some s) ->
  disabled_only_after_fatal st st'.
Proof. intros L H. exists added. split; [exact L | auto]. Qed.

Lemma auto_register_disables_nothing env st :
  disabled_only_after_fatal st (snd (auto_register_and_save_key env st)).
Proof.
  destruct (auto_register_frame env st) as (k & added & _ & Hlog & _).
  apply disabled_only_after_fatal_same with (added := added); [exact Hlog|].
  intros i s Hs.
  destruct (auto_register_table env st) as [E|(key & email & pw & E)]; rewrite E.
  - exact Hs.
  - apply status_of_insert. exact Hs.
Qed.

Lemma request_transcript_disables_on_fatal env video_id max_attempts attempt key st :
  disabled_only_after_fatal st
    (snd (request_transcript env video_id max_attempts attempt key st)).
Proof.
  destruct (request_transcript_frame env video_id max_attempts attempt key st)
    as (pre & Hlog & _).
  exists (pre ++ [THttpGet (row_id key)
                    (transcript_get env (length (tlog st)) (api_key key) video_id)]).
  split; [rewrite Hlog, <- app_assoc; reflexivity|].
  intros i s Hs.
  destruct (request_transcript_table env video_id max_attempts attempt key st)
    as [E|[(now & E)|(Hfatal & reason & now & E)]]; rewrite E.
  - left. exact Hs.
  - left. rewrite status_of_mark. exact Hs.
  - destruct (status_of_disable (tbl st) (row_id key) reason now i) as [E'|[-> E']].
    + left. rewrite E'. exact Hs.
    + right. split; [exact E'|]. eexists. split; [|exact Hfatal].
      apply in_or_app. right. left. reflexivity.
Qed.

Lemma fetch_loop_disables_on_fatal env video_id max_attempts :
  forall remaining attempt st,
    disabled_only_after_fatal st
      (snd (fetch_loop env video_id max_attempts remaining attempt st)).
Proof.
  induction remaining as [|n IH]; intros attempt st;
    [apply disabled_only_after_fatal_refl|].
  cbn [fetch_loop].
  set (st0 := record_event TQueryActive st).
  assert (H0 : disabled_only_after_fatal st st0).
  { apply disabled_only_after_fatal_same with (added := [TQueryActive]); auto. }
  assert (Hkey : disabled_only_after_fatal st
                   (snd (match get_active_key (tbl st0) with
                         | Some k => (Ok (Some k), st0)
                         | None => auto_register_and_save_key env st0
                         end))).
  { destruct (get_active_key (tbl st0)); [exact H0|].
    eapply disabled_only_after_fatal_trans; [exact H0|].
    apply auto_register_disables_nothing. }
  destruct (match get_active_key (tbl st0) with
            | Some k => (Ok (Some k), st0)
            | None => auto_register_and_save_key env st0
            end) as [[[key_obj|]|e] st1]; simpl in Hkey.
  - pose proof (request_transcript_disables_on_fatal env video_id max_attempts attempt
                  key_obj st1) as H2.
    destruct (request_transcript env video_id max_attempts attempt key_obj st1)
      as [[r|] st2]; simpl in H2.
    + eapply disabled_only_after_fatal_trans; eassumption.
    + eapply disabled_only_after_fatal_trans; [|apply IH].
      eapply disabled_only_after_fatal_trans; eassumption.
  - eapply disabled_only_after_fatal_trans; [exact Hkey | apply IH].
  - exact Hkey.
Qed.

(** X12. During [fetch_transcript_with_retry] a key of the table changes
    status only by being disabled, and only after a request made with that
    very key was answered 401, 402, 403 or 429 during this call: a key
    that was active before and is not active afterwards is disabled, and
    the events this call added hold such an answer for it. Timeouts, 5xx
    answers, 404s and provisioning leave every existing status alone. *)
Theorem key_is_disabled_only_after_a_fatal_answer :
  forall (env : Transcript.Env) (video_id : string) (max_attempts : nat)
         (st : TState) (added : list TEvent) (i : nat),
    tlog (snd (fetch_transcript_with_retry env video_id max_attempts st))
    = added ++ tlog st ->
    status_of (tbl st) i = Some "active"%string ->
    status_of (tbl (snd (fetch_transcript_with_retry env video_id max_attempts st))) i
    <> Some "active"%string ->
    status_of (tbl (snd (fetch_transcript_with_retry env video_id max_attempts st))) i
    = Some "disabled"%string /\
    exists status_code body,
      In (THttpGet i (GetResponse status_code body)) added /\
      In status_code FATAL_STATUSES.
Proof.
  intros env video_id max_attempts st added i Hlog Hact Hnot.
  destruct (fetch_loop_disables_on_fatal env video_id max_attempts max_attempts 0 st)
    as (added' & Hlog' & H).
  fold (fetch_transcript_with_retry env video_id max_attempts st) in Hlog', H.
  rewrite Hlog in Hlog'. apply app_inv_tail in Hlog'. subst added'.
  destruct (H i _ Hact) as [E|(E & o & Hin & Hf)]; [contradiction|].
  split; [exact E|].
  destruct o as [status_code body| |]; try discriminate.
  exists status_code, body. split; [exact Hin|].
  cbn [is_fatal_answer] in Hf. apply existsb_exists in Hf. destruct Hf as (c & Hc & Heq).
  apply Z.eqb_eq in Heq. subst c. exact Hc.
Qed.

Lemma key_is_disabled_only_after_a_fatal_answer_witness :
  status_of
    (tbl (snd (fetch_transcript_with_retry
                 (Scenario.transcript_env (fun _ => GetResponse 403 None)
                    Scenario.failing_run)
                 "vid" 1 Scenario.one_key))) 1
  = Some "disabled"%string.
Proof.
  exact (proj1 (@key_is_disabled_only_after_a_fatal_answer
                  (Scenario.transcript_env (fun _ => GetResponse 403 None)
                     Scenario.failing_run)
                  "vid" 1 Scenario.one_key
                  [THttpGet 1 (GetResponse 403 None); TQueryActive] 1
                  eq_refl eq_refl ltac:(vm_compute; discriminate))).
Defined.

Lemma request_transcript_returns env video_id max_attempts attempt key st tr :
  fst (request_transcript env video_id max_attempts attempt key st)
  = FetchReturn (Some tr) ->
  tr <> [] /\
  exists status_code data entries,
    tlog (snd (request_transcript env video_id max_attempts attempt key st))
    = THttpGet (row_id key) (GetResponse status_code (Some data)) :: tlog st /\
    (status_code < 400)%Z /\
    getitem data "transcript" = Ok (JArr entries) /\
    parse_entries env entries = Ok tr /\
    tbl (snd (request_transcript env video_id max_attempts attempt key st))
    = mark_key_used (tbl st) (row_id key) (utcnow env (S (length (tlog st)))).
Proof.
  unfold request_transcript.
  destruct (transcript_get env (length (tlog st)) (api_key key) video_id)
    as [status_code body| |].
  - destruct (existsb (Z.eqb status_code) FATAL_STATUSES).
    + destruct (attempt <? max_attempts - 1); discriminate.
    + destruct (status_code =? 404)%Z; [discriminate|].
      destruct (Z.leb_spec 400 status_code) as [Hge|Hlt]; [discriminate|].
      destruct body as [data|].
      * unfold on_success.
        destruct (str_in "transcript" data) as [[|]|]; [| |discriminate].
        -- destruct (getitem data "transcript") as [td|] eqn:Hg; [|discriminate].
           destruct td as [| | | |entries|];
             try discriminate.
           destruct (parse_entries env entries) as [[|e es]|] eqn:Hp;
             try discriminate.
           simpl. intros H. inversion H; subst tr. split; [discriminate|].
           exists status_code, data, entries. auto.
        -- destruct (str_in "error" data) as [[|]|]; discriminate.
      * destruct (json_error_is_request_exception env); [|discriminate].
        unfold on_request_exception.
        destruct (attempt <? max_attempts - 1); discriminate.
  - unfold on_request_exception. destruct (attempt <? max_attempts - 1); discriminate.
  - discriminate.
Qed.

Lemma fetch_loop_returns env video_id max_attempts :
  forall remaining attempt st tr,
    fst (fetch_loop env video_id max_attempts remaining attempt st) = Ok (Some tr) ->
    tr <> [] /\
    exists key_id status_code data entries rest t now,
      tlog (snd (fetch_loop env video_id max_attempts remaining attempt st))
      = THttpGet key_id (GetResponse status_code (Some data)) :: rest /\
      (status_code < 400)%Z /\
      getitem data "transcript" = Ok (JArr entries) /\
      parse_entries env entries = Ok tr /\
      tbl (snd (fetch_loop env video_id max_attempts remaining attempt st))
      = mark_key_used t key_id now.
Proof.
  induction remaining as [|n IH]; intros attempt st tr; [discriminate|].
  cbn [fetch_loop].
  destruct (match get_active_key (tbl (record_event TQueryActive st)) with
            | Some k => (Ok (Some k), record_event TQueryActive st)
            | None => auto_register_and_save_key env (record_event TQueryActive st)
            end) as [[[key_obj|]|e] st1]; [| |discriminate].
  - pose proof (@request_transcript_returns env video_id max_attempts attempt
                  key_obj st1 tr) as H2.
    destruct (request_transcript env video_id max_attempts attempt key_obj st1)
      as [[r|] st2]; simpl in H2 |- *.
    + intros E. inversion E; subst r.
      destruct (H2 eq_refl) as (Hne & c & data & entries & Hlog & Hc & Hg & Hp & Ht).
      split; [exact Hne|].
      exists (row_id key_obj), c, data, entries, (tlog st1), (tbl st1),
        (utcnow env (S (length (tlog st1)))). auto.
    + apply IH.
  - apply IH.
Qed.

(** X13. [fetch_transcript_with_retry] never makes a transcript up: when it
    returns one, the list is not empty, the newest event of the call is a
    request answered with a status below 400 and a body whose 'transcript'
    field is an array that parses to exactly the returned lines, and the
    key that made this request has just been marked used. *)
Theorem transcript_comes_from_a_successful_answer :
  forall (env : Transcript.Env) (video_id : string) (max_attempts : nat)
         (st : TState) (tr : list TranscriptEntry),
    fst (fetch_transcript_with_retry env video_id max_attempts st) = Ok (Some tr) ->
    tr <> [] /\
    exists key_id status_code data entries rest t now,
      tlog (snd (fetch_transcript_with_retry env video_id max_attempts st))
      = THttpGet key_id (GetResponse status_code (Some data)) :: rest /\
      (status_code < 400)%Z /\
      getitem data "transcript" = Ok (JArr entries) /\
      parse_entries env entries = Ok tr /\
      tbl (snd (fetch_transcript_with_retry env video_id max_attempts st))
      = mark_key_used t key_id now.
Proof.
  intros env video_id max_attempts st tr. unfold fetch_transcript_with_retry.
  apply fetch_loop_returns.
Qed.

Lemma transcript_comes_from_a_successful_answer_witness :
  exists key_id status_code data entries rest t now,
    tlog (snd (fetch_transcript_with_retry
                 (Scenario.transcript_env (fun _ => Scenario.transcript_answer)
                    Scenario.failing_run)
                 "vid" 3 Scenario.one_key))
    = THttpGet key_id (GetResponse status_code (Some data)) :: rest /\
    (status_code < 400)%Z /\
    getitem data "transcript" = Ok (JArr entries) /\
    parse_entries
      (Scenario.transcript_env (fun _ => Scenario.transcript_answer) Scenario.failing_run)
      entries
    = Ok [mkTranscriptEntry 0 900 (JStr "hello")] /\
    tbl (snd (fetch_transcript_with_retry
                (Scenario.transcript_env (fun _ => Scenario.transcript_answer)
                   Scenario.failing_run)
                "vid" 3 Scenario.one_key))
    = mark_key_used t key_id now.
Proof.
  exact (proj2 (@transcript_comes_from_a_successful_answer
                  (Scenario.transcript_env (fun _ => Scenario.transcript_answer)
                     Scenario.failing_run)
                  "vid" 3 Scenario.one_key
                  [mkTranscriptEntry 0 900 (JStr "hello")] eq_refl)).
Defined.

(* --------------------------------------------------------------------- *)
(** ** Waiting for the verification e-mail                                *)
(* --------------------------------------------------------------------- *)

Lemma poll_once_sleeps_before_last run tag attempt max_attempts :
  poll_once run tag attempt max_attempts = PollNext true -> attempt < max_attempts.
Proof.
  unfold poll_once, retry_or_give_up.
  destruct (Nat.ltb_spec attempt max_attempts) as [H|H]; [auto|].
  destruct (testmail_poll run attempt tag) as [[| | | | |d]| |]; try discriminate.
  destruct (match dict_get "result" d with
            | Some (JStr r) => (r =? "success")%string
            | _ => false
            end); [|discriminate].
  destruct (truthy match dict_get "emails" d with
                   | Some v => v
                   | None => JArr []
                   end); [|discriminate].
  destruct (getindex _ 0); discriminate.
Qed.

Lemma poll_loop_sleep run tag interval max_attempts :
  forall remaining attempt log,
    attempt + remaining = max_attempts + 1 ->
    exists added,
      snd (poll_loop run tag interval max_attempts remaining attempt log)
      = added ++ log /\
      slept added <= interval * (remaining - 1) /\
      (added = [] \/ exists a rest, added = TPoll a :: rest).
Proof.
  induction remaining as [|n IH]; intros attempt log Hsum.
  - exists []. simpl. split; [reflexivity|]. split; [lia | auto].
  - cbn [poll_loop].
    destruct (poll_once run tag attempt max_attempts) as [r|[|]] eqn:Hp.
    + exists [TPoll attempt]. simpl. split; [reflexivity|]. split; [lia|].
      right. eauto.
    + apply poll_once_sleeps_before_last in Hp.
      destruct (IH (S attempt) (TSleep interval :: TPoll attempt :: log))
        as (added & Hlog & Hs & Hhd); [lia|].
      destruct n as [|n]; [lia|].
      destruct Hhd as [->|(a & rest & ->)].
      * exfalso. simpl in Hlog. cbn [poll_loop] in Hlog.
        destruct (poll_once run tag (S attempt) max_attempts) as [r|[|]];
          simpl in Hlog.
        -- assert (Hl := f_equal (@length _) Hlog). simpl in Hl. lia.
        -- destruct (poll_loop_added run tag interval max_attempts n (S (S attempt))
                       (TSleep interval :: TPoll (S attempt) :: TSleep interval
                        :: TPoll attempt :: log)) as (x & Hx & _).
           rewrite Hx in Hlog.
           assert (Hl := f_equal (@length _) Hlog).
           rewrite length_app in Hl. simpl in Hl. lia.
        -- destruct (poll_loop_added run tag interval max_attempts n (S (S attempt))
                       (TPoll (S attempt) :: TSleep interval
                        :: TPoll attempt :: log)) as (x & Hx & _).
           rewrite Hx in Hlog.
           assert (Hl := f_equal (@length _) Hlog).
           rewrite length_app in Hl. simpl in Hl. lia.
      * exists ((TPoll a :: rest) ++ [TSleep interval; TPoll attempt]).
        split; [rewrite Hlog, <- app_assoc; reflexivity|].
        split; [|right; simpl; eauto].
        assert (Hsl : forall l1 l2, slept (l1 ++ l2) = slept l1 + slept l2).
        { induction l1 as [|[| | | |k] l1 IH1]; intros l2; simpl; rewrite ?IH1; lia. }
        rewrite Hsl. simpl in Hs |- *. simpl. nia.
    + destruct (IH (S attempt) (TPoll attempt :: log)) as (added & Hlog & Hs & Hhd);
        [lia|].
      exists (added ++ [TPoll attempt]).
      split; [rewrite Hlog, <- app_assoc; reflexivity|].
      assert (Hsl : forall l1 l2, slept (l1 ++ l2) = slept l1 + slept l2).
      { induction l1 as [|[| | | |k] l1 IH1]; intros l2; simpl; rewrite ?IH1; lia. }
      rewrite Hsl. simpl. split; [nia|].
      right. destruct Hhd as [->|(a & rest & ->)]; simpl; eauto.
Qed.

(** X14. Waiting for the verification e-mail never sleeps after its last
    poll and never sleeps longer than the wait it was given: the events
    one call adds, if any, end with a poll, and the seconds slept between
    the polls add up to at most [max_wait]. With a zero poll interval the
    call raises before it polls at all; otherwise it returns. *)
Theorem mailbox_wait_stays_within_its_budget :
  forall (run : ProvisionRun) (tag : string) (max_wait poll_interval : nat)
         (log : list TEvent),
    exists r added,
      wait_for_testmail_message run tag max_wait poll_interval log
      = (r, added ++ log) /\
      slept added <= max_wait /\
      (added = [] \/ exists attempt rest, added = TPoll attempt :: rest) /\
      (poll_interval = 0 -> r = Raise ZeroDivisionError /\ added = []) /\
      (0 < poll_interval -> exists v, r = Ok v).
Proof.
  intros run tag max_wait poll_interval log. unfold wait_for_testmail_message.
  destruct poll_interval as [|p].
  - exists (Raise ZeroDivisionError), []. simpl.
    split; [reflexivity|]. split; [lia|]. split; [auto|]. split; [auto | lia].
  - set (interval := S p).
    destruct (@poll_loop_sleep run tag interval (max_wait / interval)
                (max_wait / interval) 1 log ltac:(lia))
      as (added & Hlog & Hs & Hhd).
    destruct (poll_loop run tag interval (max_wait / interval)
                (max_wait / interval) 1 log) as [r log'].
    simpl in Hlog. subst log'. exists (Ok r), added.
    split; [reflexivity|]. split; [|split; [exact Hhd|split; [discriminate | eauto]]].
    pose proof (Nat.Div0.mul_div_le max_wait interval).
    assert (interval * (max_wait / interval - 1) <= interval * (max_wait / interval))
      by (apply Nat.mul_le_mono_l; lia).
    lia.
Qed.

Lemma mailbox_wait_stays_within_its_budget_witness :
  exists v log',
    wait_for_testmail_message Scenario.successful_run "tag" 60 10 [] = (Ok v, log') /\
    slept log' <= 60.
Proof.
  destruct (mailbox_wait_stays_within_its_budget Scenario.successful_run "tag" 60 10 [])
    as (r & added & H & Hs & _ & _ & Hok).
  destruct (Hok ltac:(lia)) as (v & ->).
  exists v, added. rewrite app_nil_r in H. split; [exact H | exact Hs].
Defined.

(* --------------------------------------------------------------------- *)
(** ** File names                                                         *)
(* --------------------------------------------------------------------- *)

Import Filename.

Lemma collapse_underscores_In c s :
  In c (collapse_underscores s) -> In c s.
Proof.
  induction s as [|a s IH]; simpl; [tauto|].
  destruct (a =? "_")%char.
  - destruct s as [|b s]; [simpl; tauto|].
    destruct (b =? "_")%char.
    + intros H. right. apply IH. exact H.
    + intros [H|H]; [left; exact H | right; apply IH; exact H].
  - intros [H|H]; [left; exact H | right; apply IH; exact H].
Qed.

Lemma collapse_underscores_hd d s :
  hd d (collapse_underscores s) = hd d s.
Proof.
  induction s as [|a s IH]; simpl; [reflexivity|].
  destruct (Ascii.eqb_spec a "_"%char) as [E|E]; [|reflexivity].
  destruct s as [|b s]; [reflexivity|].
  destruct (Ascii.eqb_spec b "_"%char) as [E'|E']; [|reflexivity].
  rewrite IH. simpl. congruence.
Qed.

Lemma collapse_underscores_no_run s :
  no_underscore_run (collapse_underscores s) = true.
Proof.
  induction s as [|a s IH]; [reflexivity|].
  cbn [collapse_underscores].
  assert (Hcons : forall c, (c =? "_")%char = false \/ (hd "a"%char s =? "_")%char = false ->
                            no_underscore_run (c :: collapse_underscores s) = true).
  { intros c Hc. cbn [no_underscore_run]. rewrite IH, andb_true_r.
    pose proof (collapse_underscores_hd "a"%char s) as Hhd.
    destruct (collapse_underscores s) as [|b t]; [reflexivity|].
    simpl in Hhd. rewrite Hhd.
    destruct Hc as [-> | ->]; [reflexivity | rewrite andb_false_r; reflexivity]. }
  destruct (a =? "_")%char eqn:Ea.
  - destruct s as [|b s]; [reflexivity|].
    destruct (b =? "_")%char eqn:Eb; [exact IH|].
    apply Hcons. right. exact Eb.
  - apply Hcons. left. exact Ea.
Qed.

Lemma no_underscore_run_app a b :
  no_underscore_run (a ++ b) = true ->
  no_underscore_run a = true /\ no_underscore_run b = true.
Proof.
  induction a as [|c a IH]; [simpl; auto|].
  change ((c :: a) ++ b) with (c :: (a ++ b)). cbn [no_underscore_run].
  intros H. apply andb_true_iff in H. destruct H as [H1 H2].
  destruct (IH H2) as [Ha Hb]. split; [|exact Hb].
  rewrite Ha, andb_true_r. destruct a as [|c' a]; [reflexivity | exact H1].
Qed.

Lemma lstrip_chars_suffix cs s :
  exists pre, s = pre ++ lstrip_chars cs s.
Proof.
  induction s as [|c s [pre IH]]; [exists []; reflexivity|].
  simpl. destruct (member c cs).
  - exists (c :: pre). simpl. rewrite <- IH. reflexivity.
  - exists []. reflexivity.
Qed.

Lemma lstrip_chars_hd cs s c rest :
  lstrip_chars cs s = c :: rest -> member c cs = false.
Proof.
  induction s as [|a s IH]; simpl; [discriminate|].
  destruct (member a cs) eqn:E; [exact IH|].
  intros H. inversion H; subst. exact E.
Qed.

Lemma strip_chars_infix cs s :
  exists pre post, s = pre ++ strip_chars cs s ++ post.
Proof.
  unfold strip_chars, rstrip_chars.
  destruct (lstrip_chars_suffix cs s) as [pre Hpre].
  destruct (lstrip_chars_suffix cs (rev (lstrip_chars cs s))) as [pre' Hpre'].
  exists pre, (rev pre').
  rewrite <- rev_app_distr, <- Hpre', rev_involutive. exact Hpre.
Qed.

Lemma strip_chars_ends cs s :
  (forall c rest, strip_chars cs s = c :: rest -> member c cs = false) /\
  (forall c rest, strip_chars cs s = rest ++ [c] -> member c cs = false).
Proof.
  unfold strip_chars, rstrip_chars. split; intros c rest H.
  - destruct (lstrip_chars_suffix cs (rev (lstrip_chars cs s))) as [pre' Hpre'].
    apply (f_equal (@rev ascii)) in Hpre'.
    rewrite rev_involutive, rev_app_distr, H in Hpre'. simpl in Hpre'.
    eapply lstrip_chars_hd. exact Hpre'.
  - apply (f_equal (@rev ascii)) in H.
    rewrite rev_involutive, rev_app_distr in H. simpl in H.
    eapply lstrip_chars_hd. exact H.
Qed.

(** X15. [sanitize_filename] always gives a usable file-name part: the
    result is never empty, holds none of the characters the source removes
    and no space, neither starts nor ends with a dot, a space or an
    underscore, has no two underscores in a row, and is at most
    [max_length] characters long (four when the fallback 'clip' is used
    with a smaller limit). *)
Theorem sanitized_title_is_a_safe_file_name :
  forall (title : string) (max_length : nat),
    list_ascii_of_string (sanitize_filename title max_length) <> [] /\
    (forall c, In c (list_ascii_of_string (sanitize_filename title max_length)) ->
               member c FORBIDDEN = false /\ c <> " "%char) /\
    (forall c rest,
       list_ascii_of_string (sanitize_filename title max_length) = c :: rest ->
       member c STRIPPED = false) /\
    (forall c rest,
       list_ascii_of_string (sanitize_filename title max_length) = rest ++ [c] ->
       member c STRIPPED = false) /\
    no_underscore_run (list_ascii_of_string (sanitize_filename title max_length)) = true /\
    length (list_ascii_of_string (sanitize_filename title max_length))
    <= Nat.max max_length 4.
Proof.
  intros title max_length. unfold sanitize_filename.
  rewrite list_ascii_of_string_of_list_ascii.
  set (t := list_ascii_of_string title). unfold sanitize_chars.
  set (u := collapse_underscores (replace_spaces (remove_forbidden t))).
  assert (Hu : forall c, In c u -> member c FORBIDDEN = false /\ c <> " "%char).
  { intros c Hc. unfold u in Hc. apply collapse_underscores_In in Hc.
    unfold replace_spaces in Hc. apply in_map_iff in Hc.
    destruct Hc as (c0 & Hc0 & Hin). unfold remove_forbidden in Hin.
    apply filter_In in Hin. destruct Hin as [_ Hf]. apply negb_true_iff in Hf.
    destruct (Ascii.eqb_spec c0 " "%char) as [E|E]; subst c.
    - split; [reflexivity | discriminate].
    - split; [exact Hf | exact E]. }
  destruct (strip_chars_infix STRIPPED (firstn max_length u)) as (pre & post & Hdec).
  destruct (strip_chars_ends STRIPPED (firstn max_length u)) as [Hhd Hlast].
  destruct (strip_chars STRIPPED (firstn max_length u)) as [|c0 name] eqn:Hs.
  - simpl. split; [discriminate|]. split.
    { intros c [<-|[<-|[<-|[<-|[]]]]]; split; (reflexivity || discriminate). }
    split; [intros c rest E; inversion E; reflexivity|].
    split; [|split; [reflexivity | lia]].
    intros c rest E.
    change ["c"; "l"; "i"; "p"]%char with (["c"; "l"; "i"]%char ++ ["p"%char]) in E.
    apply app_inj_tail in E. destruct E as [_ <-]. reflexivity.
  - assert (Hin : forall c, In c (c0 :: name) -> In c u).
    { intros c Hc. rewrite <- (firstn_skipn max_length u).
      apply in_or_app. left. rewrite Hdec.
      apply in_or_app. right. apply in_or_app. left. exact Hc. }
    split; [discriminate|]. split; [intros c Hc; apply Hu, Hin, Hc|].
    split; [exact Hhd|]. split; [exact Hlast|]. split.
    + pose proof (collapse_underscores_no_run (replace_spaces (remove_forbidden t))) as Hrun.
      fold u in Hrun. rewrite <- (firstn_skipn max_length u) in Hrun.
      apply no_underscore_run_app in Hrun. destruct Hrun as [Hrun _].
      rewrite Hdec in Hrun. apply no_underscore_run_app in Hrun.
      destruct Hrun as [_ Hrun]. apply no_underscore_run_app in Hrun. tauto.
    + assert (Hlen : length (c0 :: name) <= length (firstn max_length u)).
      { rewrite Hdec. rewrite !length_app. lia. }
      pose proof (firstn_le_length max_length u). lia.
Qed.

(* --------------------------------------------------------------------- *)
(** ** Uploads to the object store                                        *)
(* --------------------------------------------------------------------- *)

Lemma string_app_nil_r (s : string) : (s ++ "")%string = s.
Proof. induction s as [|c s IH]; simpl; [reflexivity | rewrite IH; reflexivity]. Qed.

Lemma rev_string_rev_string (s a b : string) :
  rev_string (rev_string s a) b = rev_string a (s ++ b)%string.
Proof.
  revert a b; induction s as [|c s IH]; intros a b; simpl; [reflexivity|].
  rewrite IH. reflexivity.
Qed.

Lemma rev_string_involutive (s : string) :
  rev_string (rev_string s EmptyString) EmptyString = s.
Proof. rewrite rev_string_rev_string. simpl. apply string_app_nil_r. Qed.

Lemma lstrip_slash_prefix (s : string) :
  String.prefix "/" (R2.lstrip_slash s) = false.
Proof.
  induction s as [|c s IH]; simpl; [reflexivity|].
  destruct (Ascii.eqb_spec c "/"%char) as [E|E]; [exact IH|].
  cbn [String.prefix]. destruct (ascii_dec "/"%char c) as [E'|E']; [congruence | reflexivity].
Qed.

Lemma lstrip_slash_id (s : string) :
  String.prefix "/" s = false -> R2.lstrip_slash s = s.
Proof.
  destruct s as [|c s]; cbn [String.prefix R2.lstrip_slash]; [reflexivity|].
  destruct (Ascii.eqb_spec c "/"%char) as [E|E]; [|reflexivity].
  subst c. destruct (ascii_dec "/"%char "/"%char) as [_|N]; [|congruence].
  destruct s; discriminate.
Qed.

Lemma put_loop_spec env u local_path r2_key max_retries :
  forall remaining attempt log,
    attempt + remaining = max_retries ->
    exists puts,
      snd (R2.put_loop env u local_path r2_key max_retries remaining attempt log)
      = puts ++ log /\
      length puts <= remaining /\
      (forall e, In e puts -> e = R2.RPut r2_key) /\
      (forall res,
         fst (R2.put_loop env u local_path r2_key max_retries remaining attempt log)
         = Some res ->
         res = (r2_key, (R2.public_url u ++ "/" ++ r2_key)%string) /\
         1 <= length puts /\
         R2.put_object env (length log + (length puts - 1)) r2_key local_path = R2.PutOk /\
         forall i, i < length puts - 1 ->
                   R2.put_object env (length log + i) r2_key local_path
                   = R2.PutClientError) /\
      (forall j,
         j < remaining ->
         R2.put_object env (length log + j) r2_key local_path = R2.PutOk ->
         (forall i, i < j ->
                    R2.put_object env (length log + i) r2_key local_path
                    = R2.PutClientError) ->
         fst (R2.put_loop env u local_path r2_key max_retries remaining attempt log)
         = Some (r2_key, (R2.public_url u ++ "/" ++ r2_key)%string)).
Proof.
  induction remaining as [|n IH]; intros attempt log Hsum.
  - exists []. simpl. split; [reflexivity|]. split; [lia|]. split; [tauto|].
    split; [discriminate | intros j Hj; lia].
  - cbn [R2.put_loop].
    destruct (R2.put_object env (length log) r2_key local_path) eqn:Hput.
    + exists [R2.RPut r2_key]. simpl. split; [reflexivity|]. split; [lia|].
      split; [intros e [<-|[]]; reflexivity|]. split.
      * intros res E. inversion E; subst res. split; [reflexivity|].
        split; [lia|]. rewrite Nat.add_0_r. split; [exact Hput | intros i Hi; lia].
      * reflexivity.
    + destruct (Nat.ltb_spec attempt (max_retries - 1)) as [Hlt|Hge].
      * destruct (IH (S attempt) (R2.RPut r2_key :: log)) as (puts & Hlog & Hlen & Hall & Hres & Hconv);
          [lia|].
        exists (puts ++ [R2.RPut r2_key]).
        split; [rewrite Hlog, <- app_assoc; reflexivity|].
        split; [rewrite length_app; simpl; lia|].
        split; [intros e He; apply in_app_or in He; destruct He as [He|[<-|[]]]; auto|].
        split.
        -- intros res E. destruct (Hres res E) as (Hr & H1 & Hok & Hbefore).
           split; [exact Hr|]. rewrite length_app. simpl length.
           split; [lia|]. simpl length in Hok, Hbefore. split.
           ++ replace (length log + (length puts + 1 - 1))
                with (S (length log) + (length puts - 1)) by lia. exact Hok.
           ++ intros i Hi. destruct i as [|i]; [rewrite Nat.add_0_r; exact Hput|].
              replace (length log + S i) with (S (length log) + i) by lia.
              apply Hbefore. lia.
        -- intros j Hj Hok Hbefore. destruct j as [|j].
           ++ rewrite Nat.add_0_r in Hok. congruence.
           ++ apply (Hconv j); [lia | |].
              ** simpl length. replace (S (length log) + j) with (length log + S j) by lia.
                 exact Hok.
              ** intros i Hi. simpl length.
                 replace (S (length log) + i) with (length log + S i) by lia.
                 apply Hbefore. lia.
      * exists [R2.RPut r2_key]. simpl. split; [reflexivity|]. split; [lia|].
        split; [intros e [<-|[]]; reflexivity|]. split; [discriminate|].
        intros j Hj Hok Hbefore. destruct j as [|j]; [|lia].
        rewrite Nat.add_0_r in Hok. congruence.
    + exists [R2.RPut r2_key]. simpl. split; [reflexivity|]. split; [lia|].
      split; [intros e [<-|[]]; reflexivity|]. split; [discriminate|].
      intros j Hj Hok Hbefore. destruct j as [|j].
      * rewrite Nat.add_0_r in Hok. congruence.
      * specialize (Hbefore 0 ltac:(lia)). rewrite Nat.add_0_r in Hbefore. congruence.
Qed.

(** X16. [upload_file] is a bounded retry: it calls the store at most
    [max_retries] times and not at all when the local file is missing; it
    reports success exactly when some attempt within the budget succeeds
    after nothing but client errors, so an unexpected exception ends the
    upload at once; and a reported upload carries the key it was given and
    the URL made of the uploader's base, one slash and that key, the base
    never ending with a slash. *)
Theorem upload_is_a_bounded_retry :
  forall (env : R2.Env) (bucket url local_path r2_key : string)
         (max_retries : nat) (log : list R2.REvent),
    exists r puts,
      R2.upload_file env (R2.init bucket url) local_path r2_key max_retries log
      = (r, puts ++ log) /\
      length puts <= max_retries /\
      (forall e, In e puts -> e = R2.RPut r2_key) /\
      (R2.path_exists env local_path = false -> r = R2.Returned None /\ puts = []) /\
      (forall res,
         r = R2.Returned (Some res) ->
         res = (r2_key, (R2.rstrip_slash url ++ "/" ++ r2_key)%string) /\
         endswith (R2.rstrip_slash url) "/" = false /\
         (endswith url "/" = false -> R2.rstrip_slash url = url) /\
         R2.put_object env (length log + (length puts - 1)) r2_key local_path = R2.PutOk /\
         forall i, i < length puts - 1 ->
                   R2.put_object env (length log + i) r2_key local_path
                   = R2.PutClientError) /\
      (forall j,
         R2.path_exists env local_path = true ->
         R2.getsize env local_path <> None ->
         j < max_retries ->
         R2.put_object env (length log + j) r2_key local_path = R2.PutOk ->
         (forall i, i < j ->
                    R2.put_object env (length log + i) r2_key local_path
                    = R2.PutClientError) ->
         r = R2.Returned (Some (r2_key, (R2.rstrip_slash url ++ "/" ++ r2_key)%string))).
Proof.
  intros env bucket url local_path r2_key max_retries log. unfold R2.upload_file.
  destruct (R2.path_exists env local_path) eqn:Hex; simpl negb; cbv iota.
  - destruct (R2.getsize env local_path) as [size|] eqn:Hsize.
    + destruct (@put_loop_spec env (R2.init bucket url) local_path r2_key max_retries
                  max_retries 0 log eq_refl)
        as (puts & Hlog & Hlen & Hall & Hres & Hconv).
      destruct (R2.put_loop env (R2.init bucket url) local_path r2_key max_retries
                  max_retries 0 log) as [r log'].
      simpl in Hlog, Hres, Hconv. subst log'.
      exists (R2.Returned r), puts. split; [reflexivity|]. split; [exact Hlen|].
      split; [exact Hall|]. split; [discriminate|]. split.
      * intros res E. inversion E; subst r.
        destruct (Hres res eq_refl) as (Hr & _ & Hok & Hbefore).
        split; [exact Hr|]. split.
        { unfold endswith, R2.rstrip_slash. rewrite rev_string_involutive.
          apply lstrip_slash_prefix. }
        split; [|split; [exact Hok | exact Hbefore]].
        unfold endswith, R2.rstrip_slash. simpl rev_string at 1. intros Hno.
        rewrite lstrip_slash_id by exact Hno. apply rev_string_involutive.
      * intros j _ _ Hj Hok Hbefore. f_equal. apply (Hconv j); assumption.
    + exists R2.RaisedOSError, []. split; [reflexivity|]. split; [simpl; lia|].
      split; [intros e []|]. split; [discriminate|]. split; [discriminate|].
      intros j _ Hg. congruence.
  - exists (R2.Returned None), []. split; [reflexivity|]. split; [simpl; lia|].
    split; [intros e []|]. split; [auto|]. split; [discriminate|].
    intros j Hp. discriminate.
Qed.

Lemma upload_is_a_bounded_retry_witness :
  fst (R2.upload_file
         (R2.mkEnv (fun _ => true) (fun _ => Some 1000)
            (fun n _ _ => if n =? 0 then R2.PutClientError else R2.PutOk)
            (fun _ => Some []) (fun d f => (d ++ "/" ++ f)%string))
         (R2.init "bucket" "https://cdn.example/") "/tmp/a.mp4" "shorts/v/a.mp4" 3 [])
  = R2.Returned (Some ("shorts/v/a.mp4", "https://cdn.example/shorts/v/a.mp4"))%string.
Proof.
  destruct (upload_is_a_bounded_retry
              (R2.mkEnv (fun _ => true) (fun _ => Some 1000)
                 (fun n _ _ => if n =? 0 then R2.PutClientError else R2.PutOk)
                 (fun _ => Some []) (fun d f => (d ++ "/" ++ f)%string))
              "bucket" "https://cdn.example/" "/tmp/a.mp4" "shorts/v/a.mp4" 3 [])
    as (r & puts & H & _ & _ & _ & _ & Hconv).
  rewrite H. simpl.
  apply (Hconv 1); [reflexivity | discriminate | lia | reflexivity |].
  intros i Hi. replace i with 0 by lia. reflexivity.
Defined.

Lemma upload_file_result env u local_path r2_key max_retries log :
  exists puts,
    snd (R2.upload_file env u local_path r2_key max_retries log) = puts ++ log /\
    length puts <= max_retries /\
    forall res,
      fst (R2.upload_file env u local_path r2_key max_retries log)
      = R2.Returned (Some res) ->
      res = (r2_key, (R2.public_url u ++ "/" ++ r2_key)%string).
Proof.
  unfold R2.upload_file.
  destruct (R2.path_exists env local_path); simpl negb; cbv iota;
    [|exists []; simpl; split; [reflexivity|]; split; [lia | discriminate]].
  destruct (R2.getsize env local_path);
    [|exists []; simpl; split; [reflexivity|]; split; [lia | discriminate]].
  destruct (@put_loop_spec env u local_path r2_key max_retries max_retries 0 log eq_refl)
    as (puts & Hlog & Hlen & _ & Hres & _).
  destruct (R2.put_loop env u local_path r2_key max_retries max_retries 0 log)
    as [r log'].
  simpl in Hlog, Hres |- *. exists puts. split; [exact Hlog|]. split; [exact Hlen|].
  intros res E. inversion E; subst r. apply (Hres res eq_refl).
Qed.

Lemma batch_loop_spec env u shorts_dir video_id :
  forall names uploaded log res,
    fst (R2.batch_loop env u shorts_dir video_id names uploaded log) = R2.Returned res ->
    exists added puts,
      res = uploaded ++ added /\
      snd (R2.batch_loop env u shorts_dir video_id names uploaded log) = puts ++ log /\
      (forall f k url,
         In (f, k, url) added ->
         In f names /\ endswith f ".mp4" = true /\
         k = ("shorts/" ++ video_id ++ "/" ++ f)%string /\
         url = (R2.public_url u ++ "/" ++ k)%string) /\
      length added <= length (filter (fun f => endswith f ".mp4") names) /\
      length puts <= 3 * length (filter (fun f => endswith f ".mp4") names).
Proof.
  induction names as [|filename rest IH]; intros uploaded log res.
  - simpl. intros E. inversion E; subst res. exists [], [].
    rewrite app_nil_r. simpl. split; [reflexivity|]. split; [reflexivity|].
    split; [intros f k url []|]. split; lia.
  - cbn [R2.batch_loop filter].
    destruct (endswith filename ".mp4") eqn:Hmp4; simpl negb; cbv iota.
    + cbv zeta.
      destruct (upload_file_result env u (R2.path_join env shorts_dir filename)
                  ("shorts/" ++ video_id ++ "/" ++ filename)%string 3 log)
        as (puts1 & Hlog1 & Hlen1 & Hres1).
      destruct (R2.upload_file env u (R2.path_join env shorts_dir filename)
                  ("shorts/" ++ video_id ++ "/" ++ filename)%string 3 log)
        as [[[[key url]|]|] log1]; simpl in Hlog1, Hres1; subst log1.
      * specialize (Hres1 _ eq_refl). inversion Hres1; subst key url. intros E.
        destruct (IH _ _ _ E) as (added & puts & Hres & Hlog & Hall & Hlen & Hputs).
        exists ((filename,
                 ("shorts/" ++ video_id ++ "/" ++ filename)%string,
                 (R2.public_url u ++ "/" ++ "shorts/" ++ video_id ++ "/" ++ filename)%string)
                :: added), (puts ++ puts1).
        split; [rewrite Hres, <- app_assoc; reflexivity|].
        split; [rewrite Hlog, app_assoc; reflexivity|].
        split; [|split; [simpl; lia | rewrite length_app; simpl; lia]].
        intros f k url' [Heq|Hin].
        -- inversion Heq; subst. split; [left; reflexivity|]. auto.
        -- destruct (Hall f k url' Hin) as (H1 & H2). split; [right; exact H1 | exact H2].
      * intros E.
        destruct (IH _ _ _ E) as (added & puts & Hres & Hlog & Hall & Hlen & Hputs).
        exists added, (puts ++ puts1). split; [exact Hres|].
        split; [rewrite Hlog, app_assoc; reflexivity|].
        split; [|split; [simpl; lia | rewrite length_app; simpl; lia]].
        intros f k url' Hin.
        destruct (Hall f k url' Hin) as (H1 & H2). split; [right; exact H1 | exact H2].
      * discriminate.
    + intros E.
      destruct (IH _ _ _ E) as (added & puts & Hres & Hlog & Hall & Hlen & Hputs).
      exists added, puts. split; [exact Hres|]. split; [exact Hlog|].
      split; [|split; assumption].
      intros f k url' Hin.
      destruct (Hall f k url' Hin) as (H1 & H2). split; [right; exact H1 | exact H2].
Qed.

(** X17. [upload_shorts_batch] uploads clips only: every entry it returns
    names a file of the directory listing whose name ends in '.mp4', with
    the key 'shorts/<video_id>/<filename>' and the URL of that key; it
    returns at most one entry per such file and calls the store at most
    three times for each; and when the directory does not exist it returns
    the empty list without any call. *)
Theorem batch_uploads_only_the_clips :
  forall (env : R2.Env) (u : R2.R2Uploader) (shorts_dir video_id : string)
         (log : list R2.REvent) (res : list (string * string * string)),
    fst (R2.upload_shorts_batch env u shorts_dir video_id log) = R2.Returned res ->
    exists names puts,
      snd (R2.upload_shorts_batch env u shorts_dir video_id log) = puts ++ log /\
      (R2.path_exists env shorts_dir = false -> res = [] /\ puts = []) /\
      (R2.path_exists env shorts_dir = true -> R2.listdir env shorts_dir = Some names) /\
      (forall f k url,
         In (f, k, url) res ->
         In f names /\ endswith f ".mp4" = true /\
         k = ("shorts/" ++ video_id ++ "/" ++ f)%string /\
         url = (R2.public_url u ++ "/" ++ k)%string) /\
      length res <= length (filter (fun f => endswith f ".mp4") names) /\
      length puts <= 3 * length (filter (fun f => endswith f ".mp4") names).
Proof.
  intros env u shorts_dir video_id log res. unfold R2.upload_shorts_batch.
  destruct (R2.path_exists env shorts_dir); simpl negb; cbv iota.
  - destruct (R2.listdir env shorts_dir) as [names|]; [|discriminate].
    intros E.
    destruct (@batch_loop_spec env u shorts_dir video_id names [] log res E)
      as (added & puts & Hres & Hlog & Hall & Hlen & Hputs).
    simpl in Hres. subst added. exists names, puts.
    split; [exact Hlog|]. split; [discriminate|]. split; [reflexivity|].
    split; [exact Hall|]. split; assumption.
  - simpl. intros E. inversion E; subst res. exists [], [].
    split; [reflexivity|]. split; [auto|]. split; [discriminate|].
    split; [intros f k url []|]. simpl. split; lia.
Qed.

Lemma batch_uploads_only_the_clips_witness :
  exists res,
    fst (R2.upload_shorts_batch
           (R2.mkEnv (fun _ => true) (fun _ => Some 1000) (fun _ _ _ => R2.PutOk)
              (fun _ => Some ["a.mp4"; "notes.txt"; "b.mp4"]%string)
              (fun d f => (d ++ "/" ++ f)%string))
           (R2.init "bucket" "https://cdn.example/") "/tmp/shorts" "vid" [])
    = R2.Returned res /\
    length res <= 2.
Proof.
  eexists. split; [reflexivity|].
  destruct (@batch_uploads_only_the_clips
              (R2.mkEnv (fun _ => true) (fun _ => Some 1000) (fun _ _ _ => R2.PutOk)
                 (fun _ => Some ["a.mp4"; "notes.txt"; "b.mp4"]%string)
                 (fun d f => (d ++ "/" ++ f)%string))
              (R2.init "bucket" "https://cdn.example/") "/tmp/shorts" "vid" [] _ eq_refl)
    as (names & puts & _ & _ & Hnames & _ & Hlen & _).
  specialize (Hnames eq_refl). inversion Hnames; subst names. exact Hlen.
Defined.

(* --------------------------------------------------------------------- *)
(** ** Discovered videos                                                  *)
(* --------------------------------------------------------------------- *)

Lemma save_loop_spec db :
  forall vs n table st,
    exists new,
      snd (Playlist.save_loop db vs n table st) = table ++ new /\
      Playlist.inserted (fst (Playlist.save_loop db vs n table st))
      = Playlist.inserted st + length new /\
      Playlist.inserted (fst (Playlist.save_loop db vs n table st))
      + Playlist.skipped (fst (Playlist.save_loop db vs n table st))
      + Playlist.failed (fst (Playlist.save_loop db vs n table st))
      = Playlist.inserted st + Playlist.skipped st + Playlist.failed st + length vs /\
      (forall r, In r new -> exists v, In v vs /\ r = Playlist.new_row v) /\
      (NoDup (map video_id table) -> NoDup (map video_id (table ++ new))).
Proof.
  induction vs as [|video rest IH]; intros n table st.
  - exists []. simpl. rewrite app_nil_r. split; [reflexivity|]. split; [lia|].
    split; [lia|]. split; [intros r [] | auto].
  - cbn [Playlist.save_loop].
    assert (Hskip : forall st1,
               Playlist.inserted st1 = Playlist.inserted st ->
               Playlist.inserted st1 + Playlist.skipped st1 + Playlist.failed st1
               = Playlist.inserted st + Playlist.skipped st + Playlist.failed st + 1 ->
               exists new,
                 snd (Playlist.save_loop db rest (S n) table st1) = table ++ new /\
                 Playlist.inserted (fst (Playlist.save_loop db rest (S n) table st1))
                 = Playlist.inserted st + length new /\
                 Playlist.inserted (fst (Playlist.save_loop db rest (S n) table st1))
                 + Playlist.skipped (fst (Playlist.save_loop db rest (S n) table st1))
                 + Playlist.failed (fst (Playlist.save_loop db rest (S n) table st1))
                 = Playlist.inserted st + Playlist.skipped st + Playlist.failed st
                   + length (video :: rest) /\
                 (forall r, In r new ->
                            exists v, In v (video :: rest) /\ r = Playlist.new_row v) /\
                 (NoDup (map video_id table) -> NoDup (map video_id (table ++ new)))).
    { intros st1 E1 E2.
      destruct (IH (S n) table st1) as (new & H1 & H2 & H3 & H4 & H5).
      exists new. split; [exact H1|]. split; [lia|]. split; [simpl length; lia|].
      split; [|exact H5].
      intros r Hr. destruct (H4 r Hr) as (v & Hv & E). exists v. split; [right; exact Hv | exact E]. }
    destruct (Playlist.query_raises db n); [apply Hskip; simpl; lia|].
    destruct (existsb (fun r => (video_id r =? Playlist.info_video_id video)%string) table)
      eqn:Hex; [apply Hskip; simpl; lia|].
    destruct (Playlist.commit_of db n); [|apply Hskip; simpl; lia | apply Hskip; simpl; lia].
    destruct (IH (S n) (table ++ [Playlist.new_row video])
                (Playlist.mkSaveStats (Playlist.inserted st + 1) (Playlist.skipped st)
                   (Playlist.failed st)))
      as (new & H1 & H2 & H3 & H4 & H5).
    exists (Playlist.new_row video :: new).
    split; [rewrite H1, <- app_assoc; reflexivity|].
    split; [rewrite H2; simpl; lia|]. split; [rewrite H3; simpl; lia|]. split.
    + intros r [<-|Hr]; [exists video; split; [left|]; reflexivity|].
      destruct (H4 r Hr) as (v & Hv & E). exists v. split; [right; exact Hv | exact E].
    + intros Hnd. change (Playlist.new_row video :: new)
        with ([Playlist.new_row video] ++ new).
      rewrite app_assoc. apply H5. rewrite map_app. simpl.
      apply NoDup_app; [exact Hnd | repeat constructor; simpl; tauto|].
      intros a Ha [<-|[]]. apply in_map_iff in Ha. destruct Ha as (r & Er & Hr).
      assert (Hcontra : existsb (fun r => (video_id r =? Playlist.info_video_id video)%string)
                          table = true).
      { apply existsb_exists. exists r. split; [exact Hr|].
        apply String.eqb_eq. exact Er. }
      congruence.
Qed.

(** X18. [save_videos_to_db] accounts for every video exactly once as
    inserted, skipped or failed; it only appends rows and appends as many
    as it reports inserted; every new row is one of the given videos with
    its four phase statuses pending and no clip counted; and it never
    stores a video id twice, so a table with unique video ids keeps them
    unique, also when the same video occurs twice in the list. *)
Theorem saving_accounts_for_every_video :
  forall (db : Playlist.Db) (vs : list Playlist.VideoInfo)
         (table : list PlaylistVideo),
    exists new,
      snd (Playlist.save_videos_to_db db vs table) = table ++ new /\
      length new = Playlist.inserted (fst (Playlist.save_videos_to_db db vs table)) /\
      Playlist.inserted (fst (Playlist.save_videos_to_db db vs table))
      + Playlist.skipped (fst (Playlist.save_videos_to_db db vs table))
      + Playlist.failed (fst (Playlist.save_videos_to_db db vs table))
      = length vs /\
      (forall r, In r new ->
         all_pending r /\ shorts_count r = 0 /\
         exists v, In v vs /\ video_id r = Playlist.info_video_id v /\
                   video_url r = Playlist.info_url v) /\
      (NoDup (map video_id table) ->
       NoDup (map video_id (snd (Playlist.save_videos_to_db db vs table)))).
Proof.
  intros db vs table. unfold Playlist.save_videos_to_db.
  destruct (save_loop_spec db vs 0 table (Playlist.mkSaveStats 0 0 0))
    as (new & H1 & H2 & H3 & H4 & H5).
  exists new. split; [exact H1|]. split; [rewrite H2; reflexivity|].
  split; [rewrite H3; reflexivity|]. split; [|rewrite H1; exact H5].
  intros r Hr. destruct (H4 r Hr) as (v & Hv & ->).
  split; [repeat split|]. split; [reflexivity|]. exists v. auto.
Qed.

Lemma saving_accounts_for_every_video_witness :
  NoDup (map video_id
           (snd (Playlist.save_videos_to_db
                   (Playlist.mkDb (fun _ => false) (fun _ => Playlist.Committed))
                   [Playlist.mkVideoInfo "a" "https://youtube.com/watch?v=a";
                    Playlist.mkVideoInfo "vid" "https://youtube.com/watch?v=vid";
                    Playlist.mkVideoInfo "a" "https://youtube.com/watch?v=a"]
                   [Scenario.fresh_item]))).
Proof.
  destruct (saving_accounts_for_every_video
              (Playlist.mkDb (fun _ => false) (fun _ => Playlist.Committed))
              [Playlist.mkVideoInfo "a" "https://youtube.com/watch?v=a";
               Playlist.mkVideoInfo "vid" "https://youtube.com/watch?v=vid";
               Playlist.mkVideoInfo "a" "https://youtube.com/watch?v=a"]
              [Scenario.fresh_item]) as (new & _ & _ & _ & _ & Hnd).
  apply Hnd. simpl. repeat constructor; simpl; tauto.
Defined.

Lemma saving_rows db (vs : list Playlist.VideoInfo) table :
  exists new,
    snd (Playlist.save_videos_to_db db vs table) = table ++ new /\
    length new <= length vs.
Proof.
  unfold Playlist.save_videos_to_db.
  destruct (save_loop_spec db vs 0 table (Playlist.mkSaveStats 0 0 0))
    as (new & H1 & H2 & H3 & _).
  exists new. split; [exact H1|]. simpl in H2, H3. lia.
Qed.

Lemma apply_limit_prefix limit (vs : list Playlist.VideoInfo) :
  exists k, Playlist.apply_limit limit vs = firstn k vs.
Proof.
  unfold Playlist.apply_limit. destruct limit as [l|]; [|exists (length vs); symmetry; apply firstn_all].
  destruct (l =? 0)%Z; [exists (length vs); symmetry; apply firstn_all|].
  destruct (l <? Z.of_nat (length vs))%Z; [|exists (length vs); symmetry; apply firstn_all].
  destruct (0 <=? l)%Z; eexists; reflexivity.
Qed.

(** X19. The discovery script saves a prefix of the extracted list: with a
    positive limit it adds at most that many rows, whereas a limit of zero
    is no limit at all (it behaves as if none was given); and it exits
    with code 0 exactly when the list was not empty and at least one video
    was inserted or found already stored. *)
Theorem limit_caps_the_rows_added :
  forall (db : Playlist.Db) (extracted : list Playlist.VideoInfo)
         (limit : option Z) (table : list PlaylistVideo),
    (exists k new,
       Playlist.apply_limit limit extracted = firstn k extracted /\
       snd (Playlist.main db extracted limit table) = table ++ new /\
       length new <= length (Playlist.apply_limit limit extracted) /\
       (forall l, limit = Some l -> (0 < l)%Z -> length new <= Z.to_nat l)) /\
    Playlist.main db extracted (Some 0%Z) table = Playlist.main db extracted None table /\
    (fst (Playlist.main db extracted limit table) = 0 <->
     extracted <> [] /\
     0 < Playlist.inserted
           (fst (Playlist.save_videos_to_db db (Playlist.apply_limit limit extracted) table))
         + Playlist.skipped
             (fst (Playlist.save_videos_to_db db (Playlist.apply_limit limit extracted)
                     table))).
Proof.
  intros db extracted limit table.
  destruct (apply_limit_prefix limit extracted) as [k Hk].
  destruct (saving_rows db (Playlist.apply_limit limit extracted) table)
    as (new & Hnew & Hlen).
  assert (Hcap : forall l, limit = Some l -> (0 < l)%Z ->
                           length (Playlist.apply_limit limit extracted) <= Z.to_nat l).
  { intros l -> Hl. unfold Playlist.apply_limit.
    destruct (Z.eqb_spec l 0); [lia|].
    destruct (Z.ltb_spec l (Z.of_nat (length extracted))); [|lia].
    destruct (Z.leb_spec 0 l); [|lia]. apply firstn_le_length. }
  split; [|split; [reflexivity|]].
  - unfold Playlist.main. destruct extracted as [|v rest].
    + exists k, []. rewrite app_nil_r. split; [exact Hk|]. split; [reflexivity|].
      split; [simpl; lia | intros; simpl; lia].
    + exists k, new. split; [exact Hk|].
      destruct (Playlist.save_videos_to_db db (Playlist.apply_limit limit (v :: rest)) table)
        as [st table'].
      simpl in Hnew, Hlen. split.
      * destruct (0 <? Playlist.inserted st); [exact Hnew|].
        destruct (0 <? Playlist.skipped st); exact Hnew.
      * split; [exact Hlen|]. intros l Hl Hpos. specialize (Hcap l Hl Hpos). lia.
  - unfold Playlist.main. destruct extracted as [|v rest].
    + simpl. split; [discriminate | intros [H _]; congruence].
    + destruct (Playlist.save_videos_to_db db (Playlist.apply_limit limit (v :: rest)) table)
        as [st table'].
      simpl fst.
      destruct (Nat.ltb_spec 0 (Playlist.inserted st)).
      * simpl. split; [intros _; split; [discriminate | lia] | reflexivity].
      * destruct (Nat.ltb_spec 0 (Playlist.skipped st)); simpl.
        -- split; [intros _; split; [discriminate | lia] | reflexivity].
        -- split; [discriminate | intros [_ Hpos]; lia].
Qed.

Lemma limit_caps_the_rows_added_witness :
  length (snd (Playlist.main
                 (Playlist.mkDb (fun _ => false) (fun _ => Playlist.Committed))
                 [Playlist.mkVideoInfo "a" "u"; Playlist.mkVideoInfo "b" "u";
                  Playlist.mkVideoInfo "c" "u"]
                 (Some 2%Z) [])) <= 2.
Proof.
  destruct (limit_caps_the_rows_added
              (Playlist.mkDb (fun _ => false) (fun _ => Playlist.Committed))
              [Playlist.mkVideoInfo "a" "u"; Playlist.mkVideoInfo "b" "u";
               Playlist.mkVideoInfo "c" "u"]
              (Some 2%Z) []) as ((k & new & _ & Hnew & _ & Hcap) & _).
  rewrite Hnew. simpl. apply (Hcap 2%Z eq_refl). lia.
Defined.

(* --------------------------------------------------------------------- *)
(** ** The run as a whole                                                 *)
(* --------------------------------------------------------------------- *)

Import Outcome.

Lemma cuts_only (cuts : list MEvent) :
  forallb is_cut cuts = true ->
  (forall url ok, ~ In (MDownload url ok) cuts) /\
  (forall f ok, ~ In (MUpload f ok) cuts) /\
  (forall p, ~ In (MRemove p) cuts).
Proof.
  intros H. rewrite forallb_forall in H.
  split; [|split]; intros; intros Hin; apply H in Hin; discriminate.
Qed.

Lemma uploads_only (ups : list MEvent) :
  forallb is_upload ups = true ->
  (forall url ok, ~ In (MDownload url ok) ups) /\
  (forall f ok, ~ In (MCut f ok) ups) /\
  (forall p, ~ In (MRemove p) ups).
Proof.
  intros H. rewrite forallb_forall in H.
  split; [|split]; intros; intros Hin; apply H in Hin; discriminate.
Qed.

Lemma upload_loop_events env vid :
  forall shorts w,
    exists ups,
      mlog (snd (upload_loop env vid shorts w)) = ups ++ mlog w /\
      forall e, In e ups ->
                exists sh ok, In sh shorts /\ e = MUpload (short_filename sh) ok.
Proof.
  induction shorts as [|short rest IH]; intros w.
  - exists []. simpl. split; [reflexivity | intros e []].
  - cbn [upload_loop]. cbv zeta.
    set (key := ("shorts/" ++ vid ++ "/" ++ short_filename short)%string).
    set (ok := upload_succeeds env (length (mlog w)) key).
    set (w1 := set_mlog w (MUpload (short_filename short) ok :: mlog w)).
    assert (Hnext : forall w2,
               mlog w2 = MUpload (short_filename short) ok :: mlog w ->
               exists ups,
                 mlog (snd (upload_loop env vid rest w2)) = ups ++ mlog w /\
                 forall e, In e ups ->
                           exists sh ok', In sh (short :: rest) /\
                                          e = MUpload (short_filename sh) ok').
    { intros w2 Hw2. destruct (IH w2) as (ups & Hlog & Hall).
      exists (ups ++ [MUpload (short_filename short) ok]).
      split; [rewrite Hlog, Hw2, <- app_assoc; reflexivity|].
      intros e He. apply in_app_or in He. destruct He as [He|[<-|[]]].
      - destruct (Hall e He) as (sh & ok' & Hsh & ->). exists sh, ok'.
        split; [right; exact Hsh | reflexivity].
      - exists short, ok. split; [left; reflexivity | reflexivity]. }
    destruct ok eqn:Hok.
    + destruct (video_record vid short key (public_url env ++ "/" ++ key)) as [v|e].
      * apply Hnext. reflexivity.
      * exists [MUpload (short_filename short) true]. split; [reflexivity|].
        intros e0 [<-|[]]. exists short, true. split; [left; reflexivity | reflexivity].
    + apply Hnext. reflexivity.
Qed.

Lemma cut_and_upload_outcome env video_path segments w :
  untouched (stats w) ->
  exists events,
    mlog (snd (cut_and_upload env video_path segments w)) = events ++ mlog w /\
    alog (snd (cut_and_upload env video_path segments w)) = alog w /\
    transcript_status (item (snd (cut_and_upload env video_path segments w)))
    = transcript_status (item w) /\
    download_status (item (snd (cut_and_upload env video_path segments w)))
    = download_status (item w) /\
    analysis_status (item (snd (cut_and_upload env video_path segments w)))
    = analysis_status (item w) /\
    stats_skipped (stats (snd (cut_and_upload env video_path segments w))) = false /\
    (forall url ok, ~ In (MDownload url ok) events) /\
    (forall f ok, In (MUpload f ok) events ->
       In (MCut f true) events /\
       conversion_status (item (snd (cut_and_upload env video_path segments w)))
       = completed) /\
    (success (stats (snd (cut_and_upload env video_path segments w))) = true ->
       fst (cut_and_upload env video_path segments w) = Ok tt /\
       conversion_status (item (snd (cut_and_upload env video_path segments w)))
       = completed /\
       1 <= shorts_count (item (snd (cut_and_upload env video_path segments w))) /\
       error (stats (snd (cut_and_upload env video_path segments w))) = None /\
       In (MRemove video_path) events) /\
    (success (stats (snd (cut_and_upload env video_path segments w))) = false ->
       is_ok (fst (cut_and_upload env video_path segments w)) = true ->
       error (stats (snd (cut_and_upload env video_path segments w)))
       = Some (Message "No shorts created") /\
       videos (snd (cut_and_upload env video_path segments w)) = videos w) /\
    (is_ok (fst (cut_and_upload env video_path segments w)) = false ->
       success (stats (snd (cut_and_upload env video_path segments w))) = false).
Proof.
  intros (Hs & He & Hk). unfold cut_and_upload.
  destruct (cut_loop_spec env (video_id (item w)) video_path segments 1 [] (mlog w))
    as (cuts & Hlog & Hcuts & Hres).
  destruct (cut_loop env (video_id (item w)) video_path segments 1 [] (mlog w))
    as [rc log]. simpl in Hlog, Hres. subst log.
  destruct (cuts_only cuts Hcuts) as (Hnodl & Hnoup & Hnorm).
  destruct rc as [[|sh created]|e].
  - exists cuts. simpl. rewrite Hs, Hk.
    split; [reflexivity|]. split; [reflexivity|]. split; [reflexivity|].
    split; [reflexivity|]. split; [reflexivity|]. split; [reflexivity|].
    split; [exact Hnodl|].
    split; [intros f ok Hin; exfalso; exact (Hnoup f ok Hin)|].
    split; [discriminate|]. split; [auto | discriminate].
  - destruct (Hres (sh :: created) eq_refl) as (addedc & Hc0 & Hlen & Hincut).
    simpl in Hc0. subst addedc.
    set (w2 := commit (update_item (set_mlog w (cuts ++ mlog w)) (fun i =>
                 set_shorts_count (set_conversion_status i completed)
                   (length (sh :: created))))).
    destruct (upload_loop_spec env (video_id (item w)) (sh :: created) w2)
      as ((Hi & _ & _ & _ & Hal & _ & Hsu & Her & Hsk) & _ & ups' & _ & Hmlog' & Hups & _).
    destruct (upload_loop_events env (video_id (item w)) (sh :: created) w2)
      as (ups & Hmlog & Hev).
    rewrite Hmlog in Hmlog'. apply app_inv_tail in Hmlog'. subst ups'.
    destruct (uploads_only ups Hups) as (Hnodl' & _ & _).
    assert (Hup : forall f ok, In (MUpload f ok) (ups ++ cuts) -> In (MCut f true) (ups ++ cuts)).
    { intros f ok Hin. apply in_app_or in Hin. destruct Hin as [Hin|Hin].
      - destruct (Hev _ Hin) as (sh' & ok' & Hsh & E). inversion E; subst.
        apply in_or_app. right. apply Hincut. exact Hsh.
      - exfalso. exact (Hnoup f ok Hin). }
    assert (Hdl : forall url ok, ~ In (MDownload url ok) (ups ++ cuts)).
    { intros url ok Hin. apply in_app_or in Hin. destruct Hin as [Hin|Hin].
      - exact (Hnodl' url ok Hin).
      - exact (Hnodl url ok Hin). }
    destruct (upload_loop env (video_id (item w)) (sh :: created) w2) as [ru w3].
    simpl in Hi, Hal, Hsu, Her, Hsk, Hmlog.
    destruct ru as [u|e]; simpl fst; simpl snd.
    + exists (MRemove video_path :: ups ++ cuts). simpl.
      rewrite Hmlog, Hi, Hal, Her, Hsk, <- app_assoc. simpl.
      split; [reflexivity|]. split; [reflexivity|]. split; [reflexivity|].
      split; [reflexivity|]. split; [reflexivity|]. split; [exact Hk|].
      split; [intros url ok [E|Hin]; [discriminate | exact (Hdl url ok Hin)]|].
      split.
      { intros f ok [E|Hin]; [discriminate|].
        split; [right; exact (Hup f ok Hin) | reflexivity]. }
      split; [|split; discriminate].
      intros _. destruct u. split; [reflexivity|]. split; [reflexivity|].
      split; [lia|]. split; [exact He | left; reflexivity].
    + exists (ups ++ cuts). rewrite Hmlog, Hi, Hal, Hsu, Hsk, <- app_assoc. simpl.
      split; [reflexivity|]. split; [reflexivity|]. split; [reflexivity|].
      split; [reflexivity|]. split; [reflexivity|]. split; [exact Hk|].
      split; [exact Hdl|].
      split; [intros f ok Hin; split; [exact (Hup f ok Hin) | reflexivity]|].
      rewrite Hs. split; [discriminate|]. split; [discriminate | reflexivity].
  - exists cuts. simpl. rewrite Hs, Hk.
    split; [reflexivity|]. split; [reflexivity|]. split; [reflexivity|].
    split; [reflexivity|]. split; [reflexivity|]. split; [reflexivity|].
    split; [exact Hnodl|].
    split; [intros f ok Hin; exfalso; exact (Hnoup f ok Hin)|].
    split; [discriminate|]. split; [discriminate | reflexivity].
Qed.

Lemma after_download_outcome env transcript video_path w :
  untouched (stats w) ->
  exists events,
    mlog (snd (after_download env transcript video_path w)) = events ++ mlog w /\
    transcript_status (item (snd (after_download env transcript video_path w)))
    = transcript_status (item w) /\
    (forall url ok, ~ In (MDownload url ok) events) /\
    (forall f ok, In (MCut f ok) events ->
       analysis_status (item (snd (after_download env transcript video_path w)))
       = completed) /\
    (forall f ok, In (MUpload f ok) events ->
       In (MCut f true) events /\
       conversion_status (item (snd (after_download env transcript video_path w)))
       = completed) /\
    (success (stats (snd (after_download env transcript video_path w))) = true ->
       fst (after_download env transcript video_path w) = Ok tt /\
       download_status (item (snd (after_download env transcript video_path w)))
       = download_status (item w) /\
       analysis_status (item (snd (after_download env transcript video_path w)))
       = completed /\
       conversion_status (item (snd (after_download env transcript video_path w)))
       = completed /\
       1 <= shorts_count (item (snd (after_download env transcript video_path w))) /\
       error (stats (snd (after_download env transcript video_path w))) = None /\
       stats_skipped (stats (snd (after_download env transcript video_path w))) = false) /\
    (success (stats (snd (after_download env transcript video_path w))) = false ->
       is_ok (fst (after_download env transcript video_path w)) = true ->
       (exists m, error (stats (snd (after_download env transcript video_path w)))
                  = Some (Message m)) /\
       videos (snd (after_download env transcript video_path w)) = videos w) /\
    (is_ok (fst (after_download env transcript video_path w)) = false ->
       success (stats (snd (after_download env transcript video_path w))) = false /\
       stats_skipped (stats (snd (after_download env transcript video_path w))) = false) /\
    (stats_skipped (stats (snd (after_download env transcript video_path w))) = true ->
       later_phases_skipped (item (snd (after_download env transcript video_path w))) /\
       success (stats (snd (after_download env transcript video_path w))) = false /\
       videos (snd (after_download env transcript video_path w)) = videos w /\
       events = [MRemove video_path]).
Proof.
  intros (Hs & He & Hk). unfold after_download.
  destruct (check_video_availability (ai env) (video_id (item w)) (key_manager w) (alog w))
    as [[is_available|e] st].
  - destruct (truthy is_available); cbn [negb].
    + destruct (analyze_transcript (ai env) (analysis_prompt env transcript)
                  (key_manager (set_ai w st)) (alog (set_ai w st)))
        as [[[[|seg segs]|]|e] st2].
      * exists []. simpl. rewrite Hs, Hk.
        split; [reflexivity|]. split; [reflexivity|]. split; [auto|].
        split; [intros f ok []|]. split; [intros f ok []|].
        split; [discriminate|]. split; [eauto|]. split; discriminate.
      * set (w3 := commit (update_item (set_ai (set_ai w st) st2)
                             (fun i => set_analysis_status i completed))).
        destruct (@cut_and_upload_outcome env video_path (seg :: segs) w3
                    (conj Hs (conj He Hk)))
          as (events & Hlog & _ & Ht & Hd & Ha & Hsk & Hnodl & Hup & Hsucc & Hfail & Hraise).
        exists events. split; [exact Hlog|]. split; [exact Ht|]. split; [exact Hnodl|].
        split; [intros f ok _; exact Ha|]. split; [exact Hup|].
        split.
        { intros H. destruct (Hsucc H) as (H1 & H2 & H3 & H4 & _).
          split; [exact H1|]. split; [exact Hd|]. split; [exact Ha|].
          split; [exact H2|]. split; [exact H3|]. split; [exact H4 | exact Hsk]. }
        split.
        { intros H1 H2. destruct (Hfail H1 H2) as [H3 H4]. split; [eauto | exact H4]. }
        split; [intros H; split; [exact (Hraise H) | exact Hsk]|]. rewrite Hsk. discriminate.
      * exists []. simpl. rewrite Hs, Hk.
        split; [reflexivity|]. split; [reflexivity|]. split; [auto|].
        split; [intros f ok []|]. split; [intros f ok []|].
        split; [discriminate|]. split; [eauto|]. split; discriminate.
      * exists []. simpl. rewrite Hs, Hk.
        split; [reflexivity|]. split; [reflexivity|]. split; [auto|].
        split; [intros f ok []|]. split; [intros f ok []|].
        split; [discriminate|]. split; [discriminate|]. split; [auto | discriminate].
    + exists [MRemove video_path]. simpl. rewrite Hs.
      split; [reflexivity|]. split; [reflexivity|].
      split; [intros url ok [E|[]]; discriminate|].
      split; [intros f ok [E|[]]; discriminate|].
      split; [intros f ok [E|[]]; discriminate|].
      split; [discriminate|]. split; [eauto|]. split; [discriminate|].
      intros _. split; [repeat split|]. auto.
  - exists []. simpl. rewrite Hs, Hk.
    split; [reflexivity|]. split; [reflexivity|]. split; [auto|].
    split; [intros f ok []|]. split; [intros f ok []|].
    split; [discriminate|]. split; [discriminate|]. split; [auto | discriminate].
Qed.

Lemma process_steps_outcome env w :
  untouched (stats w) ->
  exists events,
    mlog (snd (process_steps env w)) = events ++ mlog w /\
    (events = [] \/
     (transcript_status (item (snd (process_steps env w))) = completed /\
      exists ok rest, events = rest ++ [MDownload (video_url (item w)) ok])) /\
    (alog (snd (process_steps env w)) = alog w \/
     In (MDownload (video_url (item w)) true) events) /\
    (forall f ok, In (MCut f ok) events ->
       analysis_status (item (snd (process_steps env w))) = completed) /\
    (forall f ok, In (MUpload f ok) events ->
       In (MCut f true) events /\
       conversion_status (item (snd (process_steps env w))) = completed) /\
    (success (stats (snd (process_steps env w))) = true ->
       fst (process_steps env w) = Ok tt /\
       all_completed (item (snd (process_steps env w))) /\
       1 <= shorts_count (item (snd (process_steps env w))) /\
       error (stats (snd (process_steps env w))) = None /\
       stats_skipped (stats (snd (process_steps env w))) = false) /\
    (success (stats (snd (process_steps env w))) = false ->
       is_ok (fst (process_steps env w)) = true ->
       (exists m, error (stats (snd (process_steps env w))) = Some (Message m)) /\
       videos (snd (process_steps env w)) = videos w) /\
    (is_ok (fst (process_steps env w)) = false ->
       success (stats (snd (process_steps env w))) = false /\
       stats_skipped (stats (snd (process_steps env w))) = false) /\
    (stats_skipped (stats (snd (process_steps env w))) = true ->
       later_phases_skipped (item (snd (process_steps env w))) /\
       success (stats (snd (process_steps env w))) = false /\
       videos (snd (process_steps env w)) = videos w /\
       forall f ok, ~ In (MCut f ok) events).
Proof.
  intros (Hs & He & Hk). unfold process_steps.
  set (w1 := commit (update_item w (fun i => set_transcript_status i fetching))).
  destruct (fetch_transcript_with_retry (transcripts env) (video_id (item w1)) 3 (tstate w1))
    as [r ts].
  set (w2 := set_tstate w1 ts).
  assert (Hskip : forall msg err why,
    exists events,
      mlog (skip_no_transcript w2 msg err why) = events ++ mlog w /\
      (events = [] \/
       (transcript_status (item (skip_no_transcript w2 msg err why)) = completed /\
        exists ok rest, events = rest ++ [MDownload (video_url (item w)) ok])) /\
      (alog (skip_no_transcript w2 msg err why) = alog w \/
       In (MDownload (video_url (item w)) true) events) /\
      (forall f ok, In (MCut f ok) events ->
         analysis_status (item (skip_no_transcript w2 msg err why)) = completed) /\
      (forall f ok, In (MUpload f ok) events ->
         In (MCut f true) events /\
         conversion_status (item (skip_no_transcript w2 msg err why)) = completed) /\
      (success (stats (skip_no_transcript w2 msg err why)) = true ->
         Ok tt = Ok tt /\
         all_completed (item (skip_no_transcript w2 msg err why)) /\
         1 <= shorts_count (item (skip_no_transcript w2 msg err why)) /\
         error (stats (skip_no_transcript w2 msg err why)) = None /\
         stats_skipped (stats (skip_no_transcript w2 msg err why)) = false) /\
      (success (stats (skip_no_transcript w2 msg err why)) = false ->
         is_ok (Ok tt) = true ->
         (exists m, error (stats (skip_no_transcript w2 msg err why)) = Some (Message m)) /\
         videos (skip_no_transcript w2 msg err why) = videos w) /\
      (is_ok (Ok tt) = false ->
         success (stats (skip_no_transcript w2 msg err why)) = false /\
         stats_skipped (stats (skip_no_transcript w2 msg err why)) = false) /\
      (stats_skipped (stats (skip_no_transcript w2 msg err why)) = true ->
         later_phases_skipped (item (skip_no_transcript w2 msg err why)) /\
         success (stats (skip_no_transcript w2 msg err why)) = false /\
         videos (skip_no_transcript w2 msg err why) = videos w /\
         forall f ok, ~ In (MCut f ok) events)).
  { intros msg err why. exists [].
    assert (Hsucc : success (stats (skip_no_transcript w2 msg err why)) = false).
    { destruct err; simpl; exact Hs. }
    rewrite Hsucc.
    split; [destruct err; reflexivity|]. split; [left; reflexivity|].
    split; [left; destruct err; reflexivity|].
    split; [intros f ok []|]. split; [intros f ok []|]. split; [discriminate|].
    split; [intros _ _; split; [destruct err; simpl; eauto | destruct err; reflexivity]|].
    split; [discriminate|]. intros _.
    split; [destruct err; repeat split|]. split; [reflexivity|].
    split; [destruct err; reflexivity | auto]. }
  assert (Hraise : forall e,
    exists events,
      mlog w2 = events ++ mlog w /\
      (events = [] \/
       (transcript_status (item w2) = completed /\
        exists ok rest, events = rest ++ [MDownload (video_url (item w)) ok])) /\
      (alog w2 = alog w \/ In (MDownload (video_url (item w)) true) events) /\
      (forall f ok, In (MCut f ok) events -> analysis_status (item w2) = completed) /\
      (forall f ok, In (MUpload f ok) events ->
         In (MCut f true) events /\ conversion_status (item w2) = completed) /\
      (success (stats w2) = true ->
         Raise e = Ok tt /\ all_completed (item w2) /\ 1 <= shorts_count (item w2) /\
         error (stats w2) = None /\ stats_skipped (stats w2) = false) /\
      (success (stats w2) = false -> is_ok (@Raise unit e) = true ->
         (exists m, error (stats w2) = Some (Message m)) /\ videos w2 = videos w) /\
      (is_ok (@Raise unit e) = false ->
         success (stats w2) = false /\ stats_skipped (stats w2) = false) /\
      (stats_skipped (stats w2) = true ->
         later_phases_skipped (item w2) /\ success (stats w2) = false /\
         videos w2 = videos w /\ forall f ok, ~ In (MCut f ok) events)).
  { intros e. exists []. simpl. rewrite Hs, Hk.
    split; [reflexivity|]. split; [left; reflexivity|]. split; [left; reflexivity|].
    split; [intros f ok []|]. split; [intros f ok []|]. split; [discriminate|].
    split; [discriminate|]. split; [auto | discriminate]. }
  destruct r as [[[|t transcript]|]|e].
  - apply Hskip.
  - cbv zeta.
    set (w3 := commit (update_item w2 (fun i => set_transcript_status i completed))).
    set (w4 := commit (update_item w3 (fun i => set_download_status i downloading))).
    set (path := download_video env (length (mlog w4)) (video_url (item w4))).
    set (w5 := set_mlog w4 (MDownload (video_url (item w4)) (str_truthy path) :: mlog w4)).
    assert (Hfail :
      exists events,
        mlog (commit (update_item (fail_with w5 "Download failed") (fun i =>
                        set_download_error (set_download_status i failed)
                          "Download failed"))) = events ++ mlog w /\
        (events = [] \/
         (completed = completed /\
          exists ok rest, events = rest ++ [MDownload (video_url (item w)) ok])) /\
        (alog w = alog w \/ In (MDownload (video_url (item w)) true) events) /\
        (forall f ok, In (MCut f ok) events -> analysis_status (item w) = completed) /\
        (forall f ok, In (MUpload f ok) events ->
           In (MCut f true) events /\ conversion_status (item w) = completed) /\
        (success (stats w) = true ->
           Ok tt = Ok tt /\
           all_completed (item (commit (update_item (fail_with w5 "Download failed")
                                          (fun i => set_download_error
                                                      (set_download_status i failed)
                                                      "Download failed")))) /\
           1 <= shorts_count (item w) /\
           Some (Message "Download failed") = None /\
           stats_skipped (stats w) = false) /\
        (success (stats w) = false -> is_ok (Ok tt) = true ->
           (exists m, Some (Message "Download failed") = Some (Message m)) /\
           videos w = videos w) /\
        (is_ok (Ok tt) = false ->
           success (stats w) = false /\ stats_skipped (stats w) = false) /\
        (stats_skipped (stats w) = true ->
           later_phases_skipped
             (item (commit (update_item (fail_with w5 "Download failed")
                              (fun i => set_download_error (set_download_status i failed)
                                          "Download failed")))) /\
           success (stats w) = false /\ videos w = videos w /\
           forall f ok, ~ In (MCut f ok) events)).
    { exists [MDownload (video_url (item w)) (str_truthy path)]. rewrite Hs, Hk.
      split; [reflexivity|].
      split; [right; split; [reflexivity|]; exists (str_truthy path), []; reflexivity|].
      split; [left; reflexivity|].
      split; [intros f ok [E|[]]; discriminate|].
      split; [intros f ok [E|[]]; discriminate|].
      split; [discriminate|]. split; [eauto|]. split; [discriminate | discriminate]. }
    destruct path as [video_path|] eqn:Hpath; [|exact Hfail].
    destruct (video_path =? "")%string eqn:Hempty; [exact Hfail|].
    clear Hfail.
    set (w6 := commit (update_item w5 (fun i =>
                 set_local_file (set_download_status i completed) video_path
                   (getsize env video_path)))).
    destruct (@after_download_outcome env (t :: transcript) video_path w6
                (conj Hs (conj He Hk)))
      as (events & Hlog & Ht & Hnodl & Hcut & Hup & Hsucc & Hfl & Hrs & Hskp).
    exists (events ++ [MDownload (video_url (item w)) true]).
    assert (Hm6 : mlog w6 = MDownload (video_url (item w)) true :: mlog w).
    { unfold w6, w5. cbn -[String.eqb]. rewrite Hempty. reflexivity. }
    split; [rewrite Hlog, Hm6, <- app_assoc; reflexivity|].
    split; [right; split; [rewrite Ht; reflexivity | exists true, events; reflexivity]|].
    split; [right; apply in_or_app; right; left; reflexivity|].
    split.
    { intros f ok Hin. apply in_app_or in Hin. destruct Hin as [Hin|[E|[]]];
        [eapply Hcut; exact Hin | discriminate]. }
    split.
    { intros f ok Hin. apply in_app_or in Hin. destruct Hin as [Hin|[E|[]]];
        [|discriminate].
      destruct (Hup f ok Hin) as [H1 H2]. split; [apply in_or_app; left; exact H1 | exact H2]. }
    split.
    { intros H. destruct (Hsucc H) as (H1 & H2 & H3 & H4 & H5 & H6 & H7).
      split; [exact H1|]. split; [|auto].
      split; [rewrite Ht; reflexivity|]. split; [rewrite H2; reflexivity | auto]. }
    split; [exact Hfl|].
    split; [exact Hrs|].
    intros H. destruct (Hskp H) as (H1 & H2 & H3 & H4).
    split; [exact H1|]. split; [exact H2|]. split; [exact H3|].
    intros f ok Hin. rewrite H4 in Hin. simpl in Hin.
    destruct Hin as [E|[E|[]]]; discriminate.
  - apply Hskip.
  - destruct e as [| | | | | |resp]; try apply Hraise.
    destruct resp as [rs|]; [|apply Hraise].
    destruct (response_truth rs && (status_code rs =? 404)%Z); [apply Hskip | apply Hraise].
Qed.

(** X20. The counters a run returns tell what it did. When it reports
    success, the four phases of the item are completed, at least one clip
    was cut, no error is set and the run was neither skipped nor stopped by
    an exception. When it reports no success without an exception, it
    carries an error message and no clip record was added. When an
    exception stopped it, it reports no success, is not counted as skipped
    and carries the text of the exception. When it reports skipped, the
    download, analysis and conversion phases are skipped and no clip
    record was added. *)
Theorem run_reports_what_it_did :
  forall (env : Pipeline.Env) (w : World),
    (success (fst (process_single_video env w)) = true ->
       all_completed (item (snd (process_single_video env w))) /\
       1 <= shorts_count (item (snd (process_single_video env w))) /\
       error (fst (process_single_video env w)) = None /\
       stats_skipped (fst (process_single_video env w)) = false /\
       run_raised env w = false) /\
    (success (fst (process_single_video env w)) = false ->
       run_raised env w = false ->
       (exists m, error (fst (process_single_video env w)) = Some (Message m)) /\
       videos (snd (process_single_video env w)) = videos w) /\
    (run_raised env w = true ->
       success (fst (process_single_video env w)) = false /\
       stats_skipped (fst (process_single_video env w)) = false /\
       exists e, error (fst (process_single_video env w)) = Some (OfException e)) /\
    (stats_skipped (fst (process_single_video env w)) = true ->
       later_phases_skipped (item (snd (process_single_video env w))) /\
       success (fst (process_single_video env w)) = false /\
       videos (snd (process_single_video env w)) = videos w /\
       run_raised env w = false).
Proof.
  intros env w. unfold process_single_video, run_raised.
  set (w0 := set_stats w initial_stats).
  destruct (@process_steps_outcome env w0 (conj eq_refl (conj eq_refl eq_refl)))
    as (events & _ & _ & _ & _ & _ & Hsucc & Hfail & Hraise & Hskip).
  destruct (process_steps env w0) as [[u|e] w1]; simpl in *.
  - split; [intros H; destruct (Hsucc H) as (_ & H1 & H2 & H3 & H4); auto|].
    split; [intros H _; exact (Hfail H eq_refl)|].
    split; [discriminate|].
    intros H. destruct (Hskip H) as (H1 & H2 & H3 & _). auto.
  - destruct (Hraise eq_refl) as [H1 H2].
    split; [intros H; congruence|]. split; [discriminate|].
    split; [intros _; split; [exact H1|]; split; [exact H2 | eauto]|].
    intros H. congruence.
Qed.

Lemma run_reports_what_it_did_witness :
  all_completed
    (item (snd (process_single_video
                  (Scenario.pipeline_env Scenario.transcript_answer Scenario.one_segment
                     true true)
                  Scenario.fresh_world))) /\
  1 <= shorts_count
         (item (snd (process_single_video
                       (Scenario.pipeline_env Scenario.transcript_answer
                          Scenario.one_segment true true)
                       Scenario.fresh_world))).
Proof.
  destruct (proj1 (run_reports_what_it_did
                     (Scenario.pipeline_env Scenario.transcript_answer
                        Scenario.one_segment true true)
                     Scenario.fresh_world) eq_refl) as (H1 & H2 & _).
  split; [exact H1 | exact H2].
Defined.

(** X21. A run does its outside work in order and stops at the first
    phase that fails. Whatever it adds to the media log starts with the
    download of the item's URL, which is attempted only once the
    transcript phase is completed; the AI side is touched only after that
    download succeeded; a clip is cut only in a run whose analysis is
    completed; and a file is uploaded only if it was cut successfully in
    the same run, whose conversion is then completed. *)
Theorem outside_work_is_done_in_order :
  forall (env : Pipeline.Env) (w : World),
    exists events,
      mlog (snd (process_single_video env w)) = events ++ mlog w /\
      (events = [] \/
       (transcript_status (item (snd (process_single_video env w))) = completed /\
        exists ok rest, events = rest ++ [MDownload (video_url (item w)) ok])) /\
      (alog (snd (process_single_video env w)) = alog w \/
       In (MDownload (video_url (item w)) true) events) /\
      (forall f ok, In (MCut f ok) events ->
         analysis_status (item (snd (process_single_video env w))) = completed) /\
      (forall f ok, In (MUpload f ok) events ->
         In (MCut f true) events /\
         conversion_status (item (snd (process_single_video env w))) = completed).
Proof.
  intros env w. unfold process_single_video.
  set (w0 := set_stats w initial_stats).
  destruct (@process_steps_outcome env w0 (conj eq_refl (conj eq_refl eq_refl)))
    as (events & H1 & H2 & H3 & H4 & H5 & _).
  exists events.
  destruct (process_steps env w0) as [[u|e] w1]; simpl in *; auto.
Qed.

Lemma outside_work_is_done_in_order_witness :
  exists events,
    mlog (snd (process_single_video
                 (Scenario.pipeline_env Scenario.transcript_answer Scenario.one_segment
                    true true)
                 Scenario.fresh_world)) = events ++ [] /\
    (forall f ok, In (MUpload f ok) events -> In (MCut f true) events).
Proof.
  destruct (outside_work_is_done_in_order
              (Scenario.pipeline_env Scenario.transcript_answer Scenario.one_segment
                 true true)
              Scenario.fresh_world) as (events & H1 & _ & _ & _ & H5).
  exists events. split; [exact H1|]. intros f ok Hin. exact (proj1 (H5 f ok Hin)).
Defined.

(* --------------------------------------------------------------------- *)
(** ** The batch                                                          *)
(* --------------------------------------------------------------------- *)







(* --------------------------------------------------------------------- *)
(** ** How long the transcript side can sleep                             *)
(* --------------------------------------------------------------------- *)

Lemma slept_app (a b : list TEvent) : slept (a ++ b) = slept a + slept b.
Proof.
  induction a as [|[| | | |k] a IH]; simpl; rewrite ?IH; lia.
Qed.

Lemma retrieve_otp_sleep env run box st :
  exists added,
    tlog (snd (retrieve_otp env run box st)) = added ++ tlog st /\
    slept added <= 50 /\
    Transcript.count is_poll added <= 6.
Proof.
  unfold retrieve_otp. destruct box as [temp_email_id|email_tag].
  - exists [TSleep 30]. simpl. split; [reflexivity|]. split; [lia|].
    unfold Transcript.count. simpl. lia.
  - unfold wait_for_testmail_message.
    replace (60 / 10) with 6 by reflexivity.
    destruct (@poll_loop_sleep run email_tag 10 6 6 1 (tlog st) eq_refl)
      as (added & Hlog & Hs & _).
    pose proof (poll_loop_bound run email_tag 10 6 6 1 (tlog st)) as Hp.
    destruct (poll_loop run email_tag 10 6 6 1 (tlog st)) as [r log'].
    simpl in Hlog, Hp. subst log'. exists added.
    split; [destruct r as [email_data|]; [destruct (truthy email_data)|]; reflexivity|].
    split; [simpl in Hs; lia|].
    rewrite tcount_app in Hp. lia.
Qed.

Lemma verify_and_save_sleep run email pw access_token otp_code st :
  exists added,
    tlog (snd (verify_and_save run email pw access_token otp_code st)) = added ++ tlog st /\
    slept added <= 2 /\
    Transcript.count is_poll added = 0.
Proof.
  unfold verify_and_save.
  destruct (verify_email_with_otp run access_token otp_code); simpl;
    [|exists []; simpl; auto].
  destruct (get_api_key_from_account run access_token) as [key|]; simpl;
    [|exists [TSleep 2]; simpl; auto].
  destruct (key =? "")%string; [exists [TSleep 2]; simpl; auto|].
  destruct (commit_succeeds run); exists [TSleep 2]; simpl; auto.
Qed.

Lemma auto_register_sleep env st :
  exists added,
    tlog (snd (auto_register_and_save_key env st)) = added ++ tlog st /\
    slept added <= 56 /\
    Transcript.count is_poll added <= 6.
Proof.
  unfold auto_register_and_save_key.
  set (run := provision env (length (tlog st))).
  assert (Hshort : forall added,
             slept added <= 4 -> Transcript.count is_poll added = 0 ->
             exists added0,
               added ++ tlog st = added0 ++ tlog st /\ slept added0 <= 56 /\
               Transcript.count is_poll added0 <= 6).
  { intros added H1 H2. exists added. split; [reflexivity|]. split; lia. }
  destruct (obtain_mailbox run) as [[email box]|];
    [|apply (Hshort [TProvision]); simpl; auto].
  destruct (register_account run email (generate_random_password run)); simpl negb;
    cbv iota; [|apply (Hshort [TProvision]); simpl; auto].
  destruct (login_account run email (generate_random_password run)) as [access_token|];
    [|apply (Hshort [TSleep 2; TProvision]); simpl; auto].
  destruct (access_token =? "")%string;
    [apply (Hshort [TSleep 2; TProvision]); simpl; auto|].
  destruct (send_verification_otp run access_token); simpl negb; cbv iota;
    [|apply (Hshort [TSleep 2; TSleep 2; TProvision]); simpl; auto].
  set (st2 := record_event (TSleep 2) (record_event (TSleep 2) (record_event TProvision st))).
  destruct (retrieve_otp_sleep env run box st2) as (added & Hlog & Hs & Hp).
  destruct (retrieve_otp env run box st2) as [r st3]. simpl in Hlog.
  assert (Hnone : exists added0,
             tlog st3 = added0 ++ tlog st /\ slept added0 <= 56 /\
             Transcript.count is_poll added0 <= 6).
  { exists (added ++ [TSleep 2; TSleep 2; TProvision]).
    split; [rewrite Hlog, <- app_assoc; reflexivity|].
    rewrite slept_app, tcount_app. unfold Transcript.count at 2. simpl. lia. }
  destruct r as [[otp_code|]|e]; try exact Hnone.
  destruct (otp_code =? "")%string; [exact Hnone|].
  destruct (verify_and_save_sleep run email (generate_random_password run)
              access_token otp_code st3) as (added4 & Hlog4 & Hs4 & Hp4).
  destruct (verify_and_save run email (generate_random_password run)
              access_token otp_code st3) as [k st4].
  simpl in Hlog4 |- *. exists (added4 ++ added ++ [TSleep 2; TSleep 2; TProvision]).
  split; [rewrite Hlog4, Hlog, <- !app_assoc; reflexivity|].
  rewrite !slept_app, !tcount_app. unfold Transcript.count at 3. simpl. lia.
Qed.

Lemma request_transcript_sleep env video_id max_attempts attempt key st :
  exists added,
    tlog (snd (request_transcript env video_id max_attempts attempt key st))
    = added ++ tlog st /\
    slept added <= 2 /\
    Transcript.count is_poll added = 0.
Proof.
  unfold request_transcript.
  set (answer := transcript_get env (length (tlog st)) (api_key key) video_id).
  set (st1 := record_event (THttpGet (row_id key) answer) st).
  assert (Hexc : exists added,
             tlog (snd (on_request_exception attempt max_attempts st1)) = added ++ tlog st /\
             slept added <= 2 /\ Transcript.count is_poll added = 0).
  { unfold on_request_exception. destruct (attempt <? max_attempts - 1).
    - exists [TSleep 2; THttpGet (row_id key) answer]. simpl. auto.
    - exists [THttpGet (row_id key) answer]. simpl. auto. }
  assert (Hone : exists added,
             THttpGet (row_id key) answer :: tlog st = added ++ tlog st /\
             slept added <= 2 /\ Transcript.count is_poll added = 0).
  { exists [THttpGet (row_id key) answer]. simpl. auto. }
  destruct answer as [status_code body| |]; [|exact Hexc | exact Hone].
  destruct (existsb (Z.eqb status_code) FATAL_STATUSES).
  - destruct (attempt <? max_attempts - 1); [|exact Hone].
    exists [TSleep 1; THttpGet (row_id key) (GetResponse status_code body)]. simpl. auto.
  - destruct (status_code =? 404)%Z; [exact Hone|].
    destruct (400 <=? status_code)%Z; [exact Hone|].
    destruct body as [data|].
    + destruct (on_success_frame env key data st1) as [Hlog _]. rewrite Hlog. exact Hone.
    + destruct (json_error_is_request_exception env); [exact Hexc | exact Hone].
Qed.

Lemma fetch_loop_sleep env video_id max_attempts :
  forall remaining attempt st,
    exists added,
      tlog (snd (fetch_loop env video_id max_attempts remaining attempt st))
      = added ++ tlog st /\
      slept added <= 58 * remaining /\
      Transcript.count is_poll added <= 6 * remaining.
Proof.
  induction remaining as [|n IH]; intros attempt st.
  - exists []. simpl. split; [reflexivity|]. unfold Transcript.count. simpl. lia.
  - cbn [fetch_loop].
    set (st0 := record_event TQueryActive st).
    assert (Hkey : exists added_p,
               tlog (snd (match get_active_key (tbl st0) with
                          | Some k => (Ok (Some k), st0)
                          | None => auto_register_and_save_key env st0
                          end)) = added_p ++ tlog st /\
               slept added_p <= 56 /\ Transcript.count is_poll added_p <= 6).
    { destruct (get_active_key (tbl st0)) as [k|].
      - exists [TQueryActive]. simpl. split; [reflexivity|].
        unfold Transcript.count. simpl. lia.
      - destruct (auto_register_sleep env st0) as (added & H1 & H2 & H3).
        exists (added ++ [TQueryActive]).
        split; [rewrite H1, <- app_assoc; reflexivity|].
        rewrite slept_app, tcount_app. unfold Transcript.count at 2. simpl. lia. }
    destruct Hkey as (added_p & Hlog1 & Hs1 & Hp1).
    destruct (match get_active_key (tbl st0) with
              | Some k => (Ok (Some k), st0)
              | None => auto_register_and_save_key env st0
              end) as [[[key_obj|]|e] st1]; simpl in Hlog1.
    + destruct (request_transcript_sleep env video_id max_attempts attempt key_obj st1)
        as (added_r & Hlog2 & Hs2 & Hp2).
      destruct (request_transcript env video_id max_attempts attempt key_obj st1)
        as [[r|] st2]; simpl in Hlog2.
      * exists (added_r ++ added_p).
        split; [simpl; rewrite Hlog2, Hlog1, app_assoc; reflexivity|].
        rewrite slept_app, tcount_app. lia.
      * destruct (IH (S attempt) st2) as (added & Hlog & Hs & Hp).
        exists (added ++ added_r ++ added_p).
        split; [rewrite Hlog, Hlog2, Hlog1, !app_assoc; reflexivity|].
        rewrite !slept_app, !tcount_app. lia.
    + destruct (IH (S attempt) st1) as (added & Hlog & Hs & Hp).
      exists (added ++ added_p).
      split; [rewrite Hlog, Hlog1, app_assoc; reflexivity|].
      rewrite slept_app, tcount_app. lia.
    + exists added_p. split; [exact Hlog1|]. lia.
Qed.

(** X23. The transcript side blocks for a bounded time. One provisioning
    run sleeps at most 56 seconds in all and polls the mailbox at most six
    times; one call of [fetch_transcript_with_retry] sleeps at most 58
    seconds and polls at most six times for each attempt it is allowed. *)
Theorem transcript_side_sleeps_a_bounded_time :
  (forall (env : Transcript.Env) (st : TState),
     exists added,
       tlog (snd (auto_register_and_save_key env st)) = added ++ tlog st /\
       slept added <= 56 /\
       Transcript.count is_poll added <= 6) /\
  (forall (env : Transcript.Env) (video_id : string) (max_attempts : nat) (st : TState),
     exists added,
       tlog (snd (fetch_transcript_with_retry env video_id max_attempts st))
       = added ++ tlog st /\
       slept added <= 58 * max_attempts /\
       Transcript.count is_poll added <= 6 * max_attempts).
Proof.
  split.
  - apply auto_register_sleep.
  - intros env video_id max_attempts st. unfold fetch_transcript_with_retry.
    apply fetch_loop_sleep.
Qed.

(* --------------------------------------------------------------------- *)
(** ** Schema migrations                                                  *)
(* --------------------------------------------------------------------- *)

Lemma exec_all_spec env statements log :
  exists added,
    snd (Migrations.exec_all env statements log) = added ++ log /\
    forall e, In e added -> exists s, In s statements /\ e = Migrations.MgExec s.
Proof.
  revert log; induction statements as [|s rest IH]; intros log.
  - exists []. simpl. split; [reflexivity | intros e []].
  - cbn [Migrations.exec_all].
    destruct (Migrations.db_ok env (length log)).
    + destruct (IH (Migrations.MgExec s :: log)) as (added & Hlog & Hall).
      exists (added ++ [Migrations.MgExec s]).
      split; [rewrite Hlog, <- app_assoc; reflexivity|].
      intros e He. apply in_app_or in He. destruct He as [He|[<-|[]]].
      * destruct (Hall e He) as (s' & Hs' & ->). exists s'. split; [right; exact Hs' | reflexivity].
      * exists s. split; [left; reflexivity | reflexivity].
    + exists [Migrations.MgExec s]. split; [reflexivity|].
      intros e [<-|[]]. exists s. split; [left; reflexivity | reflexivity].
Qed.

Lemma insert_applied_spec env filename st :
  Migrations.mlog (snd (Migrations.insert_applied env filename st))
  = Migrations.MgInsert filename :: Migrations.mlog st /\
  (fst (Migrations.insert_applied env filename st) = true ->
   Migrations.applied (snd (Migrations.insert_applied env filename st))
   = filename :: Migrations.applied st) /\
  (fst (Migrations.insert_applied env filename st) = false ->
   Migrations.applied (snd (Migrations.insert_applied env filename st))
   = Migrations.applied st).
Proof.
  unfold Migrations.insert_applied.
  destruct (Migrations.db_ok env (length (Migrations.mlog st))
            && negb (Migrations.is_applied filename (Migrations.applied st)));
    simpl; split; try reflexivity; split; congruence.
Qed.

Lemma run_files_spec env seen :
  forall files st,
    exists added,
      Migrations.mlog (snd (Migrations.run_files env files seen st))
      = added ++ Migrations.mlog st /\
      incl (Migrations.applied st)
           (Migrations.applied (snd (Migrations.run_files env files seen st))) /\
      (forall s, In (Migrations.MgExec s) added ->
         exists m, In m files /\
                   Migrations.is_applied (Migrations.name m) seen = false /\
                   In s (Migrations.split_sql_statements env (Migrations.read_text m))) /\
      (forall f, In (Migrations.MgInsert f) added ->
         exists m, In m files /\ f = Migrations.name m /\
                   Migrations.is_applied f seen = false) /\
      (forall f, In f (Migrations.applied (snd (Migrations.run_files env files seen st))) ->
         In f (Migrations.applied st) \/
         exists m, In m files /\ f = Migrations.name m /\ In (Migrations.MgInsert f) added) /\
      (fst (Migrations.run_files env files seen st) = true ->
       forall m, In m files ->
         In (Migrations.name m) seen \/
         In (Migrations.name m)
            (Migrations.applied (snd (Migrations.run_files env files seen st)))) /\
      ((forall m, In m files -> Migrations.is_applied (Migrations.name m) seen = true) ->
       Migrations.run_files env files seen st = (true, st)).
Proof.
  induction files as [|m rest IH]; intros st.
  - exists []. simpl. split; [reflexivity|]. split; [apply incl_refl|].
    split; [intros s []|]. split; [intros f []|]. split; [auto|].
    split; [intros _ m [] | reflexivity].
  - cbn [Migrations.run_files].
    destruct (Migrations.is_applied (Migrations.name m) seen) eqn:Hseen.
    + destruct (IH st) as (added & Hlog & Hincl & Hexec & Hins & Hrows & Hdone & Hidle).
      exists added. split; [exact Hlog|]. split; [exact Hincl|].
      split.
      { intros s Hs. destruct (Hexec s Hs) as (m' & H1 & H2). exists m'.
        split; [right; exact H1 | exact H2]. }
      split.
      { intros f Hf. destruct (Hins f Hf) as (m' & H1 & H2). exists m'.
        split; [right; exact H1 | exact H2]. }
      split.
      { intros f Hf. destruct (Hrows f Hf) as [H|(m' & H1 & H2)]; [left; exact H|].
        right. exists m'. split; [right; exact H1 | exact H2]. }
      split.
      { intros Hok m' [<-|Hm'].
        - left. unfold Migrations.is_applied in Hseen. apply existsb_exists in Hseen.
          destruct Hseen as (x & Hx & E). apply String.eqb_eq in E. subst x. exact Hx.
        - apply Hdone; assumption. }
      intros Hall. apply Hidle. intros m' Hm'. apply Hall. right. exact Hm'.
    + assert (Hstop : forall st1 added1,
                 Migrations.mlog st1 = added1 ++ Migrations.mlog st ->
                 Migrations.applied st1 = Migrations.applied st ->
                 (forall e, In e added1 ->
                    (exists s, In s (Migrations.split_sql_statements env
                                       (Migrations.read_text m)) /\
                               e = Migrations.MgExec s) \/
                    e = Migrations.MgInsert (Migrations.name m)) ->
                 exists added,
                   Migrations.mlog st1 = added ++ Migrations.mlog st /\
                   incl (Migrations.applied st) (Migrations.applied st1) /\
                   (forall s, In (Migrations.MgExec s) added ->
                      exists m0, In m0 (m :: rest) /\
                                 Migrations.is_applied (Migrations.name m0) seen = false /\
                                 In s (Migrations.split_sql_statements env
                                         (Migrations.read_text m0))) /\
                   (forall f, In (Migrations.MgInsert f) added ->
                      exists m0, In m0 (m :: rest) /\ f = Migrations.name m0 /\
                                 Migrations.is_applied f seen = false) /\
                   (forall f, In f (Migrations.applied st1) ->
                      In f (Migrations.applied st) \/
                      exists m0, In m0 (m :: rest) /\ f = Migrations.name m0 /\
                                 In (Migrations.MgInsert f) added) /\
                   (false = true ->
                    forall m0, In m0 (m :: rest) ->
                      In (Migrations.name m0) seen \/
                      In (Migrations.name m0) (Migrations.applied st1)) /\
                   ((forall m0, In m0 (m :: rest) ->
                       Migrations.is_applied (Migrations.name m0) seen = true) ->
                    (false, st1) = (true, st))).
      { intros st1 added1 Hlog1 Happ1 Hev. exists added1.
        split; [exact Hlog1|]. split; [rewrite Happ1; apply incl_refl|].
        split.
        { intros s Hs. destruct (Hev _ Hs) as [(s' & Hs' & E)|E]; [|discriminate].
          inversion E; subst s'. exists m. split; [left; reflexivity | auto]. }
        split.
        { intros f Hf. destruct (Hev _ Hf) as [(s' & Hs' & E)|E]; [discriminate|].
          inversion E; subst f. exists m. split; [left; reflexivity | auto]. }
        split; [intros f Hf; left; rewrite <- Happ1; exact Hf|].
        split; [discriminate|].
        intros Hall. rewrite (Hall m (or_introl eq_refl)) in Hseen. discriminate. }
      assert (Hgo : forall st1 added1,
                 Migrations.mlog st1 = added1 ++ Migrations.mlog st ->
                 Migrations.applied st1 = Migrations.name m :: Migrations.applied st ->
                 In (Migrations.MgInsert (Migrations.name m)) added1 ->
                 (forall e, In e added1 ->
                    (exists s, In s (Migrations.split_sql_statements env
                                       (Migrations.read_text m)) /\
                               e = Migrations.MgExec s) \/
                    e = Migrations.MgInsert (Migrations.name m)) ->
                 exists added,
                   Migrations.mlog (snd (Migrations.run_files env rest seen st1))
                   = added ++ Migrations.mlog st /\
                   incl (Migrations.applied st)
                        (Migrations.applied (snd (Migrations.run_files env rest seen st1))) /\
                   (forall s, In (Migrations.MgExec s) added ->
                      exists m0, In m0 (m :: rest) /\
                                 Migrations.is_applied (Migrations.name m0) seen = false /\
                                 In s (Migrations.split_sql_statements env
                                         (Migrations.read_text m0))) /\
                   (forall f, In (Migrations.MgInsert f) added ->
                      exists m0, In m0 (m :: rest) /\ f = Migrations.name m0 /\
                                 Migrations.is_applied f seen = false) /\
                   (forall f, In f (Migrations.applied
                                      (snd (Migrations.run_files env rest seen st1))) ->
                      In f (Migrations.applied st) \/
                      exists m0, In m0 (m :: rest) /\ f = Migrations.name m0 /\
                                 In (Migrations.MgInsert f) added) /\
                   (fst (Migrations.run_files env rest seen st1) = true ->
                    forall m0, In m0 (m :: rest) ->
                      In (Migrations.name m0) seen \/
                      In (Migrations.name m0)
                         (Migrations.applied (snd (Migrations.run_files env rest seen st1)))) /\
                   ((forall m0, In m0 (m :: rest) ->
                       Migrations.is_applied (Migrations.name m0) seen = true) ->
                    Migrations.run_files env rest seen st1 = (true, st))).
      { intros st1 added1 Hlog1 Happ1 Hin1 Hev.
        destruct (IH st1) as (added & Hlog & Hincl & Hexec & Hins & Hrows & Hdone & Hidle).
        exists (added ++ added1).
        split; [rewrite Hlog, Hlog1, app_assoc; reflexivity|].
        split.
        { intros x Hx. apply Hincl. rewrite Happ1. right. exact Hx. }
        split.
        { intros s Hs. apply in_app_or in Hs. destruct Hs as [Hs|Hs].
          - destruct (Hexec s Hs) as (m' & H1 & H2). exists m'. split; [right; exact H1 | exact H2].
          - destruct (Hev _ Hs) as [(s' & Hs' & E)|E]; [|discriminate].
            inversion E; subst s'. exists m. split; [left; reflexivity | auto]. }
        split.
        { intros f Hf. apply in_app_or in Hf. destruct Hf as [Hf|Hf].
          - destruct (Hins f Hf) as (m' & H1 & H2). exists m'. split; [right; exact H1 | exact H2].
          - destruct (Hev _ Hf) as [(s' & Hs' & E)|E]; [discriminate|].
            inversion E; subst f. exists m. split; [left; reflexivity | auto]. }
        split.
        { intros f Hf. destruct (Hrows f Hf) as [H|(m' & H1 & H2 & H3)].
          - rewrite Happ1 in H. destruct H as [<-|H]; [|left; exact H].
            right. exists m. split; [left; reflexivity|]. split; [reflexivity|].
            apply in_or_app. right. exact Hin1.
          - right. exists m'. split; [right; exact H1|]. split; [exact H2|].
            apply in_or_app. left. exact H3. }
        split.
        { intros Hok m' [<-|Hm'].
          - right. apply Hincl. rewrite Happ1. left. reflexivity.
          - apply Hdone; assumption. }
        intros Hall. rewrite (Hall m (or_introl eq_refl)) in Hseen. discriminate. }
      destruct (Migrations.split_sql_statements env (Migrations.read_text m))
        as [|s0 stmts] eqn:Hsplit.
      * destruct (insert_applied_spec env (Migrations.name m) st) as (Hl & Ht & Hf).
        destruct (Migrations.insert_applied env (Migrations.name m) st) as [[|] st1];
          simpl in Hl, Ht, Hf.
        -- apply (Hgo st1 [Migrations.MgInsert (Migrations.name m)]);
             [exact Hl | exact (Ht eq_refl) | left; reflexivity|].
           intros e [<-|[]]. right. reflexivity.
        -- apply (Hstop st1 [Migrations.MgInsert (Migrations.name m)]);
             [exact Hl | exact (Hf eq_refl)|].
           intros e [<-|[]]. right. reflexivity.
      * destruct (exec_all_spec env (s0 :: stmts) (Migrations.mlog st))
          as (added_e & Hloge & Halle).
        destruct (Migrations.exec_all env (s0 :: stmts) (Migrations.mlog st))
          as [[|] log1]; simpl in Hloge; subst log1.
        -- destruct (insert_applied_spec env (Migrations.name m)
                       (Migrations.mkState (Migrations.applied st)
                          (added_e ++ Migrations.mlog st))) as (Hl & Ht & Hf).
           destruct (Migrations.insert_applied env (Migrations.name m)
                       (Migrations.mkState (Migrations.applied st)
                          (added_e ++ Migrations.mlog st))) as [[|] st1];
             simpl in Hl, Ht, Hf.
           ++ apply (Hgo st1 (Migrations.MgInsert (Migrations.name m) :: added_e));
                [rewrite Hl; reflexivity | exact (Ht eq_refl) | left; reflexivity|].
              intros e [<-|He]; [right; reflexivity | left; apply Halle; exact He].
           ++ apply (Hstop (Migrations.mkState (Migrations.applied st) (Migrations.mlog st1))
                       (Migrations.MgInsert (Migrations.name m) :: added_e));
                [simpl; rewrite Hl; reflexivity | reflexivity|].
              intros e [<-|He]; [right; reflexivity | left; apply Halle; exact He].
        -- apply (Hstop (Migrations.mkState (Migrations.applied st)
                           (added_e ++ Migrations.mlog st)) added_e);
             [reflexivity | reflexivity|].
           intros e He. left. apply Halle. exact He.
Qed.

Lemma is_applied_In f rows : Migrations.is_applied f rows = true <-> In f rows.
Proof.
  unfold Migrations.is_applied. rewrite existsb_exists. split.
  - intros (x & Hx & E). apply String.eqb_eq in E. subst x. exact Hx.
  - intros H. exists f. split; [exact H | apply String.eqb_refl].
Qed.

(** X24. Migrations are applied once. [run_pending_migrations] executes
    statements of files that were not recorded as applied when it started,
    and of no other file; it never removes a record, and records only
    files it has just run; when it returns without an exception every
    migration file is recorded; and running it again after such a return
    executes no statement and records nothing, whatever the database
    answers. *)
Theorem migrations_are_applied_once :
  forall (env : Migrations.Env) (st : Migrations.State),
    exists added,
      Migrations.mlog (snd (Migrations.run_pending_migrations env st))
      = added ++ Migrations.mlog st /\
      incl (Migrations.applied st)
           (Migrations.applied (snd (Migrations.run_pending_migrations env st))) /\
      (forall s, In (Migrations.MgExec s) added ->
         exists m, In m (Migrations.migration_files env) /\
                   ~ In (Migrations.name m) (Migrations.applied st) /\
                   In s (Migrations.split_sql_statements env (Migrations.read_text m))) /\
      (forall f, In f (Migrations.applied (snd (Migrations.run_pending_migrations env st))) ->
         In f (Migrations.applied st) \/
         exists m, In m (Migrations.migration_files env) /\ f = Migrations.name m /\
                   In (Migrations.MgInsert f) added) /\
      (fst (Migrations.run_pending_migrations env st) = true ->
       Migrations.dir_exists env = true ->
       forall m, In m (Migrations.migration_files env) ->
         In (Migrations.name m)
            (Migrations.applied (snd (Migrations.run_pending_migrations env st)))) /\
      (fst (Migrations.run_pending_migrations env st) = true ->
       forall (env2 : Migrations.Env) (log2 : list Migrations.MgEvent),
         Migrations.dir_exists env2 = Migrations.dir_exists env ->
         Migrations.migration_files env2 = Migrations.migration_files env ->
         exists added2,
           snd (Migrations.run_pending_migrations env2
                  (Migrations.mkState
                     (Migrations.applied (snd (Migrations.run_pending_migrations env st)))
                     log2))
           = Migrations.mkState
               (Migrations.applied (snd (Migrations.run_pending_migrations env st)))
               (added2 ++ log2) /\
           forallb (fun e => negb (Migrations.is_change e)) added2 = true).
Proof.
  intros env st.
  assert (Hidle : exists added,
             Migrations.mlog st = added ++ Migrations.mlog st /\
             incl (Migrations.applied st) (Migrations.applied st) /\
             (forall s, In (Migrations.MgExec s) added ->
                exists m, In m (Migrations.migration_files env) /\
                          ~ In (Migrations.name m) (Migrations.applied st) /\
                          In s (Migrations.split_sql_statements env (Migrations.read_text m))) /\
             (forall f, In f (Migrations.applied st) ->
                In f (Migrations.applied st) \/
                exists m, In m (Migrations.migration_files env) /\ f = Migrations.name m /\
                          In (Migrations.MgInsert f) added)).
  { exists []. split; [reflexivity|]. split; [apply incl_refl|].
    split; [intros s [] | auto]. }
  assert (Hsecond : forall applied',
             (Migrations.dir_exists env = true ->
              forall m, In m (Migrations.migration_files env) ->
                        In (Migrations.name m) applied') ->
             forall (env2 : Migrations.Env) (log2 : list Migrations.MgEvent),
               Migrations.dir_exists env2 = Migrations.dir_exists env ->
               Migrations.migration_files env2 = Migrations.migration_files env ->
               exists added2,
                 snd (Migrations.run_pending_migrations env2
                        (Migrations.mkState applied' log2))
                 = Migrations.mkState applied' (added2 ++ log2) /\
                 forallb (fun e => negb (Migrations.is_change e)) added2 = true).
  { intros applied' Hall env2 log2 Hdir Hfiles. unfold Migrations.run_pending_migrations.
    rewrite Hdir, Hfiles.
    destruct (Migrations.dir_exists env); simpl negb; cbv iota;
      [|exists []; split; reflexivity].
    specialize (Hall eq_refl).
    destruct (Migrations.migration_files env) as [|m files] eqn:Hf;
      [exists []; split; reflexivity|].
    cbn [Migrations.applied Migrations.mlog].
    destruct (Migrations.db_ok env2 (length log2));
      [|exists [Migrations.MgCreateTable]; split; reflexivity].
    destruct (Migrations.db_ok env2 (length (Migrations.MgCreateTable :: log2)));
      [|exists [Migrations.MgSelectApplied; Migrations.MgCreateTable]; split; reflexivity].
    destruct (run_files_spec env2 applied' (m :: files)
                (Migrations.mkState applied'
                   (Migrations.MgSelectApplied :: Migrations.MgCreateTable :: log2)))
      as (added & _ & _ & _ & _ & _ & _ & Hsame).
    rewrite Hsame.
    - exists [Migrations.MgSelectApplied; Migrations.MgCreateTable]. split; reflexivity.
    - intros m0 Hm0. apply is_applied_In. apply Hall. exact Hm0. }
  unfold Migrations.run_pending_migrations.
  destruct (Migrations.dir_exists env) eqn:Hdir; simpl negb; cbv iota.
  - destruct (Migrations.migration_files env) as [|m files] eqn:Hfiles.
    + destruct Hidle as (added & H1 & H2 & H3 & H4). exists added.
      split; [exact H1|]. split; [exact H2|]. split; [exact H3|]. split; [exact H4|].
      split; [intros _ _ m0 []|].
      intros _. apply Hsecond. intros _ m0 Hm0. destruct Hm0.
    + cbn [Migrations.applied Migrations.mlog].
      destruct (Migrations.db_ok env (length (Migrations.mlog st))).
      * destruct (Migrations.db_ok env
                    (length (Migrations.MgCreateTable :: Migrations.mlog st))).
        -- destruct (run_files_spec env (Migrations.applied st) (m :: files)
                       (Migrations.mkState (Migrations.applied st)
                          (Migrations.MgSelectApplied :: Migrations.MgCreateTable
                           :: Migrations.mlog st)))
             as (added & Hlog & Hincl & Hexec & Hins & Hrows & Hdone & _).
           exists (added ++ [Migrations.MgSelectApplied; Migrations.MgCreateTable]).
           split; [rewrite Hlog, <- app_assoc; reflexivity|].
           split; [exact Hincl|].
           split.
           { intros s Hs. apply in_app_or in Hs. destruct Hs as [Hs|[E|[E|[]]]];
               try discriminate.
             destruct (Hexec s Hs) as (m0 & H1 & H2 & H3). exists m0.
             split; [exact H1|]. split; [|exact H3].
             intros Hin. apply is_applied_In in Hin. congruence. }
           split.
           { intros f Hf. destruct (Hrows f Hf) as [H|(m0 & H1 & H2 & H3)];
               [left; exact H|].
             right. exists m0. split; [exact H1|]. split; [exact H2|].
             apply in_or_app. left. exact H3. }
           assert (Hall : fst (Migrations.run_files env (m :: files) (Migrations.applied st)
                                 (Migrations.mkState (Migrations.applied st)
                                    (Migrations.MgSelectApplied :: Migrations.MgCreateTable
                                     :: Migrations.mlog st))) = true ->
                          forall m0, In m0 (m :: files) ->
                            In (Migrations.name m0)
                               (Migrations.applied
                                  (snd (Migrations.run_files env (m :: files)
                                          (Migrations.applied st)
                                          (Migrations.mkState (Migrations.applied st)
                                             (Migrations.MgSelectApplied
                                              :: Migrations.MgCreateTable
                                              :: Migrations.mlog st)))))).
           { intros Hok m0 Hm0. destruct (Hdone Hok m0 Hm0) as [H|H]; [|exact H].
             apply Hincl. exact H. }
           split; [intros Hok _; exact (Hall Hok)|].
           intros Hok. apply Hsecond. intros _ m0 Hm0.
           exact (Hall Hok m0 Hm0).
        -- exists [Migrations.MgSelectApplied; Migrations.MgCreateTable]. simpl.
           split; [reflexivity|]. split; [apply incl_refl|].
           split; [intros s [E|[E|[]]]; discriminate|]. split; [auto|].
           split; discriminate.
      * exists [Migrations.MgCreateTable]. simpl.
        split; [reflexivity|]. split; [apply incl_refl|].
        split; [intros s [E|[]]; discriminate|]. split; [auto|].
        split; discriminate.
  - destruct Hidle as (added & H1 & H2 & H3 & H4). exists added.
    split; [exact H1|]. split; [exact H2|]. split; [exact H3|]. split; [exact H4|].
    split; [discriminate|].
    intros _. apply Hsecond. discriminate.
Qed.

(* --------------------------------------------------------------------- *)
(** ** The markdown fence around an AI answer                             *)
(* --------------------------------------------------------------------- *)

Lemma rev_string_app (a b acc : string) :
  rev_string (a ++ b)%string acc = rev_string b (rev_string a acc).
Proof.
  revert acc; induction a as [|c a IH]; intros acc; simpl; [reflexivity | apply IH].
Qed.

Lemma string_app_assoc (a b c : string) :
  ((a ++ b) ++ c)%string = (a ++ b ++ c)%string.
Proof. induction a as [|x a IH]; simpl; [reflexivity | rewrite IH; reflexivity]. Qed.

Lemma string_length_app (a b : string) :
  String.length (a ++ b)%string = String.length a + String.length b.
Proof. induction a as [|c a IH]; simpl; [reflexivity | rewrite IH; reflexivity]. Qed.

Lemma substring_0_app (a b : string) :
  String.substring 0 (String.length a) (a ++ b)%string = a.
Proof.
  induction a as [|c a IH]; simpl.
  - destruct b; reflexivity.
  - rewrite IH. reflexivity.
Qed.

Lemma substring_0_all (s : string) : String.substring 0 (String.length s) s = s.
Proof.
  rewrite <- (string_app_nil_r s) at 2. apply substring_0_app.
Qed.

Lemma lstrip_app_newline (a : string) :
  lstrip (a ++ Fence.newline)%string = (lstrip a ++ Fence.newline)%string \/
  (lstrip a = EmptyString /\ lstrip (a ++ Fence.newline)%string = EmptyString).
Proof.
  induction a as [|c a IH]; simpl.
  - right. split; reflexivity.
  - destruct (is_space c); [exact IH | left; reflexivity].
Qed.

Lemma rstrip_app_newline (a : string) :
  rstrip (a ++ Fence.newline)%string = rstrip a.
Proof.
  unfold rstrip. rewrite rev_string_app. reflexivity.
Qed.

Lemma strip_between_newlines (body : string) :
  strip (Fence.newline ++ body ++ Fence.newline)%string = strip body.
Proof.
  unfold strip. change (lstrip (Fence.newline ++ body ++ Fence.newline)%string)
    with (lstrip (body ++ Fence.newline)%string).
  destruct (lstrip_app_newline body) as [E|[E1 E2]].
  - rewrite E. apply rstrip_app_newline.
  - rewrite E1, E2. reflexivity.
Qed.

Lemma strip_fenced (tag rest : string) :
  strip ("```" ++ tag ++ rest ++ "```")%string = ("```" ++ tag ++ rest ++ "```")%string.
Proof.
  unfold strip. change (lstrip ("```" ++ tag ++ rest ++ "```")%string)
    with ("```" ++ tag ++ rest ++ "```")%string.
  unfold rstrip.
  replace ("```" ++ tag ++ rest ++ "```")%string
    with (("```" ++ tag ++ rest) ++ "```")%string at 1.
  - rewrite rev_string_app.
    change (rev_string "```" (rev_string ("```" ++ tag ++ rest) ""))%string
      with ("```" ++ rev_string ("```" ++ tag ++ rest) "")%string.
    change (lstrip ("```" ++ rev_string ("```" ++ tag ++ rest) "")%string)
      with (rev_string "```" (rev_string ("```" ++ tag ++ rest) ""))%string.
    rewrite <- rev_string_app. rewrite rev_string_involutive.
    rewrite !string_app_assoc. reflexivity.
  - rewrite !string_app_assoc. reflexivity.
Qed.

Lemma endswith_fence (a : string) : endswith (a ++ "```")%string "```" = true.
Proof.
  unfold endswith. rewrite rev_string_app. simpl.
  destruct (rev_string a ""); reflexivity.
Qed.

Lemma startswith_prefix (p rest : string) : startswith (p ++ rest)%string p = true.
Proof.
  unfold startswith. induction p as [|c p IH]; simpl.
  - destruct rest; reflexivity.
  - destruct (ascii_dec c c) as [_|N]; [exact IH | congruence].
Qed.

Lemma drop_end_fence (a : string) : drop_end 3 (a ++ "```")%string = a.
Proof.
  unfold drop_end. rewrite string_length_app. simpl String.length.
  replace (String.length a + 3 - 3) with (String.length a) by lia.
  apply substring_0_app.
Qed.

Lemma fenced_eq (tag body : string) :
  Fence.fenced tag body
  = ("```" ++ tag ++ (Fence.newline ++ body ++ Fence.newline) ++ "```")%string.
Proof.
  unfold Fence.fenced. rewrite !string_app_assoc. reflexivity.
Qed.

(** X25. The cleaning step of [parse_gemini_response] and
    [check_video_availability] unwraps a fenced answer: for a body between
    a first line of three backticks, with or without the tag json, and a
    last line of three backticks, the text handed to the JSON parser is
    the body without its surrounding whitespace, exactly as if the body
    had been sent bare. *)
Theorem fenced_answer_is_unwrapped :
  forall body : string,
    clean_text (Fence.fenced "json" body) = strip body /\
    clean_text (Fence.fenced "" body) = strip body.
Proof.
  intros body. rewrite !fenced_eq. unfold clean_text. split.
  - rewrite (strip_fenced "json" (Fence.newline ++ body ++ Fence.newline)).
    change ("```" ++ "json" ++ (Fence.newline ++ body ++ Fence.newline) ++ "```")%string
      with ("```json" ++ (Fence.newline ++ body ++ Fence.newline) ++ "```")%string.
    rewrite startswith_prefix.
    change (drop 7 ("```json" ++ (Fence.newline ++ body ++ Fence.newline) ++ "```"))%string
      with (String.substring 0
              (String.length ((Fence.newline ++ body ++ Fence.newline) ++ "```")%string)
              ((Fence.newline ++ body ++ Fence.newline) ++ "```")%string).
    rewrite substring_0_all, endswith_fence, drop_end_fence.
    apply strip_between_newlines.
  - rewrite (strip_fenced "" (Fence.newline ++ body ++ Fence.newline)).
    change ("```" ++ "" ++ (Fence.newline ++ body ++ Fence.newline) ++ "```")%string
      with ("```" ++ (Fence.newline ++ body ++ Fence.newline) ++ "```")%string.
    change (startswith ("```" ++ (Fence.newline ++ body ++ Fence.newline) ++ "```")
              "```json")%string with false. cbv iota.
    rewrite startswith_prefix.
    change (drop 3 ("```" ++ (Fence.newline ++ body ++ Fence.newline) ++ "```"))%string
      with (String.substring 0
              (String.length ((Fence.newline ++ body ++ Fence.newline) ++ "```")%string)
              ((Fence.newline ++ body ++ Fence.newline) ++ "```")%string).
    rewrite substring_0_all, endswith_fence, drop_end_fence.
    apply strip_between_newlines.
Qed.

(* --------------------------------------------------------------------- *)
(** ** Account passwords                                                  *)
(* --------------------------------------------------------------------- *)

Lemma length_string_of_list_ascii (l : list ascii) :
  String.length (string_of_list_ascii l) = length l.
Proof. induction l as [|c l IH]; simpl; [reflexivity | rewrite IH; reflexivity]. Qed.

(** X26. [generate_random_password] gives a password of 12 to 16
    characters, each a letter of the English alphabet or a digit, whatever
    the random draws are. *)
Theorem password_is_alphanumeric_of_bounded_length :
  forall (rnd : nat) (pick : nat -> nat),
    12 <= String.length (Password.generate_random_password rnd pick) /\
    String.length (Password.generate_random_password rnd pick) <= 16 /\
    forall c,
      In c (list_ascii_of_string (Password.generate_random_password rnd pick)) ->
      Password.is_alphanumeric c = true.
Proof.
  intros rnd pick. unfold Password.generate_random_password.
  rewrite length_string_of_list_ascii, list_ascii_of_string_of_list_ascii.
  unfold Password.choices. rewrite length_map, length_seq.
  assert (Hr : 12 <= randint 12 16 rnd <= 16).
  { unfold randint. pose proof (Nat.mod_upper_bound rnd (16 - 12 + 1)). simpl in *. lia. }
  split; [lia|]. split; [lia|].
  intros c Hc. apply in_map_iff in Hc. destruct Hc as (i & <- & _).
  set (chars := list_ascii_of_string (Password.ascii_letters ++ Password.digits)).
  assert (Hall : forallb Password.is_alphanumeric chars = true) by (vm_compute; reflexivity).
  rewrite forallb_forall in Hall. apply Hall. apply nth_In.
  apply Nat.mod_upper_bound. unfold chars. vm_compute. discriminate.
Qed.

(* --------------------------------------------------------------------- *)
(** ** Credentials over a batch                                           *)
(* --------------------------------------------------------------------- *)

Lemma store_credentials ops st :
  table_wf (tbl st) ->
  table_wf (tbl (apply_table_ops ops st)) /\
  credentials_kept (tbl st) (tbl (apply_table_ops ops st)).
Proof.
  intros Hwf.
  apply (@apply_table_ops_invariant
           (fun t => table_wf t /\ credentials_kept (tbl st) t)).
  - intros t k now (H1 & H2). unfold mark_key_used.
    split; [apply table_wf_update; [reflexivity | exact H1]|].
    apply credentials_kept_update; [|exact H2]. intros x. repeat split.
  - intros t k reason now (H1 & H2). unfold disable_key.
    split; [apply table_wf_update; [reflexivity | exact H1]|].
    apply credentials_kept_update; [|exact H2]. intros x. repeat split.
  - intros t key email pw (H1 & H2).
    split; [apply table_wf_insert; exact H1|].
    intros r Hr. destruct (H2 r Hr) as (r' & Hin & Hsame).
    exists r'. split; [simpl; apply in_or_app; auto | exact Hsame].
  - split; [exact Hwf|].
    intros r Hr. exists r. split; [exact Hr | repeat split].
Qed.

Lemma cut_and_upload_pool env video_path segments w :
  key_manager (snd (cut_and_upload env video_path segments w)) = key_manager w.
Proof.
  unfold cut_and_upload.
  destruct (cut_loop env (video_id (item w)) video_path segments 1 [] (mlog w))
    as [[[|sh created]|e] log]; try reflexivity.
  set (w2 := commit (update_item (set_mlog w log) (fun i =>
               set_shorts_count (set_conversion_status i completed)
                 (length (sh :: created))))).
  destruct (upload_loop_spec env (video_id (item w)) (sh :: created) w2)
    as ((_ & _ & _ & Hkm & _) & _).
  destruct (upload_loop env (video_id (item w)) (sh :: created) w2) as [[u|e] w3];
    simpl in Hkm |- *; exact Hkm.
Qed.

Lemma check_video_availability_pool env video_id km log :
  incl (keys (fst (snd (check_video_availability env video_id km log)))) (keys km).
Proof.
  unfold check_video_availability.
  destruct (@call_gemini_api_bounds env (availability_prompt env video_id) _ 0 km log
              eq_refl) as (r & km1 & log1 & -> & Hincl & _).
  destruct r as [v|]; [destruct (truthy v)|]; exact Hincl.
Qed.

Lemma analyze_transcript_pool env prompt km log :
  incl (keys (fst (snd (analyze_transcript env prompt km log)))) (keys km).
Proof.
  unfold analyze_transcript.
  destruct (analyze_loop_spec env prompt 3 3 0 km log) as (r & km' & log' & -> & Hincl & _).
  exact Hincl.
Qed.

Lemma after_download_pool env transcript video_path w :
  incl (keys (key_manager (snd (after_download env transcript video_path w))))
       (keys (key_manager w)).
Proof.
  unfold after_download.
  pose proof (check_video_availability_pool (ai env) (video_id (item w))
                (key_manager w) (alog w)) as Hc.
  destruct (check_video_availability (ai env) (video_id (item w)) (key_manager w) (alog w))
    as [[is_available|e] st]; simpl in Hc; [|exact Hc].
  destruct (truthy is_available); cbn [negb]; [|exact Hc].
  pose proof (analyze_transcript_pool (ai env) (analysis_prompt env transcript)
                (key_manager (set_ai w st)) (alog (set_ai w st))) as Ha.
  destruct (analyze_transcript (ai env) (analysis_prompt env transcript)
              (key_manager (set_ai w st)) (alog (set_ai w st)))
    as [[[[|seg segs]|]|e] st2]; simpl in Ha;
    try (simpl; eapply incl_tran; [exact Ha | exact Hc]).
  rewrite cut_and_upload_pool. simpl. eapply incl_tran; [exact Ha | exact Hc].
Qed.

Lemma process_single_video_pool env w :
  incl (keys (key_manager (snd (process_single_video env w)))) (keys (key_manager w)).
Proof.
  assert (Hsteps : incl (keys (key_manager (snd (process_steps env (set_stats w initial_stats)))))
                        (keys (key_manager w))).
  { unfold process_steps.
    set (w1 := commit (update_item (set_stats w initial_stats)
                         (fun i => set_transcript_status i fetching))).
    destruct (fetch_transcript_with_retry (transcripts env) (video_id (item w1)) 3
                (tstate w1)) as [r ts].
    destruct r as [[[|t transcript]|]|e].
    - apply incl_refl.
    - cbv zeta.
      destruct (download_video env _ _) as [video_path|]; [|apply incl_refl].
      destruct (video_path =? "")%string; [apply incl_refl|].
      match goal with
      | |- context [after_download env ?tr ?vp ?w6] =>
        exact (after_download_pool env tr vp w6)
      end.
    - apply incl_refl.
    - destruct e as [| | | | | |resp]; try apply incl_refl.
      destruct resp as [rs|]; [|apply incl_refl].
      destruct (response_truth rs && (status_code rs =? 404)%Z); apply incl_refl. }
  unfold process_single_video.
  destruct (process_steps env (set_stats w initial_stats)) as [[u|e] w1];
    simpl in *; exact Hsteps.
Qed.

Lemma process_single_video_tstate env w :
  tstate (snd (process_single_video env w))
  = snd (fetch_transcript_with_retry (transcripts env) (video_id (item w)) 3 (tstate w)).
Proof.
  pose proof (process_steps_tstate env (set_stats w initial_stats)) as H.
  unfold process_single_video.
  destruct (process_steps env (set_stats w initial_stats)) as [[u|e] w1];
    simpl in *; exact H.
Qed.

Lemma process_batch_credentials env :
  forall pvs w total_shorts skipped_count,
    table_wf (tbl (tstate w)) ->
    incl (keys (key_manager
                  (snd (snd (process_batch env pvs w total_shorts skipped_count)))))
         (keys (key_manager w)) /\
    table_wf (tbl (tstate (snd (snd (process_batch env pvs w total_shorts skipped_count))))) /\
    credentials_kept (tbl (tstate w))
      (tbl (tstate (snd (snd (process_batch env pvs w total_shorts skipped_count))))).
Proof.
  induction pvs as [|pv rest IH]; intros w total_shorts skipped_count Hwf.
  - simpl. split; [apply incl_refl|]. split; [exact Hwf|].
    intros r Hr. exists r. split; [exact Hr | repeat split].
  - cbn [process_batch].
    pose proof (process_single_video_pool env (set_item w pv)) as Hpool.
    pose proof (process_single_video_tstate env (set_item w pv)) as Hts.
    pose proof (@store_credentials
                  [TFetch (transcripts env) (video_id (item (set_item w pv))) 3]
                  (tstate (set_item w pv)) Hwf) as Hstore.
    cbn [apply_table_ops fold_left apply_table_op] in Hstore. rewrite <- Hts in Hstore.
    destruct (process_single_video env (set_item w pv)) as [st w1].
    simpl in Hpool, Hstore. destruct Hstore as (Hwf1 & Hkept1).
    specialize (IH w1 (total_shorts + shorts_created st)
                  (if stats_skipped st then skipped_count + 1 else skipped_count) Hwf1).
    destruct (process_batch env rest w1 (total_shorts + shorts_created st)
                (if stats_skipped st then skipped_count + 1 else skipped_count))
      as [[t s] [done w2]].
    simpl in IH |- *. destruct IH as (Hp & Hw & Hk).
    split; [eapply incl_tran; eassumption|]. split; [exact Hw|].
    intros r Hr. destruct (Hkept1 r Hr) as (r1 & Hr1 & Hsame1).
    destruct (Hk r1 Hr1) as (r2 & Hr2 & Hsame2). exists r2. split; [exact Hr2|].
    destruct Hsame1 as (A1 & A2 & A3 & A4 & A5), Hsame2 as (B1 & B2 & B3 & B4 & B5).
    repeat split; congruence.
Qed.

(** X27. Credentials over a batch. Whatever the batch meets, the AI pool
    at its end holds only keys it held at the start (a key retired while
    one video was processed stays out for the videos after it), and the
    transcript-key table, if its ids were unique and below the counter,
    is still so and still holds every credential it held. *)
Theorem batch_never_adds_ai_keys_nor_loses_transcript_keys :
  forall (env : Pipeline.Env) (limit : nat) (table : list PlaylistVideo) (w : World),
    table_wf (tbl (tstate w)) ->
    incl (keys (key_manager (snd (snd (Outcome.main env limit table w)))))
         (keys (key_manager w)) /\
    table_wf (tbl (tstate (snd (snd (Outcome.main env limit table w))))) /\
    credentials_kept (tbl (tstate w))
      (tbl (tstate (snd (snd (Outcome.main env limit table w))))).
Proof.
  intros env limit table w Hwf. unfold Outcome.main.
  apply process_batch_credentials. exact Hwf.
Qed.

Lemma batch_never_adds_ai_keys_nor_loses_transcript_keys_witness :
  table_wf
    (tbl (tstate (snd (snd (Outcome.main
                              (Scenario.pipeline_env Scenario.transcript_answer
                                 Scenario.one_segment true true)
                              5 [Scenario.fresh_item] Scenario.fresh_world))))).
Proof.
  refine (proj1 (proj2 (@batch_never_adds_ai_keys_nor_loses_transcript_keys
                          (Scenario.pipeline_env Scenario.transcript_answer
                             Scenario.one_segment true true)
                          5 [Scenario.fresh_item] Scenario.fresh_world _))).
  split; simpl.
  - repeat constructor; simpl; tauto.
  - repeat constructor.
Defined.

(* --------------------------------------------------------------------- *)
(** ** Extracting the videos of a playlist                                *)
(* --------------------------------------------------------------------- *)

Lemma entries_loop_spec env playlist :
  forall entries videos,
    (forallb Discovery.readable entries = true ->
     Discovery.entries_loop env playlist entries videos
     = Ok (videos ++ Discovery.with_id env playlist entries)) /\
    (forallb Discovery.readable entries = false ->
     exists e, Discovery.entries_loop env playlist entries videos = Raise e).
Proof.
  induction entries as [|entry rest IH]; intros videos.
  - simpl. rewrite app_nil_r. split; [reflexivity | discriminate].
  - destruct entry as [|b|n|s|items|d]; cbn [Discovery.entries_loop forallb Discovery.readable andb];
      try (split; [discriminate | eauto]).
    + destruct (IH videos) as [H1 H2]. split; [exact H1 | exact H2].
    + cbv zeta. cbn [Discovery.video_id Discovery.entry_video].
      cbn [Discovery.with_id flat_map].
      destruct (truthy (Discovery.get d "id")).
      * destruct (IH (videos ++ [Discovery.entry_video env playlist d])) as [H1 H2].
        split; [|exact H2].
        intros H. rewrite (H1 H), <- app_assoc. reflexivity.
      * destruct (IH videos) as [H1 H2]. split; [exact H1 | exact H2].
Qed.

Lemma with_id_truthy env playlist entries v :
  In v (Discovery.with_id env playlist entries) ->
  truthy (Discovery.video_id v) = true /\ Discovery.playlist_url v = playlist.
Proof.
  unfold Discovery.with_id. intros H. apply in_flat_map in H.
  destruct H as (entry & _ & Hv). destruct entry as [| | | | |d]; try contradiction.
  destruct (truthy (Discovery.get d "id")) eqn:E; [|contradiction].
  destruct Hv as [<-|[]]. split; [exact E | reflexivity].
Qed.

(** X28. [extract_video_info] returns only videos that carry an id, each
    with the URL it was asked about as its playlist URL. For a playlist
    whose entries are dictionaries or [None], it returns, in order, one
    video per entry with a truthy id and skips the others; but when a
    single entry is anything else, or the extractor raises or gives
    nothing, the whole result is the empty list. *)
Theorem extraction_keeps_the_entries_with_an_id :
  forall (env : Discovery.Env) (video_url : string),
    (forall v, In v (Discovery.extract_video_info env video_url) ->
       truthy (Discovery.video_id v) = true /\ Discovery.playlist_url v = video_url) /\
    (forall d entries,
       Discovery.extract_info env video_url = Discovery.Extracted (JObj d) ->
       dict_get "entries" d = Some (JArr entries) ->
       Discovery.extract_video_info env video_url
       = if forallb Discovery.readable entries
         then Discovery.with_id env video_url entries
         else []) /\
    (Discovery.extract_info env video_url = Discovery.ExtractRaises \/
     Discovery.extract_info env video_url = Discovery.Extracted JNull ->
     Discovery.extract_video_info env video_url = []).
Proof.
  intros env video_url. split; [|split].
  - unfold Discovery.extract_video_info.
    destruct (Discovery.extract_info env video_url) as [info|]; [|intros v []].
    destruct (truthy info); cbn [negb]; [|intros v []].
    unfold Discovery.extract_body.
    destruct (str_in "entries" info) as [[|]|e]; cbn [bind]; [| |intros v []].
    + destruct (getitem info "entries") as [es|e]; cbn [bind]; [|intros v []].
      destruct (len es) as [n|e]; cbn [bind]; [|intros v []].
      destruct (iterate es) as [entries|e]; cbn [bind]; [|intros v []].
      destruct (entries_loop_spec env video_url entries []) as [H1 H2].
      destruct (forallb Discovery.readable entries).
      * rewrite (H1 eq_refl). simpl. intros v Hv. eapply with_id_truthy. exact Hv.
      * destruct (H2 eq_refl) as [e ->]. intros v [].
    + destruct info as [| | | | |d]; try (intros v []).
      cbv zeta. cbn [Discovery.video_id Discovery.single_video].
      destruct (truthy (Discovery.get d "id")) eqn:E; [|intros v []].
      intros v [<-|[]]. split; [exact E | reflexivity].
  - intros d entries Hinfo Hentries. unfold Discovery.extract_video_info. rewrite Hinfo.
    assert (Ht : truthy (JObj d) = true).
    { destruct d; [discriminate | reflexivity]. }
    rewrite Ht. cbn [negb]. unfold Discovery.extract_body.
    cbn [str_in]. unfold dict_has. rewrite Hentries. cbn [bind getitem].
    rewrite Hentries. cbn [bind len iterate].
    destruct (entries_loop_spec env video_url entries []) as [H1 H2].
    destruct (forallb Discovery.readable entries).
    + rewrite (H1 eq_refl). reflexivity.
    + destruct (H2 eq_refl) as [e ->]. reflexivity.
  - unfold Discovery.extract_video_info. intros [-> | ->]; reflexivity.
Qed.

Lemma extraction_keeps_the_entries_with_an_id_witness :
  Discovery.extract_video_info
    (Discovery.mkEnv
       (fun _ => Discovery.Extracted
                   (JObj [("entries"%string,
                           JArr [JObj [("id"%string, JStr "a")]; JNull;
                                 JObj [("title"%string, JStr "no id")]])]))
       (fun v => match v with JStr s => s | _ => "None"%string end))
    "https://youtube.com/playlist?list=x"
  = [Discovery.mkVideoDict (JStr "a") "https://youtube.com/watch?v=a" JNull JNull JNull
       JNull "https://youtube.com/playlist?list=x"].
Proof.
  exact (proj1 (proj2 (extraction_keeps_the_entries_with_an_id
                         (Discovery.mkEnv
                            (fun _ => Discovery.Extracted
                                        (JObj [("entries"%string,
                                                JArr [JObj [("id"%string, JStr "a")]; JNull;
                                                      JObj [("title"%string, JStr "no id")]])]))
                            (fun v => match v with JStr s => s | _ => "None"%string end))
                         "https://youtube.com/playlist?list=x"))
           _ _ eq_refl eq_refl).
Defined.

(* ===================================================================== *)
(** * database.py: splitting a migration script                           *)
(* ===================================================================== *)

(** A statement that is not empty and has no white space at either end. *)
Definition stripped (st : list ascii) : Prop :=
  st <> [] /\
  (forall c rest, st = c :: rest -> member c Sql.WHITESPACE = false) /\
  (forall c rest, st = rest ++ [c] -> member c Sql.WHITESPACE = false).

Lemma strip_stripped b : Sql.strip b <> [] -> stripped (Sql.strip b).
Proof.
  intros Hne. unfold stripped, Sql.strip in *.
  destruct (strip_chars_ends Sql.WHITESPACE b) as [Hh Ht].
  split; [exact Hne|]. split; assumption.
Qed.

Lemma close_statement_clean s :
  Forall stripped (Sql.statements s) ->
  Forall stripped (Sql.statements (Sql.close_statement s)).
Proof.
  intros H. unfold Sql.close_statement. cbn [Sql.statements].
  destruct (Sql.strip (Sql.buffer s)) as [|c r] eqn:E; [exact H|].
  apply Forall_app. split; [exact H|]. constructor; [|constructor].
  rewrite <- E. apply strip_stripped. rewrite E. discriminate.
Qed.

Lemma ordinary_clean c s :
  Forall stripped (Sql.statements s) ->
  Forall stripped (Sql.statements (Sql.ordinary c s)).
Proof.
  intros H. unfold Sql.ordinary.
  destruct ((c =? Sql.single_quote)%char && negb (Sql.in_double_quote s)); [exact H|].
  destruct ((c =? double_quote)%char && negb (Sql.in_single_quote s)); [exact H|].
  destruct ((c =? ";")%char && negb (Sql.in_single_quote s) &&
            negb (Sql.in_double_quote s)).
  - apply close_statement_clean. exact H.
  - exact H.
Qed.

Lemma step_clean c text s :
  Forall stripped (Sql.statements s) ->
  Forall stripped (Sql.statements (fst (Sql.step c text s))).
Proof.
  intros H. unfold Sql.step.
  destruct (Sql.in_line_comment s).
  { destruct (c =? Sql.line_feed)%char; exact H. }
  destruct (Sql.in_block_comment s).
  { destruct (Sql.starts_with _ _); exact H. }
  destruct (Sql.dollar_quote_tag s) as [tag|].
  { destruct (Sql.starts_with _ _); exact H. }
  destruct (negb (Sql.in_single_quote s) && negb (Sql.in_double_quote s)).
  - destruct (Sql.starts_with _ _); [exact H|].
    destruct (Sql.starts_with _ _); [exact H|].
    destruct ((c =? "$")%char && _); [exact H|].
    apply ordinary_clean. exact H.
  - apply ordinary_clean. exact H.
Qed.

Lemma scan_clean sql :
  forall skip s,
    Forall stripped (Sql.statements s) ->
    Forall stripped (Sql.statements (Sql.scan sql skip s)).
Proof.
  induction sql as [|c text IH]; intros skip s H; [exact H|].
  cbn [Sql.scan]. destruct skip as [|k].
  - pose proof (@step_clean c text s H) as Hs.
    destruct (Sql.step c text s) as [s' jump]. apply IH. exact Hs.
  - apply IH. exact H.
Qed.

Lemma scan_plain sql :
  forall stmts buf,
    Sql.plain sql = true ->
    Sql.scan sql 0 (Sql.mkScan stmts buf false false false false None) =
    Sql.mkScan
      (stmts ++ filter Sql.not_empty (map Sql.strip (fst (Sql.pieces sql buf))))
      (snd (Sql.pieces sql buf)) false false false false None.
Proof.
  induction sql as [|c text IH]; intros stmts buf Hp.
  - cbn. rewrite app_nil_r. reflexivity.
  - cbn [Sql.plain] in Hp.
    apply andb_true_iff in Hp. destruct Hp as [Hp Hrest].
    apply andb_true_iff in Hp. destruct Hp as [Hp Hblock].
    apply andb_true_iff in Hp. destruct Hp as [Hmem Hline].
    apply negb_true_iff in Hmem, Hline, Hblock.
    unfold member in Hmem. cbn [existsb] in Hmem.
    apply orb_false_iff in Hmem. destruct Hmem as [Hsq Hmem].
    apply orb_false_iff in Hmem. destruct Hmem as [Hdq Hmem].
    apply orb_false_iff in Hmem. destruct Hmem as [Hdollar _].
    cbn [Sql.scan]. unfold Sql.step.
    cbn [Sql.in_line_comment Sql.in_block_comment Sql.dollar_quote_tag
         Sql.in_single_quote Sql.in_double_quote negb andb].
    rewrite Hline, Hblock, Hdollar. cbn [andb].
    unfold Sql.ordinary.
    cbn [Sql.in_single_quote Sql.in_double_quote negb].
    rewrite Hsq, Hdq. cbn [andb].
    cbn [Sql.pieces].
    destruct (c =? ";")%char eqn:Esemi; cbn [andb].
    + unfold Sql.close_statement.
      cbn [Sql.statements Sql.buffer Sql.in_single_quote Sql.in_double_quote
           Sql.in_line_comment Sql.in_block_comment Sql.dollar_quote_tag].
      rewrite (IH _ [] Hrest).
      destruct (Sql.pieces text []) as [closed last] eqn:Ep.
      cbn [fst snd map filter].
      destruct (Sql.strip buf) as [|a r] eqn:Eb; cbn [Sql.not_empty].
      * reflexivity.
      * rewrite <- app_assoc. reflexivity.
    + unfold Sql.append_buffer.
      cbn [Sql.statements Sql.buffer Sql.in_single_quote Sql.in_double_quote
           Sql.in_line_comment Sql.in_block_comment Sql.dollar_quote_tag].
      apply IH. exact Hrest.
Qed.

(** X29. Whatever the script, the statements [_split_sql_statements]
    returns are fit to be executed one by one: none is empty, none starts
    or ends with white space, and none is a bare COMMIT, BEGIN or START
    TRANSACTION in any letter case. *)
Theorem split_statements_are_clean :
  forall sql : string,
    Forall (fun st =>
              let cs := list_ascii_of_string st in
              cs <> [] /\
              (forall c rest, cs = c :: rest -> member c Sql.WHITESPACE = false) /\
              (forall c rest, cs = rest ++ [c] -> member c Sql.WHITESPACE = false) /\
              Sql.is_transaction_word cs = false)
           (Sql._split_sql_statements sql).
Proof.
  intros sql. unfold Sql._split_sql_statements.
  apply Forall_map. unfold Sql.split_chars.
  set (s := Sql.scan (list_ascii_of_string sql) 0 Sql.initial).
  assert (Hs : Forall stripped (Sql.statements s)).
  { unfold s. apply scan_clean. constructor. }
  assert (Hfound : Forall stripped
                     match Sql.strip (Sql.buffer s) with
                     | [] => Sql.statements s
                     | _ => Sql.statements s ++ [Sql.strip (Sql.buffer s)]
                     end).
  { destruct (Sql.strip (Sql.buffer s)) as [|a r] eqn:E; [exact Hs|].
    apply Forall_app. split; [exact Hs|]. constructor; [|constructor].
    rewrite <- E. apply strip_stripped. rewrite E. discriminate. }
  apply Forall_forall. intros st Hin. apply filter_In in Hin.
  destruct Hin as [Hin Hkeep]. apply negb_true_iff in Hkeep.
  rewrite Forall_forall in Hfound. specialize (Hfound st Hin).
  destruct Hfound as (Hne & Hh & Ht).
  cbn zeta. rewrite list_ascii_of_string_of_list_ascii.
  repeat split; assumption.
Qed.

(** X30. On a script without quotes, dollar signs and comment openers
    [_split_sql_statements] is splitting at every semicolon: the pieces
    between the semicolons are stripped, and the empty ones and the bare
    transaction words are left out, in the order of the script. *)
Theorem plain_script_is_split_at_semicolons :
  forall sql : string,
    Sql.plain (list_ascii_of_string sql) = true ->
    Sql._split_sql_statements sql =
    map string_of_list_ascii (Sql.split_at_semicolons (list_ascii_of_string sql)).
Proof.
  intros sql Hp. unfold Sql._split_sql_statements, Sql.split_chars,
    Sql.split_at_semicolons, Sql.initial.
  f_equal. rewrite (@scan_plain _ [] [] Hp).
  destruct (Sql.pieces (list_ascii_of_string sql) []) as [closed last].
  cbn [fst snd Sql.statements Sql.buffer app].
  rewrite map_app, filter_app. cbn [map filter].
  destruct (Sql.strip last) as [|a r]; cbn [Sql.not_empty].
  - rewrite app_nil_r. reflexivity.
  - reflexivity.
Qed.

Lemma plain_script_is_split_at_semicolons_witness :
  Sql._split_sql_statements
    "CREATE TABLE a (id INT);  begin ; ;ALTER TABLE a ADD b INT; commit"%string =
  ["CREATE TABLE a (id INT)"; "ALTER TABLE a ADD b INT"]%string.
Proof.
  rewrite (plain_script_is_split_at_semicolons
             "CREATE TABLE a (id INT);  begin ; ;ALTER TABLE a ADD b INT; commit"
             eq_refl).
  reflexivity.
Defined.
